(** * Subprovisioner: the volume state machine, capacity rules and deletion reaper

    A shallow embedding of the Go packages [pkg/csiplugin/common] (claim
    helpers, job helpers), [pkg/csiplugin/controller] (controller RPCs and the
    deletion monitor), followed by the properties of the volume lifecycle
    that are established (or refuted) on it.

    Conventions.
    - Go [string] is [string] (a sequence of bytes); [==] on strings is
      [String.eqb].
    - Go [int64] is [Z] together with the wrap-around [wrap64] written out
      wherever the source does arithmetic.
    - Go [map[string]string] is [gmap string string]; indexing a missing key
      yields the empty string ([annot]).  The source assigns to
      [pvc.Annotations] only in branches in which it has read a non-empty
      state from it, so the map is never nil where it is written.
    - Go [map[string]struct{}] is [gset string]; the unspecified order in
      which [range] walks a map is a parameter [range] of the functions that
      iterate.
    - The Kubernetes API server is a store of claim and snapshot objects plus
      an oracle that decides, request by request, whether the request is
      answered or refused; every request is appended to a log.  Jobs are not
      stored: what the cluster says about a job is the oracle's answer.
    - An [error] is a value of the sum [Error + A]; the code runs in the
      state-and-error monad [M].  Polling loops take [fuel], and running out
      of it is the result [OutOfFuel], which no caller can catch.
    - The read and the patch of a VolumeSnapshot object that [CreateSnapshot]
      sends act on the snapshot store and take what the API server does with
      them as an argument; they do not appear in the request log.
    - The worker of the deletion monitor takes what [queue.Get] returns, call
      after call, as a list; the goroutines and the informer that feed the
      queue are outside the model. *)

From Stdlib Require Import ZArith String Ascii List.
From stdpp Require Import base tactics option list gmap sets strings pretty.

Local Open Scope string_scope.
Local Open Scope Z_scope.

#[local] Set Warnings "-clear-no-such-hyp".

(** ** Go runtime helpers *)

Module golang.

(** [int64] wrap-around (two's complement). *)
Definition wrap64 (z : Z) : Z := (z + 2 ^ 63) mod 2 ^ 64 - 2 ^ 63.

Definition in_int64 (z : Z) : Prop := - 2 ^ 63 <= z < 2 ^ 63.

(** [strings.Split(s, sep)] for a one-byte separator: the fields between
    the separators, [n + 1] fields for [n] separators, so the empty string
    yields one empty field. *)
Fixpoint Split (s : string) (sep : ascii) : list string :=
  match s with
  | EmptyString => [EmptyString]
  | String c rest =>
      if Ascii.eqb c sep then EmptyString :: Split rest sep
      else match Split rest sep with
           | [] => [String c EmptyString]
           | field :: fields => String c field :: fields
           end
  end.

(** The double-quote and newline bytes, and a text given line by line. *)
Definition dq : string := String (ascii_of_nat 34) EmptyString.
Definition nl : string := String (ascii_of_nat 10) EmptyString.
Definition lines (l : list string) : string := String.concat nl l.

(** [strconv.FormatInt(i, 10)]. *)
Definition FormatInt (i : Z) : string := pretty i.

(** [strconv.ParseInt(s, 10, 64)]: an optional sign, then one or more
    decimal digits; a value outside [int64] is an error.  [None] is the
    error result. *)
Definition digit (c : ascii) : option Z :=
  let n := Z.of_N (N_of_ascii c) in
  if (48 <=? n) && (n <=? 57) then Some (n - 48) else None.

Fixpoint parse_digits (acc : Z) (s : string) : option Z :=
  match s with
  | EmptyString => Some acc
  | String c rest =>
      match digit c with
      | Some d => parse_digits (10 * acc + d) rest
      | None => None
      end
  end.

Definition parse_unsigned (s : string) : option Z :=
  match s with
  | EmptyString => None
  | _ => parse_digits 0 s
  end.

Definition ParseInt (s : string) : option Z :=
  let signed :=
    match s with
    | String "+" rest => parse_unsigned rest
    | String "-" rest => Z.opp <$> parse_unsigned rest
    | _ => parse_unsigned s
    end in
  match signed with
  | Some n => if (- 2 ^ 63 <=? n) && (n <? 2 ^ 63) then Some n else None
  | None => None
  end.

End golang.

(** ** gRPC status codes and errors *)

Inductive Code := InvalidArgument | FailedPrecondition | Unknown | Unimplemented.

(** Reasons with which the API server refuses a request. *)
Inductive Reason := NotFound | Conflict | AlreadyExists | ServerError.

Inductive Error :=
| Status (c : Code) (msg : string)   (* status.Errorf(c, msg) *)
| ErrorsNew (msg : string)           (* errors.New(msg) *)
| ApiError (r : Reason)              (* an error answered by the API server *)
| Panic (msg : string)               (* a Go run-time panic *)
| OutOfFuel.                         (* a polling loop that has not finished *)

Definition IsNotFound (e : Error) : bool :=
  match e with ApiError NotFound => true | _ => false end.
Definition IsConflict (e : Error) : bool :=
  match e with ApiError Conflict => true | _ => false end.
Definition IsAlreadyExists (e : Error) : bool :=
  match e with ApiError AlreadyExists => true | _ => false end.

(** ** Kubernetes objects *)

Module corev1.

(** The parts of a PersistentVolumeClaim that the driver reads or writes:
  object metadata only. *)
Record PersistentVolumeClaim := {
Name : string;
Namespace : string;
UID : string;
DeletionTimestamp : option Z;        (* nil, or the time of the deletion request *)
Labels : gmap string string;
Annotations : gmap string string;
Finalizers : list string
}.

Definition with_Annotations (a : gmap string string) (pvc : PersistentVolumeClaim) :=
  {| Name := Name pvc; Namespace := Namespace pvc; UID := UID pvc;
     DeletionTimestamp := DeletionTimestamp pvc; Labels := Labels pvc;
     Annotations := a; Finalizers := Finalizers pvc |}.

Definition with_Finalizers (f : list string) (pvc : PersistentVolumeClaim) :=
  {| Name := Name pvc; Namespace := Namespace pvc; UID := UID pvc;
     DeletionTimestamp := DeletionTimestamp pvc; Labels := Labels pvc;
     Annotations := Annotations pvc; Finalizers := f |}.

Definition with_Labels (l : gmap string string) (pvc : PersistentVolumeClaim) :=
  {| Name := Name pvc; Namespace := Namespace pvc; UID := UID pvc;
     DeletionTimestamp := DeletionTimestamp pvc; Labels := l;
     Annotations := Annotations pvc; Finalizers := Finalizers pvc |}.
End corev1.

Module volumesnapshotv1.
Record VolumeSnapshot := {
  Name : string;
  Namespace : string;
  UID : string;
  Labels : gmap string string;
  Annotations : gmap string string
}.
End volumesnapshotv1.

Abbreviation Pvc := corev1.PersistentVolumeClaim.
Abbreviation VolumeSnapshot := volumesnapshotv1.VolumeSnapshot.

(** [m[k]] on a Go map of strings: the zero value for a missing key. *)
Definition annot (m : gmap string string) (k : string) : string :=
  default "" (m !! k).

(** A label selector [key=value]. *)
Definition LabelSelector : Type := string * string.

Definition selects (sel : LabelSelector) (labels : gmap string string) : bool :=
  bool_decide (labels !! sel.1 = Some sel.2).

(** ** The cluster as seen through the client *)

Module batchv1.
(** The Job object that [common.CreateJob] submits: one container that
    mounts the backing claim at [/var/backing]. *)
Record Job := {
  Name : string;
  Namespace : string;
  Labels : gmap string string;
  BackoffLimit : Z;
  ContainerImage : string;
  ContainerCommand : list string;
  ContainerArgs : list string;
  MountSubPath : string;
  ClaimName : string
}.
End batchv1.

(** The requests the driver sends to the API server. *)
Inductive Call :=
| PvcGet (ns name : string)
| PvcList (sel : LabelSelector)
| PvcUpdate (obj : Pvc)
| PvcPatch (ns name : string) (patch : Pvc)
| SnapList (sel : LabelSelector)
| JobCreate (job : batchv1.Job)
| JobGet (ns name : string)
| JobDelete (ns name : string).

(** What the cluster does with one request: it answers it ([succeeded] is
    the job's [Status.Succeeded], read by [JobGet] only), or refuses it. *)
Inductive Answer := Answered (succeeded : Z) | Refused (r : Reason).

(** Operations on the reaper's work queue. *)
Inductive QueueOp :=
| Done (key : string) | Forget (key : string) | AddRateLimited (key : string).

Record World := {
  pvcs : gmap (string * string) Pvc;             (* by namespace and name *)
  snapshots : gmap (string * string) VolumeSnapshot;
  oracle : nat -> Answer;                        (* the fate of the n-th request *)
  log : list (Call * bool);                      (* requests so far, and whether they succeeded *)
  queue : list QueueOp                           (* work-queue operations so far *)
}.

Definition with_pvcs (p : gmap (string * string) Pvc) (w : World) : World :=
  {| pvcs := p; snapshots := snapshots w; oracle := oracle w; log := log w; queue := queue w |}.
Definition with_log (l : list (Call * bool)) (w : World) : World :=
  {| pvcs := pvcs w; snapshots := snapshots w; oracle := oracle w; log := l; queue := queue w |}.
Definition with_queue (q : list QueueOp) (w : World) : World :=
  {| pvcs := pvcs w; snapshots := snapshots w; oracle := oracle w; log := log w; queue := q |}.

(** *** The monad of the driver's code: state passing with Go's [error] *)

Definition M (A : Type) : Type := World -> (Error + A) * World.

Definition ret {A} (a : A) : M A := fun w => (inr a, w).
Definition fail {A} (e : Error) : M A := fun w => (inl e, w).
Definition bind {A B} (m : M A) (k : A -> M B) : M B :=
  fun w => match m w with
           | (inr a, w') => k a w'
           | (inl e, w') => (inl e, w')
           end.
(** [err := f()] followed by an inspection of [err]; a panic or a loop
    that does not finish is not an error value and passes through. *)
Definition try {A} (m : M A) : M (Error + A) :=
  fun w => match m w with
           | (inl (Panic msg), w') => (inl (Panic msg), w')
           | (inl OutOfFuel, w') => (inl OutOfFuel, w')
           | (r, w') => (inr r, w')
           end.

Notation "x <- c1 ;; c2" := (bind c1 (fun x => c2))
  (at level 200, c1 at level 99, right associativity).
Notation "c1 ;;; c2" := (bind c1 (fun _ => c2))
  (at level 200, right associativity).

Definition is_ok {A} (r : Error + A) : bool :=
  match r with inr _ => true | inl _ => false end.

(** One request: the oracle is asked about the request number [length log];
    an answered request is then served by [serve] on the stores, which may
    still fail (object missing). *)
Definition logged (c : Call) (ok : bool) (w : World) : World :=
  with_log (log w ++ [(c, ok)]) w.

Definition request {A} (c : Call) (serve : Z -> World -> (Error + A) * World) : M A :=
  fun w =>
    match oracle w (length (log w)) with
    | Refused r => (inl (ApiError r), logged c false w)
    | Answered n =>
        let '(res, w') := serve n w in
        (res, logged c (is_ok res) w')
    end.

(** The [k]-th request is answered rather than refused. *)
Definition answers (w : World) (k : nat) : bool :=
  match oracle w k with Answered _ => true | Refused _ => false end.

(** The typed client calls. *)
Definition pvcs_Get (ns name : string) : M Pvc :=
  request (PvcGet ns name) (fun _ w =>
    match pvcs w !! (ns, name) with
    | Some pvc => (inr pvc, w)
    | None => (inl (ApiError NotFound), w)
    end).

Definition pvcs_Update (obj : Pvc) : M unit :=
  request (PvcUpdate obj) (fun _ w =>
    let key := (corev1.Namespace obj, corev1.Name obj) in
    match pvcs w !! key with
    | Some _ => (inr tt, with_pvcs (<[key := obj]> (pvcs w)) w)
    | None => (inl (ApiError NotFound), w)
    end).

(** Strategic merge of a patch's metadata into an object: map entries of
    the patch override, finalizers are merged as a set. *)
Definition strategic_merge (patch obj : Pvc) : Pvc :=
  corev1.with_Labels (corev1.Labels patch ∪ corev1.Labels obj)
    (corev1.with_Annotations (corev1.Annotations patch ∪ corev1.Annotations obj)
       (corev1.with_Finalizers
          (corev1.Finalizers obj ++
             filter (fun f => f ∉ corev1.Finalizers obj) (corev1.Finalizers patch))
          obj)).

Definition pvcs_Patch (ns name : string) (patch : Pvc) : M unit :=
  request (PvcPatch ns name patch) (fun _ w =>
    match pvcs w !! (ns, name) with
    | Some obj => (inr tt, with_pvcs (<[(ns, name) := strategic_merge patch obj]> (pvcs w)) w)
    | None => (inl (ApiError NotFound), w)
    end).

Definition pvcs_List (sel : LabelSelector) : M (list Pvc) :=
  request (PvcList sel) (fun _ w =>
    (inr (filter (fun p => selects sel (corev1.Labels p)) (map snd (map_to_list (pvcs w)))), w)).

Definition snapshots_List (sel : LabelSelector) : M (list VolumeSnapshot) :=
  request (SnapList sel) (fun _ w =>
    (inr (filter (fun s => selects sel (volumesnapshotv1.Labels s))
            (map snd (map_to_list (snapshots w)))), w)).

(** Jobs live outside the model: whether one exists and how far it has
    run is the oracle's answer. *)
Definition jobs_Create (job : batchv1.Job) : M unit :=
  request (JobCreate job) (fun _ w => (inr tt, w)).
Definition jobs_Get (ns name : string) : M Z :=
  request (JobGet ns name) (fun succeeded w => (inr succeeded, w)).
Definition jobs_Delete (ns name : string) : M unit :=
  request (JobDelete ns name) (fun _ w => (inr tt, w)).

Definition queue_op (op : QueueOp) : M unit :=
  fun w => (inr tt, with_queue (queue w ++ [op]) w).

(** [time.Sleep]: no effect on the stores. *)
Definition time_Sleep : M unit := ret tt.

(** [retry.RetryOnConflict(retry.DefaultRetry, fn)] of client-go: [fn] is
    run up to [Steps] times, again only after a conflict; when the steps are
    used up the last conflict is returned. *)
Definition DefaultRetry_Steps : nat := 5.

Fixpoint RetryOnConflict (steps : nat) (fn : M unit) : M unit :=
  match steps with
  | O => fail (ErrorsNew "timed out waiting for the condition")
  | S steps' =>
      r <- try fn ;;
      match r with
      | inr _ => ret tt
      | inl e =>
          if IsConflict e
          then match steps' with O => fail e | S _ => time_Sleep ;;; RetryOnConflict steps' fn end
          else fail e
      end
  end.

(** ** Package common: names and paths *)

Module common.

Definition Domain : string := "subprovisioner.gitlab.io".

Definition GenerateVolumeImagePath (pvcUid : string) : string :=
  "/var/backing/pvc-" ++ pvcUid ++ ".qcow2".
Definition GenerateCreationJobName (pvcUid : string) : string :=
  "subprovisioner-create-" ++ pvcUid.
Definition GenerateDeletionJobName (pvcUid : string) : string :=
  "subprovisioner-delete-" ++ pvcUid.
Definition GenerateExpansionJobName (pvcUid : string) : string :=
  "subprovisioner-expand-" ++ pvcUid.

(** *** The staged-on-nodes encoding (pvc.go) *)

Definition stringListToSet (list : string) : gset string :=
  if String.eqb list "" then ∅
  else fold_left (fun set item => {[item]} ∪ set) (golang.Split list ",") ∅.

(** The body of the [for item := range set] loop of [setToStringList], run
    over the items in the order in which the map hands them out.  The state
    is the pair of the [empty] flag and the builder's contents. *)
Definition setToStringList_loop (items : list string) : string :=
  snd (fold_left
         (fun '(empty, builder) item =>
            (false, (if empty : bool then builder else builder ++ ",") ++ item))
         items (true, "")).

Section MapIteration.
(** Go leaves the iteration order of a map unspecified: [range] is any
    enumeration of the members of the set, each exactly once. *)
Variable range : gset string -> list string.

Definition setToStringList (set : gset string) : string :=
  setToStringList_loop (range set).
End MapIteration.

(** *** Claim helpers (pvc.go) *)

Definition stateKey : string := Domain ++ "/state".
Definition stagedOnNodesKey : string := Domain ++ "/staged-on-nodes".

(** [pvc.Annotations[k] = v] *)
Definition set_annotation (k v : string) (pvc : Pvc) : Pvc :=
  corev1.with_Annotations (<[k := v]> (corev1.Annotations pvc)) pvc.
(** [delete(pvc.Annotations, k)] *)
Definition delete_annotation (k : string) (pvc : Pvc) : Pvc :=
  corev1.with_Annotations (delete k (corev1.Annotations pvc)) pvc.

(** A patch object carrying metadata only. *)
Definition patch_of (labels annotations : gmap string string) (finalizers : list string) : Pvc :=
  {| corev1.Name := ""; corev1.Namespace := ""; corev1.UID := "";
     corev1.DeletionTimestamp := None; corev1.Labels := labels;
     corev1.Annotations := annotations; corev1.Finalizers := finalizers |}.

Definition FindPvcByLabelSelector (labelSelector : LabelSelector) : M Pvc :=
  list <- pvcs_List labelSelector ;;
  match list with
  | [] => fail (ErrorsNew "no objects found")
  | [item] => ret item
  | _ => fail (ErrorsNew "more than one object found")
  end.

Definition StrategicMergePatchPvc (pvcName pvcNamespace : string) (patch : Pvc) : M unit :=
  pvcs_Patch pvcNamespace pvcName patch.

Definition SetPvcStateToIdle (pvcName pvcNamespace : string) : M unit :=
  StrategicMergePatchPvc pvcName pvcNamespace
    (patch_of ∅ {[ stateKey := "idle" ]} []).

(** One run of the closure that [SetPvcStateTo] hands to the retry loop. *)
Definition SetPvcStateTo_attempt (pvcName pvcNamespace newState : string) : M unit :=
  pvc <- pvcs_Get pvcNamespace pvcName ;;
  match corev1.DeletionTimestamp pvc with
  | Some _ => fail (Status FailedPrecondition "volume is being deleted")
  | None =>
      let state := annot (corev1.Annotations pvc) stateKey in
      if String.eqb state newState then ret tt
      else if String.eqb state "idle" then pvcs_Update (set_annotation stateKey newState pvc)
      else if String.eqb state "expanding" then
        fail (Status FailedPrecondition "volume is being expanded")
      else if String.eqb state "cloning" then
        fail (Status FailedPrecondition "volume is being cloned")
      else if String.eqb state "snapshotting" then
        fail (Status FailedPrecondition "volume is being snapshotted")
      else if String.eqb state "staged" then
        fail (Status FailedPrecondition "volume is staged")
      else fail (Status FailedPrecondition "volume is in an unknown state")
  end.

Definition SetPvcStateTo (pvcName pvcNamespace newState : string) : M unit :=
  RetryOnConflict DefaultRetry_Steps (SetPvcStateTo_attempt pvcName pvcNamespace newState).

Section Staging.
Variable range : gset string -> list string.

Definition StagePvcOnNode_attempt (pvcName pvcNamespace nodeName : string) : M unit :=
  pvc <- pvcs_Get pvcNamespace pvcName ;;
  let state := annot (corev1.Annotations pvc) stateKey in
  if bool_decide (corev1.DeletionTimestamp pvc <> None) then
    fail (Status FailedPrecondition "volume is being deleted")
  else if String.eqb state "expanding" then
    fail (Status FailedPrecondition "volume is being expanded")
  else if String.eqb state "snapshotting" then
    fail (Status FailedPrecondition "volume is being snapshotted")
  else if String.eqb state "cloning" then
    fail (Status FailedPrecondition "volume is being cloned")
  else if negb (String.eqb state "idle") && negb (String.eqb state "staged") then
    fail (Status FailedPrecondition "volume is in an unknown state")
  else
    let pvc := set_annotation stateKey "staged" pvc in
    let stagedOnNodes := stringListToSet (annot (corev1.Annotations pvc) stagedOnNodesKey) in
    let stagedOnNodes := {[nodeName]} ∪ stagedOnNodes in
    let pvc := set_annotation stagedOnNodesKey (setToStringList range stagedOnNodes) pvc in
    pvcs_Update pvc.

Definition StagePvcOnNode (pvcName pvcNamespace nodeName : string) : M unit :=
  RetryOnConflict DefaultRetry_Steps (StagePvcOnNode_attempt pvcName pvcNamespace nodeName).

Definition UnstagePvcFromNode_attempt (pvcName pvcNamespace nodeName : string) : M unit :=
  pvc <- pvcs_Get pvcNamespace pvcName ;;
  let pvc :=
    if String.eqb (annot (corev1.Annotations pvc) stateKey) "staged" then
      let stagedOnNodes := stringListToSet (annot (corev1.Annotations pvc) stagedOnNodesKey) in
      let stagedOnNodes := stagedOnNodes ∖ {[nodeName]} in
      if Nat.eqb (size stagedOnNodes) 0 then
        set_annotation stateKey "idle" (delete_annotation stagedOnNodesKey pvc)
      else
        set_annotation stagedOnNodesKey (setToStringList range stagedOnNodes) pvc
    else pvc in
  pvcs_Update pvc.

Definition UnstagePvcFromNode (pvcName pvcNamespace nodeName : string) : M unit :=
  RetryOnConflict DefaultRetry_Steps (UnstagePvcFromNode_attempt pvcName pvcNamespace nodeName).
End Staging.

(** *** Snapshot lookup *)

Definition FindVolumeSnapshotByLabelSelector (labelSelector : LabelSelector) : M VolumeSnapshot :=
  list <- snapshots_List labelSelector ;;
  match list with
  | [] => fail (ErrorsNew "no objects found")
  | [item] => ret item
  | _ => fail (ErrorsNew "more than one object found")
  end.

(** *** Job helpers (job.go) *)

Record JobConfig := {
  Name : string;
  Namespace : string;
  Labels : gmap string string;
  Image : string;
  Command : list string;
  Args : list string;
  BackingPvcName : string;
  BackingPvcBasePath : string
}.

(** The Job object that [CreateJob] builds from its configuration. *)
Definition job_of (config : JobConfig) : batchv1.Job :=
  {| batchv1.Name := Name config;
     batchv1.Namespace := Namespace config;
     batchv1.Labels := Labels config;
     batchv1.BackoffLimit := 99999;
     batchv1.ContainerImage := Image config;
     batchv1.ContainerCommand := Command config;
     batchv1.ContainerArgs := Args config;
     batchv1.MountSubPath := BackingPvcBasePath config;
     batchv1.ClaimName := BackingPvcName config |}.

(** Idempotent: an already existing job is not an error. *)
Definition CreateJob (config : JobConfig) : M unit :=
  let job := job_of config in
  r <- try (jobs_Create job) ;;
  match r with
  | inl err => if negb (IsAlreadyExists err) then fail err else ret tt
  | inr _ => ret tt
  end.

(** The polling loop; [fuel] bounds the number of polls. *)
Fixpoint WaitForJobToSucceed (fuel : nat) (jobName jobNamespace : string) : M unit :=
  match fuel with
  | O => fail OutOfFuel
  | S fuel' =>
      succeeded <- jobs_Get jobNamespace jobName ;;
      if 0 <? succeeded then ret tt
      else time_Sleep ;;; WaitForJobToSucceed fuel' jobName jobNamespace
  end.

(** The loop of [DeleteJobSynchronously], entered with the pending [err]. *)
Fixpoint DeleteJobSynchronously_loop (fuel : nat) (err : option Error)
    (jobName jobNamespace : string) : M unit :=
  match err with
  | Some e => if IsNotFound e then ret tt else fail e
  | None =>
      match fuel with
      | O => fail OutOfFuel
      | S fuel' =>
          time_Sleep ;;;
          r <- try (jobs_Get jobNamespace jobName) ;;
          DeleteJobSynchronously_loop fuel'
            (match r with inl e => Some e | inr _ => None end) jobName jobNamespace
      end
  end.

(** Idempotent: succeeds at once when the job no longer exists. *)
Definition DeleteJobSynchronously (fuel : nat) (jobName jobNamespace : string) : M unit :=
  r <- try (jobs_Delete jobNamespace jobName) ;;
  DeleteJobSynchronously_loop fuel
    (match r with inl e => Some e | inr _ => None end) jobName jobNamespace.

End common.

(** ** CSI messages *)

Module csi.
Record CapacityRange := { RequiredBytes : Z; LimitBytes : Z }.

Inductive AccessMode_Mode :=
| UNKNOWN
| SINGLE_NODE_WRITER
| SINGLE_NODE_READER_ONLY
| MULTI_NODE_READER_ONLY
| MULTI_NODE_SINGLE_WRITER
| MULTI_NODE_MULTI_WRITER
| SINGLE_NODE_SINGLE_WRITER
| SINGLE_NODE_MULTI_WRITER.

Record VolumeCapability := {
  Block : bool;                          (* GetBlock() != nil *)
  AccessMode : option AccessMode_Mode    (* the AccessMode pointer: nil, or its Mode *)
}.

(** The [oneof] of a content source; [NoType] is a source message with
    neither alternative set. *)
Inductive VolumeContentSource :=
| Volume (VolumeId : string)
| Snapshot (SnapshotId : string)
| NoType.

Record CreateVolumeRequest := {
  Parameters : gmap string string;
  CreateCapacityRange : option CapacityRange;
  VolumeCapabilities : list VolumeCapability;
  ContentSource : option VolumeContentSource
}.

Record CreateVolumeResponse := {
  CapacityBytes : Z;
  VolumeId : string;
  VolumeContext : gmap string string;
  ResponseContentSource : option VolumeContentSource
}.

Record ControllerExpandVolumeRequest := {
  ExpandVolumeId : string;
  ExpandCapacityRange : option CapacityRange
}.

Record ControllerExpandVolumeResponse := {
  ExpandCapacityBytes : Z;
  NodeExpansionRequired : bool
}.
End csi.

(** ** Package controller *)

Module controller.
Import golang.

(** *** Capacity validation *)

(** The four results of the Go function: capacity, minimum, maximum and
    the error. *)
Definition validateCapacity (capacityRange : option csi.CapacityRange)
    : Z * Z * Z * option Error :=
  match capacityRange with
  | None => (-1, -1, -1, Some (Status InvalidArgument "must specify capacity"))
  | Some range =>
      let minCapacity := csi.RequiredBytes range in
      let maxCapacity := csi.LimitBytes range in
      if minCapacity =? 0 then
        (-1, -1, -1, Some (Status InvalidArgument "must specify minimum capacity"))
      else if negb (maxCapacity =? 0) && (maxCapacity <? minCapacity) then
        (-1, -1, -1,
         Some (Status InvalidArgument "minimum capacity must not exceed maximum capacity"))
      else
        let capacity := wrap64 (wrap64 (wrap64 (minCapacity + 511) ÷ 512) * 512) in
        if negb (maxCapacity =? 0) && (maxCapacity <? capacity) then
          (-1, -1, -1, Some (Status InvalidArgument "capacity must be a multiple of 512"))
        else (capacity, minCapacity, maxCapacity, None)
  end.

(** [validateCapacity] as a step of an RPC: [capacity, _, maxCapacity]. *)
Definition validateCapacity_step (capacityRange : option csi.CapacityRange) : M (Z * Z) :=
  match validateCapacity capacityRange with
  | (_, _, _, Some err) => fail err
  | (capacity, _, maxCapacity, None) => ret (capacity, maxCapacity)
  end.

(** The scripts handed to [bash -c], after [dedent]. *)
Definition creationScript : string :=
  lines [
    "";
    "set -o errexit -o pipefail -o nounset -o xtrace";
    "";
    "source=" ++ dq ++ "$1" ++ dq;
    "dest=" ++ dq ++ "$2" ++ dq;
    "common_ancestor_relative=" ++ dq ++ "$3" ++ dq;
    "capacity=" ++ dq ++ "$4" ++ dq;
    "";
    "# It's okay if we leave the " ++ dq ++ "destination" ++ dq ++ " volume image messed up when volume creation is cancelled, but";
    "# the same doesn't hold for the " ++ dq ++ "source" ++ dq ++ " volume image. Hence we replace the source volume image";
    "# atomically as the last operation.";
    "";
    "ln -f " ++ dq ++ "${source}" ++ dq ++ " " ++ dq ++ "/var/backing/${common_ancestor_relative}" ++ dq;
    "";
    "qemu-img create -f qcow2 -b " ++ dq ++ "${common_ancestor_relative}" ++ dq ++ " -F qcow2 " ++ dq ++ "${dest}" ++ dq ++ " " ++ dq ++ "${capacity}" ++ dq;
    "";
    "qemu-img create -f qcow2 -b " ++ dq ++ "${common_ancestor_relative}" ++ dq ++ " -F qcow2 " ++ dq ++ "${source}.new" ++ dq;
    "mv -f " ++ dq ++ "${source}.new" ++ dq ++ " " ++ dq ++ "${source}" ++ dq;
    "";
    "chmod a-w " ++ dq ++ "/var/backing/${common_ancestor_relative}" ++ dq ++ "  # should never modify this image";
    ""
  ].

Definition expansionScript : string :=
  lines [
    "";
    "set -o errexit -o pipefail -o nounset -o xtrace";
    "size=" ++ dq ++ "$( qemu-img info -f qcow2 --output=json " ++ dq ++ "$1" ++ dq ++ " | jq '.[" ++ dq ++ "virtual-size" ++ dq ++ "]' )" ++ dq;
    "if [ " ++ dq ++ "${size}" ++ dq ++ " -lt " ++ dq ++ "$2" ++ dq ++ " ]; then";
    "    qemu-img resize -f qcow2 " ++ dq ++ "$1" ++ dq ++ " " ++ dq ++ "$2" ++ dq;
    "fi";
    ""
  ].

(** *** Controller RPCs *)

Record ControllerServer := { Image : string }.

Definition cleanupFinalizer : string := common.Domain ++ "/cleanup".
Definition capacityKey : string := common.Domain ++ "/capacity".
Definition uidKey : string := common.Domain ++ "/uid".

(** The closure [getParameter] of [CreateVolume]. *)
Definition getParameter (parameters : gmap string string) (key : string) : M string :=
  let value := annot parameters key in
  if String.eqb value "" then
    fail (Status InvalidArgument ("missing/empty parameter " ++ dq ++ key ++ dq))
  else ret value.

(** The loop over [req.VolumeCapabilities]: the first offending capability
    ends the RPC. *)
Fixpoint check_capabilities (caps : list csi.VolumeCapability) : M unit :=
  match caps with
  | [] => ret tt
  | cap :: rest =>
      if negb (csi.Block cap) then
        fail (Status InvalidArgument "only block volumes are supported")
      else
        match csi.AccessMode cap with
        | None => fail (Panic "invalid memory address or nil pointer dereference")
        | Some (csi.SINGLE_NODE_WRITER | csi.SINGLE_NODE_READER_ONLY
               | csi.MULTI_NODE_READER_ONLY | csi.SINGLE_NODE_SINGLE_WRITER
               | csi.SINGLE_NODE_MULTI_WRITER) => check_capabilities rest
        | Some _ =>
            fail (Status InvalidArgument
                    "only access modes ReadWriteOnce, ReadWriteOncePod, and ReadOnlyMany are supported")
        end
  end.

Definition creation_labels (pvcUid : string) : gmap string string :=
  {[ common.Domain ++ "/component" := "volume-creation";
     common.Domain ++ "/pvc-uid" := pvcUid ]}.

Definition createVolumeFromNothing (fuel : nat) (s : ControllerServer)
    (backingPvcName backingPvcNamespace backingPvcBasePath : string)
    (pvc : Pvc) (capacity : Z) : M unit :=
  let volumeImagePath := common.GenerateVolumeImagePath (corev1.UID pvc) in
  let creationJobName := common.GenerateCreationJobName (corev1.UID pvc) in
  common.CreateJob
    {| common.Name := creationJobName;
       common.Namespace := backingPvcNamespace;
       common.Labels := creation_labels (corev1.UID pvc);
       common.Image := Image s;
       common.Command :=
         ["qemu-img"; "create"; "-f"; "qcow2"; volumeImagePath; FormatInt capacity];
       common.Args := [];
       common.BackingPvcName := backingPvcName;
       common.BackingPvcBasePath := backingPvcBasePath |} ;;;
  common.WaitForJobToSucceed fuel creationJobName backingPvcNamespace.

Definition createVolumeFromVolume (fuel : nat) (s : ControllerServer)
    (backingPvcName backingPvcNamespace backingPvcBasePath : string)
    (destPvc : Pvc) (capacity maxCapacity : Z) (sourcePvcUid : string) : M unit :=
  sourcePvc <- common.FindPvcByLabelSelector (uidKey, sourcePvcUid) ;;
  common.SetPvcStateTo (corev1.Name sourcePvc) (corev1.Namespace sourcePvc) "cloning" ;;;
  match ParseInt (annot (corev1.Annotations sourcePvc) capacityKey) with
  | None => fail (Status Unknown "failed to determine source volume capacity")
  | Some sourceCapacity =>
      if negb (maxCapacity =? 0) && (maxCapacity <? sourceCapacity) then
        fail (Status InvalidArgument
                ("source volume capacity (" ++ FormatInt sourceCapacity
                 ++ ") exceeds maximum capacity (" ++ FormatInt maxCapacity ++ ")"))
      else
        let capacity := if capacity <? sourceCapacity then sourceCapacity else capacity in
        let sourceVolumeImagePath := common.GenerateVolumeImagePath (corev1.UID sourcePvc) in
        let destVolumeImagePath := common.GenerateVolumeImagePath (corev1.UID destPvc) in
        let commonAncestorImageName :=
          "cloned-" ++ corev1.UID sourcePvc ++ "-to-" ++ corev1.UID destPvc ++ ".qcow2" in
        let creationJobName := common.GenerateCreationJobName (corev1.UID destPvc) in
        common.CreateJob
          {| common.Name := creationJobName;
             common.Namespace := backingPvcNamespace;
             common.Labels := creation_labels (corev1.UID destPvc);
             common.Image := Image s;
             common.Command :=
               ["bash"; "-c"; creationScript; "bash";
                sourceVolumeImagePath; destVolumeImagePath; commonAncestorImageName;
                FormatInt capacity];
             common.Args := [];
             common.BackingPvcName := backingPvcName;
             common.BackingPvcBasePath := backingPvcBasePath |} ;;;
        common.WaitForJobToSucceed fuel creationJobName backingPvcNamespace ;;;
        common.SetPvcStateToIdle (corev1.Name sourcePvc) (corev1.Namespace sourcePvc)
  end.

Definition createVolumeFromSnapshot (fuel : nat) (s : ControllerServer)
    (backingPvcName backingPvcNamespace backingPvcBasePath : string)
    (destPvc : Pvc) (capacity maxCapacity : Z) (volumeSnapshotUid : string) : M unit :=
  volumeSnapshot <- common.FindVolumeSnapshotByLabelSelector (uidKey, volumeSnapshotUid) ;;
  match ParseInt (annot (volumesnapshotv1.Annotations volumeSnapshot)
                    (common.Domain ++ "/size")) with
  | None => fail (Status Unknown "failed to determine source snapshot size")
  | Some snapshotSize =>
      if negb (maxCapacity =? 0) && (maxCapacity <? snapshotSize) then
        fail (Status InvalidArgument
                ("source snapshot size (" ++ FormatInt snapshotSize
                 ++ ") exceeds maximum capacity (" ++ FormatInt maxCapacity ++ ")"))
      else
        let capacity := if capacity <? snapshotSize then snapshotSize else capacity in
        let creationJobName := common.GenerateCreationJobName (corev1.UID destPvc) in
        common.CreateJob
          {| common.Name := creationJobName;
             common.Namespace := backingPvcNamespace;
             common.Labels := creation_labels (corev1.UID destPvc);
             common.Image := Image s;
             common.Command :=
               ["qemu-img"; "create"; "-f"; "qcow2";
                "-b"; "snapshot-" ++ volumesnapshotv1.UID volumeSnapshot ++ ".qcow2";
                "-F"; "qcow2";
                "/var/backing/pvc-" ++ corev1.UID destPvc ++ ".qcow2";
                FormatInt capacity];
             common.Args := [];
             common.BackingPvcName := backingPvcName;
             common.BackingPvcBasePath := backingPvcBasePath |} ;;;
        common.WaitForJobToSucceed fuel creationJobName backingPvcNamespace
  end.

(** The patch that puts the cleanup finalizer, the uid label and the
    volume's annotations on the claim. *)
Definition creation_patch (pvc : Pvc)
    (backingPvcName backingPvcNamespace backingPvcBasePath : string) (capacity : Z) : Pvc :=
  common.patch_of
    {[ uidKey := corev1.UID pvc ]}
    {[ common.Domain ++ "/backing-pvc-name" := backingPvcName;
       common.Domain ++ "/backing-pvc-namespace" := backingPvcNamespace;
       common.Domain ++ "/backing-pvc-base-path" := backingPvcBasePath;
       capacityKey := FormatInt capacity;
       common.stateKey := "idle" ]}
    [cleanupFinalizer].

Definition CreateVolume (fuel : nat) (s : ControllerServer) (req : csi.CreateVolumeRequest)
    : M csi.CreateVolumeResponse :=
  pvcName <- getParameter (csi.Parameters req) "csi.storage.k8s.io/pvc/name" ;;
  pvcNamespace <- getParameter (csi.Parameters req) "csi.storage.k8s.io/pvc/namespace" ;;
  backingPvcName <- getParameter (csi.Parameters req) "backingClaimName" ;;
  backingPvcNamespace <- getParameter (csi.Parameters req) "backingClaimNamespace" ;;
  let backingPvcBasePath := annot (csi.Parameters req) "basePath" in
  pvc <- pvcs_Get pvcNamespace pvcName ;;
  cm <- validateCapacity_step (csi.CreateCapacityRange req) ;;
  let '(capacity, maxCapacity) := cm in
  check_capabilities (csi.VolumeCapabilities req) ;;;
  common.StrategicMergePatchPvc pvcName pvcNamespace
    (creation_patch pvc backingPvcName backingPvcNamespace backingPvcBasePath capacity) ;;;
  match csi.ContentSource req with
  | None =>
      createVolumeFromNothing fuel s
        backingPvcName backingPvcNamespace backingPvcBasePath pvc capacity
  | Some (csi.Volume sourceVolumeId) =>
      createVolumeFromVolume fuel s
        backingPvcName backingPvcNamespace backingPvcBasePath pvc capacity
        maxCapacity sourceVolumeId
  | Some (csi.Snapshot sourceSnapshotId) =>
      createVolumeFromSnapshot fuel s
        backingPvcName backingPvcNamespace backingPvcBasePath pvc capacity
        maxCapacity sourceSnapshotId
  | Some csi.NoType =>
      fail (Status InvalidArgument "unsupported volume content source")
  end ;;;
  ret {| csi.CapacityBytes := capacity;
         csi.VolumeId := corev1.UID pvc;
         csi.VolumeContext :=
           {[ "pvcName" := pvcName;
              "pvcNamespace" := pvcNamespace;
              "backingPvcName" := backingPvcName;
              "backingPvcNamespace" := backingPvcNamespace;
              "backingPvcBasePath" := backingPvcBasePath ]};
         csi.ResponseContentSource := csi.ContentSource req |}.

Definition ControllerExpandVolume (fuel : nat) (s : ControllerServer)
    (req : csi.ControllerExpandVolumeRequest) : M csi.ControllerExpandVolumeResponse :=
  if String.eqb (csi.ExpandVolumeId req) "" then
    fail (Status InvalidArgument "must specify volume id")
  else
  cm <- validateCapacity_step (csi.ExpandCapacityRange req) ;;
  let '(capacity, maxCapacity) := cm in
  let pvcUid := csi.ExpandVolumeId req in
  pvc <- common.FindPvcByLabelSelector (uidKey, pvcUid) ;;
  let backingPvcName := annot (corev1.Annotations pvc) (common.Domain ++ "/backing-pvc-name") in
  let backingPvcNamespace :=
    annot (corev1.Annotations pvc) (common.Domain ++ "/backing-pvc-namespace") in
  let backingPvcBasePath :=
    annot (corev1.Annotations pvc) (common.Domain ++ "/backing-pvc-base-path") in
  match ParseInt (annot (corev1.Annotations pvc) capacityKey) with
  | None => fail (Status Unknown "failed to determine current volume capacity")
  | Some currentCapacity =>
      if negb (maxCapacity =? 0) && (maxCapacity <? currentCapacity) then
        fail (Status InvalidArgument
                ("current volume capacity (" ++ FormatInt currentCapacity
                 ++ ") exceeds maximum capacity (" ++ FormatInt maxCapacity ++ ")"))
      else if capacity <=? currentCapacity then
        ret {| csi.ExpandCapacityBytes := currentCapacity;
               csi.NodeExpansionRequired := false |}
      else
        common.SetPvcStateTo (corev1.Name pvc) (corev1.Namespace pvc) "expanding" ;;;
        let volumeImagePath := common.GenerateVolumeImagePath (corev1.UID pvc) in
        let expansionJobName := common.GenerateExpansionJobName (corev1.UID pvc) in
        common.CreateJob
          {| common.Name := expansionJobName;
             common.Namespace := backingPvcNamespace;
             common.Labels :=
               {[ common.Domain ++ "/component" := "volume-expansion";
                  common.Domain ++ "/pvc-uid" := corev1.UID pvc ]};
             common.Image := Image s;
             common.Command :=
               ["bash"; "-c"; expansionScript; "bash";
                volumeImagePath; FormatInt capacity];
             common.Args := [];
             common.BackingPvcName := backingPvcName;
             common.BackingPvcBasePath := backingPvcBasePath |} ;;;
        common.WaitForJobToSucceed fuel expansionJobName backingPvcNamespace ;;;
        common.DeleteJobSynchronously fuel expansionJobName backingPvcNamespace ;;;
        common.StrategicMergePatchPvc (corev1.Name pvc) (corev1.Namespace pvc)
          (common.patch_of ∅
             {[ capacityKey := FormatInt capacity; common.stateKey := "idle" ]} []) ;;;
        ret {| csi.ExpandCapacityBytes := capacity;
               csi.NodeExpansionRequired := false |}
  end.

(** *** The deletion monitor (monitor.go) *)

Record pvcDeletionController := { image : string }.

(** [cache.SplitMetaNamespaceKey]: [name] or [namespace/name]. *)
Definition SplitMetaNamespaceKey (key : string) : Error + (string * string) :=
  match Split key "/" with
  | [name] => inr ("", name)
  | [namespace; name] => inr (namespace, name)
  | _ => inl (ErrorsNew ("unexpected key format: " ++ dq ++ key ++ dq))
  end.

(** [append(fs[:i], fs[i+1:]...)] at the first [i] with [fs[i] == f]. *)
Fixpoint remove_first (f : string) (fs : list string) : list string :=
  match fs with
  | [] => []
  | g :: rest => if String.eqb g f then rest else g :: remove_first f rest
  end.

(** The closure that drops the cleanup finalizer. *)
Definition dropFinalizer_attempt (pvc : Pvc) : M unit :=
  pvc <- pvcs_Get (corev1.Namespace pvc) (corev1.Name pvc) ;;
  pvcs_Update
    (corev1.with_Finalizers (remove_first cleanupFinalizer (corev1.Finalizers pvc)) pvc).

Definition deletion_job (c : pvcDeletionController) (pvc : Pvc) : common.JobConfig :=
  {| common.Name := common.GenerateDeletionJobName (corev1.UID pvc);
     common.Namespace :=
       annot (corev1.Annotations pvc) (common.Domain ++ "/backing-pvc-namespace");
     common.Labels :=
       {[ common.Domain ++ "/component" := "volume-deletion";
          common.Domain ++ "/pvc-uid" := corev1.UID pvc ]};
     common.Image := image c;
     common.Command := ["rm"; "-f"; common.GenerateVolumeImagePath (corev1.UID pvc)];
     common.Args := [];
     common.BackingPvcName :=
       annot (corev1.Annotations pvc) (common.Domain ++ "/backing-pvc-name");
     common.BackingPvcBasePath :=
       annot (corev1.Annotations pvc) (common.Domain ++ "/backing-pvc-base-path") |}.

Definition deleteVolume (fuel : nat) (c : pvcDeletionController) (pvc : Pvc) : M unit :=
  let backingPvcNamespace :=
    annot (corev1.Annotations pvc) (common.Domain ++ "/backing-pvc-namespace") in
  (* delete volume creation Job *)
  let creationJobName := common.GenerateCreationJobName (corev1.UID pvc) in
  common.DeleteJobSynchronously fuel creationJobName backingPvcNamespace ;;;
  (* create and await volume deletion Job *)
  let deletionJobName := common.GenerateDeletionJobName (corev1.UID pvc) in
  common.CreateJob (deletion_job c pvc) ;;;
  common.WaitForJobToSucceed fuel deletionJobName backingPvcNamespace ;;;
  (* delete volume deletion Job *)
  common.DeleteJobSynchronously fuel deletionJobName backingPvcNamespace ;;;
  (* remove finalizer from PVC *)
  RetryOnConflict DefaultRetry_Steps (dropFinalizer_attempt pvc).

Definition pvcIsStaged (pvc : Pvc) : bool :=
  negb (String.eqb (annot (corev1.Annotations pvc) common.stagedOnNodesKey) "").

Definition pvcHasFinalizer (pvc : Pvc) : bool :=
  existsb (fun finalizer => String.eqb finalizer cleanupFinalizer) (corev1.Finalizers pvc).

(** [processNextItem] after [c.queue.Get()] has returned [key] and
    [shutdown]; the deferred [c.queue.Done(key)] runs last. *)
Definition processNextItem (fuel : nat) (c : pvcDeletionController)
    (key : string) (shutdown : bool) : M bool :=
  if shutdown then ret false
  else
    (match SplitMetaNamespaceKey key with
     | inl err => queue_op (AddRateLimited key)
     | inr (pvcNamespace, pvcName) =>
         r <- try (pvcs_Get pvcNamespace pvcName) ;;
         match r with
         | inl err =>
             if negb (IsNotFound err) then queue_op (AddRateLimited key)
             else queue_op (Forget key)
         | inr pvc =>
             if negb (pvcIsStaged pvc) && pvcHasFinalizer pvc then
               r <- try (deleteVolume fuel c pvc) ;;
               match r with
               | inl err => queue_op (AddRateLimited key)
               | inr _ => queue_op (Forget key)
               end
             else queue_op (Forget key)
         end
     end) ;;;
    queue_op (Done key) ;;;
    ret true.

End controller.

(** ** Package controller: snapshots *)

Module snapshotting.
Import golang common controller.

(** *** Names (names.go) *)

Definition GenerateSnapshotImagePath (volumeSnapshotUid : string) : string :=
  "/var/backing/snapshot-" ++ volumeSnapshotUid ++ ".qcow2".
Definition GenerateSnapshottingJobName (volumeSnapshotUid : string) : string :=
  "subprovisioner-snapshot-" ++ volumeSnapshotUid.

(** *** Requests about VolumeSnapshot objects

    The two requests that [CreateSnapshot] sends about the snapshot object
    take what the API server does with them as an argument [answer]; they
    are served on the snapshot store of the world. *)

Definition with_snapshots (s : gmap (string * string) VolumeSnapshot) (w : World) : World :=
  {| pvcs := pvcs w; snapshots := s; oracle := oracle w; log := log w; queue := queue w |}.

Definition snapshots_Get (answer : Answer) (ns name : string) : M VolumeSnapshot :=
  fun w =>
    match answer with
    | Refused r => (inl (ApiError r), w)
    | Answered _ =>
        match snapshots w !! (ns, name) with
        | Some volumeSnapshot => (inr volumeSnapshot, w)
        | None => (inl (ApiError NotFound), w)
        end
    end.

(** A JSON merge patch of metadata: the entries of the patch's maps
    override. *)
Definition merge_patch (patch obj : VolumeSnapshot) : VolumeSnapshot :=
  {| volumesnapshotv1.Name := volumesnapshotv1.Name obj;
     volumesnapshotv1.Namespace := volumesnapshotv1.Namespace obj;
     volumesnapshotv1.UID := volumesnapshotv1.UID obj;
     volumesnapshotv1.Labels := volumesnapshotv1.Labels patch ∪ volumesnapshotv1.Labels obj;
     volumesnapshotv1.Annotations :=
       volumesnapshotv1.Annotations patch ∪ volumesnapshotv1.Annotations obj |}.

Definition snapshots_Patch (answer : Answer) (ns name : string) (patch : VolumeSnapshot)
    : M unit :=
  fun w =>
    match answer with
    | Refused r => (inl (ApiError r), w)
    | Answered _ =>
        match snapshots w !! (ns, name) with
        | Some obj =>
            (inr tt, with_snapshots (<[(ns, name) := merge_patch patch obj]> (snapshots w)) w)
        | None => (inl (ApiError NotFound), w)
        end
    end.

Definition MergePatchVolumeSnapshot (answer : Answer)
    (volumeSnapshotName volumeSnapshotNamespace : string) (patch : VolumeSnapshot) : M unit :=
  snapshots_Patch answer volumeSnapshotNamespace volumeSnapshotName patch.

(** *** The snapshot RPCs *)

Record CreateSnapshotRequest := {
  SourceVolumeId : string;
  Parameters : gmap string string
}.

Record Snapshot := {
  SizeBytes : Z;
  SnapshotId : string;
  SnapshotSourceVolumeId : string;
  CreationTime : Z;
  ReadyToUse : bool
}.

Definition sizeKey : string := Domain ++ "/size".

Definition snapshottingScript : string :=
  lines [
    "";
    "set -o errexit -o pipefail -o nounset -o xtrace";
    "";
    "pvc=" ++ dq ++ "$1" ++ dq;
    "snapshot=" ++ dq ++ "$2" ++ dq;
    "";
    "ln -f " ++ dq ++ "/var/backing/${pvc}" ++ dq ++ " " ++ dq ++ "/var/backing/${snapshot}" ++ dq;
    "";
    "qemu-img create -f qcow2 -b " ++ dq ++ "${snapshot}" ++ dq ++ " -F qcow2 " ++ dq ++ "/var/backing/${pvc}.new" ++ dq;
    "mv -f " ++ dq ++ "/var/backing/${pvc}.new" ++ dq ++ " " ++ dq ++ "/var/backing/${pvc}" ++ dq;
    "";
    "chmod a-w " ++ dq ++ "/var/backing/${snapshot}" ++ dq ++ "  # should never modify this image";
    ""
  ].

(** The patch that records the backing claim and the size on the
    snapshot object. *)
Definition snapshot_patch (volumeSnapshot : VolumeSnapshot)
    (backingPvcName backingPvcNamespace backingPvcBasePath : string) (size : Z)
    : VolumeSnapshot :=
  {| volumesnapshotv1.Name := ""; volumesnapshotv1.Namespace := "";
     volumesnapshotv1.UID := "";
     volumesnapshotv1.Labels := {[ uidKey := volumesnapshotv1.UID volumeSnapshot ]};
     volumesnapshotv1.Annotations :=
       {[ Domain ++ "/backing-pvc-name" := backingPvcName;
          Domain ++ "/backing-pvc-namespace" := backingPvcNamespace;
          Domain ++ "/backing-pvc-base-path" := backingPvcBasePath;
          sizeKey := FormatInt size ]} |}.

(** [CreateSnapshot].  [getAnswer] and [patchAnswer] are what the API
    server does with the read and with the patch of the snapshot object,
    [now] is the time of the response. *)
Definition CreateSnapshot (fuel : nat) (s : ControllerServer) (req : CreateSnapshotRequest)
    (getAnswer patchAnswer : Answer) (now : Z) : M Snapshot :=
  volumeSnapshotName <-
    getParameter (Parameters req) "csi.storage.k8s.io/volumesnapshot/name" ;;
  volumeSnapshotNamespace <-
    getParameter (Parameters req) "csi.storage.k8s.io/volumesnapshot/namespace" ;;
  volumeSnapshot <- snapshots_Get getAnswer volumeSnapshotNamespace volumeSnapshotName ;;
  let sourcePvcUid := SourceVolumeId req in
  sourcePvc <- FindPvcByLabelSelector (uidKey, sourcePvcUid) ;;
  SetPvcStateTo (corev1.Name sourcePvc) (corev1.Namespace sourcePvc) "snapshotting" ;;;
  let backingPvcName := annot (corev1.Annotations sourcePvc) (Domain ++ "/backing-pvc-name") in
  let backingPvcNamespace :=
    annot (corev1.Annotations sourcePvc) (Domain ++ "/backing-pvc-namespace") in
  let backingPvcBasePath :=
    annot (corev1.Annotations sourcePvc) (Domain ++ "/backing-pvc-base-path") in
  match ParseInt (annot (corev1.Annotations sourcePvc) capacityKey) with
  | None => fail (Status Unknown "failed to determine snapshot size")
  | Some size =>
      MergePatchVolumeSnapshot patchAnswer volumeSnapshotName volumeSnapshotNamespace
        (snapshot_patch volumeSnapshot backingPvcName backingPvcNamespace
           backingPvcBasePath size) ;;;
      let snapshottingJobName :=
        GenerateSnapshottingJobName (volumesnapshotv1.UID volumeSnapshot) in
      CreateJob
        {| common.Name := snapshottingJobName;
           common.Namespace := backingPvcNamespace;
           common.Labels :=
             {[ Domain ++ "/component" := "volume-snapshotting";
                Domain ++ "/pvc-uid" := corev1.UID sourcePvc ]};
           common.Image := Image s;
           common.Command :=
             ["bash"; "-c"; snapshottingScript; "bash";
              "pvc-" ++ corev1.UID sourcePvc ++ ".qcow2";
              "snapshot-" ++ volumesnapshotv1.UID volumeSnapshot ++ ".qcow2"];
           common.Args := [];
           common.BackingPvcName := backingPvcName;
           common.BackingPvcBasePath := backingPvcBasePath |} ;;;
      WaitForJobToSucceed fuel snapshottingJobName backingPvcNamespace ;;;
      DeleteJobSynchronously fuel snapshottingJobName backingPvcNamespace ;;;
      SetPvcStateToIdle (corev1.Name sourcePvc) (corev1.Namespace sourcePvc) ;;;
      ret {| SizeBytes := size;
             SnapshotId := volumesnapshotv1.UID volumeSnapshot;
             SnapshotSourceVolumeId := SourceVolumeId req;
             CreationTime := now;
             ReadyToUse := true |}
  end.

End snapshotting.

(** ** Package controller: the informer handlers and the worker *)

Module monitor.
Import golang common controller.

(** [cache.MetaNamespaceKeyFunc] on a claim: [namespace/name], or the
    name alone when the namespace is empty. *)
Definition MetaNamespaceKeyFunc (pvc : Pvc) : Error + string :=
  inr (if negb (String.eqb (corev1.Namespace pvc) "")
       then corev1.Namespace pvc ++ "/" ++ corev1.Name pvc
       else corev1.Name pvc).

(** The event handlers of [Run]: the keys they add to the work queue. *)
Definition AddFunc (obj : Pvc) : list string :=
  let pvc := obj in
  match corev1.DeletionTimestamp pvc with
  | Some _ =>
      match MetaNamespaceKeyFunc pvc with
      | inr key => [key]
      | inl _ => []
      end
  | None => []
  end.

Definition UpdateFunc (oldObj newObj : Pvc) : list string :=
  let pvc := newObj in
  match corev1.DeletionTimestamp pvc with
  | Some _ =>
      match MetaNamespaceKeyFunc pvc with
      | inr key => [key]
      | inl _ => []
      end
  | None => []
  end.

(** [runWorker]: items are processed until the queue shuts down.  [gets]
    is what [c.queue.Get()] returns, call after call; when it is used up
    the worker blocks. *)
Fixpoint runWorker (fuel : nat) (c : pvcDeletionController) (gets : list (string * bool))
    : M unit :=
  match gets with
  | [] => fail OutOfFuel
  | (key, shutdown) :: rest =>
      continue <- processNextItem fuel c key shutdown ;;
      if continue : bool then runWorker fuel c rest else ret tt
  end.

End monitor.

(** * Vocabulary of the properties

    The predicates in which the properties below are stated. *)

Module vocabulary.
Import golang common controller.
Local Open Scope list_scope.

(** [has_byte c s]: the byte [c] occurs in [s]. *)
Fixpoint has_byte (c : ascii) (s : string) : bool :=
  match s with
  | EmptyString => false
  | String d rest => Ascii.eqb d c || has_byte c rest
  end.

(** The text that follows the first item: each further item after a comma. *)
Fixpoint comma_tail (items : list string) : string :=
  match items with
  | [] => ""
  | x :: rest => "," ++ x ++ comma_tail rest
  end.

(** [c] is the least multiple of 512 that is at least [n]. *)
Definition least_multiple_512_ge (c n : Z) : Prop :=
  (512 | c) /\ n <= c /\ forall c', (512 | c') -> n <= c' -> c <= c'.


(** Every run of [m] appends to the log, and all it appends satisfies [P]. *)
Definition emits {A} (P : Call * bool -> Prop) (m : M A) : Prop :=
  forall w r w', m w = (r, w') -> exists evs, log w' = (log w ++ evs)%list /\ Forall P evs.

(** The claims that a label selector selects. *)
Definition selected (sel : LabelSelector) (w : World) : list Pvc :=
  filter (fun p => selects sel (corev1.Labels p)) (map snd (map_to_list (pvcs w))).



(** No constraint on an event. *)
Definition any_event (ev : Call * bool) : Prop := True.

(** The access modes that [CreateVolume] lets through. *)
Definition supported_mode (mode : csi.AccessMode_Mode) : bool :=
  match mode with
  | csi.SINGLE_NODE_WRITER | csi.SINGLE_NODE_READER_ONLY | csi.MULTI_NODE_READER_ONLY
  | csi.SINGLE_NODE_SINGLE_WRITER | csi.SINGLE_NODE_MULTI_WRITER => true
  | _ => false
  end.

(** A capability that is a block volume with a supported access mode. *)
Definition acceptable (cap : csi.VolumeCapability) : Prop :=
  csi.Block cap = true /\ exists mode, csi.AccessMode cap = Some mode /\ supported_mode mode = true.

(** The parameters that [CreateVolume] insists on. *)
Definition required_parameters : list string :=
  ["csi.storage.k8s.io/pvc/name"; "csi.storage.k8s.io/pvc/namespace";
   "backingClaimName"; "backingClaimNamespace"].

(** The reasons for which [CreateVolume] ends before it patches the claim:
    a required parameter is missing or empty, the first request (the read
    of the claim) fails, the capacity range is invalid, or a capability is
    not a block volume with a supported access mode. *)
Definition fails_before_patch (req : csi.CreateVolumeRequest) (evs : list (Call * bool)) : Prop :=
  (exists key, key ∈ required_parameters /\ annot (csi.Parameters req) key = "")
  \/ (exists c, evs !! 0%nat = Some (c, false))
  \/ (validateCapacity (csi.CreateCapacityRange req)).2 <> None
  \/ ~ Forall acceptable (csi.VolumeCapabilities req).

(** The read of a claim. *)
Definition is_PvcGet (ev : Call * bool) : Prop := exists ns name, ev.1 = PvcGet ns name.






End vocabulary.

(** ** Frames: what a computation leaves as it was *)

Module invariants.
Import golang common controller.
Local Open Scope list_scope.

(** Every run of [m] takes a world to one that [R] relates to it. *)
Definition preserves {A} (R : World -> World -> Prop) (m : M A) : Prop :=
  forall w r w', m w = (r, w') -> R w w'.

(** A relation between the world before and the world after that
    composes along a run and does not look at the request log. *)
Class Frame (R : World -> World -> Prop) : Prop := {
  frame_refl : forall w, R w w;
  frame_trans : forall w1 w2 w3, R w1 w2 -> R w2 w3 -> R w1 w3;
  frame_logged : forall w c ok, R w (logged c ok w)
}.

(** Every claim is stored under its own namespace and name. *)
Definition keyed (w : World) : Prop :=
  map_Forall (fun key pvc => key = (corev1.Namespace pvc, corev1.Name pvc)) (pvcs w).

(** The same claims exist before and after, and each has changed at most
    as [Q] allows. *)
Definition evolves (Q : Pvc -> Pvc -> Prop) (w w' : World) : Prop :=
  forall key, option_Forall2 Q (pvcs w !! key) (pvcs w' !! key).

(** From a store in which the claims sit under their names, a step to
    such a store in which the claims have evolved by [Q]. *)
Definition steps (Q : Pvc -> Pvc -> Prop) (w w' : World) : Prop :=
  keyed w -> keyed w' /\ evolves Q w w'.

(** The claims are as they were. *)
Definition same_claims (w w' : World) : Prop := pvcs w' = pvcs w.

(** The work queue is as it was. *)
Definition same_queue (w w' : World) : Prop := queue w' = queue w.

(** [p'] is [p] up to the annotations named in [keys]. *)
Definition same_but_annotations (keys : list string) (p p' : Pvc) : Prop :=
  corev1.with_Annotations (corev1.Annotations p) p' = p
  /\ forall k, k ∉ keys -> corev1.Annotations p' !! k = corev1.Annotations p !! k.

(** [p'] is [p] with some occurrences of the cleanup finalizer, the first
    ones, removed. *)
Definition released (p p' : Pvc) : Prop :=
  corev1.with_Finalizers (corev1.Finalizers p) p' = p
  /\ exists n : nat,
       corev1.Finalizers p' = Nat.iter n (remove_first cleanupFinalizer) (corev1.Finalizers p).

(** The snapshot objects are as they were. *)
Definition same_snapshots (w w' : World) : Prop := snapshots w' = snapshots w.

(** [p'] is [p] up to the state and capacity annotations, and a capacity
    that could be read from [p] can be read from [p'] and is not
    smaller. *)
Definition grown (p p' : Pvc) : Prop :=
  same_but_annotations [stateKey; capacityKey] p p'
  /\ forall c, ParseInt (annot (corev1.Annotations p) capacityKey) = Some c ->
       exists c', ParseInt (annot (corev1.Annotations p') capacityKey) = Some c' /\ c <= c'.

End invariants.

(** ** The life of a claim, the request log and the work queue *)

Module lifecycle.
Import golang common controller vocabulary.
Local Open Scope list_scope.

(** The nodes that the claim's annotation names. *)
Definition staged_on (pvc : Pvc) : gset string :=
  stringListToSet (annot (corev1.Annotations pvc) stagedOnNodesKey).

(** The state annotation and the staged-on set agree: the claim is idle
    and no node is named, or it is staged and some node is; the empty name
    is never among the nodes. *)
Definition well_staged (pvc : Pvc) : Prop :=
  ("" ∉ staged_on pvc)
  /\ ((annot (corev1.Annotations pvc) stateKey = "idle" /\ staged_on pvc = ∅)
      \/ (annot (corev1.Annotations pvc) stateKey = "staged" /\ staged_on pvc <> ∅)).

(** The names found in the members of a set once each member is cut at its
    commas. *)
Definition comma_pieces (set : gset string) : gset string :=
  set_bind (fun x => list_to_set (Split x ",") : gset string) set.


(** The world after a claim has been read under its name and written
    back as [obj]. *)
Definition rewritten (obj : Pvc) (w : World) : World :=
  let key := (corev1.Namespace obj, corev1.Name obj) in
  logged (PvcUpdate obj) true
    (with_pvcs (<[key := obj]> (pvcs w)) (logged (PvcGet key.1 key.2) true w)).

(** The cluster answers every request from now on. *)
Definition answers_from_now (w : World) : Prop :=
  forall k, (length (log w) <= k)%nat -> answers w k = true.


(** What the nodes ask for, one after the other. *)
Inductive NodeOp := Stage (nodeName : string) | Unstage (nodeName : string).

Section Ops.
Variable range : gset string -> list string.

Definition run_op (pvcName pvcNamespace : string) (op : NodeOp) : M unit :=
  match op with
  | Stage nodeName => StagePvcOnNode range pvcName pvcNamespace nodeName
  | Unstage nodeName => UnstagePvcFromNode range pvcName pvcNamespace nodeName
  end.

Fixpoint run_ops (pvcName pvcNamespace : string) (ops : list NodeOp) : M unit :=
  match ops with
  | [] => ret tt
  | op :: rest => run_op pvcName pvcNamespace op ;;; run_ops pvcName pvcNamespace rest
  end.
End Ops.

(** The set of nodes that hold the volume after the operations. *)
Definition nodes_after (ops : list NodeOp) (nodes : gset string) : gset string :=
  fold_left (fun nodes op =>
               match op with
               | Stage nodeName => nodes ∪ {[nodeName]}
               | Unstage nodeName => nodes ∖ {[nodeName]}
               end) ops nodes.

(** Node names are not empty and hold no comma. *)
Definition valid_op (op : NodeOp) : Prop :=
  match op with
  | Stage nodeName => nodeName <> "" /\ has_byte "," nodeName = false
  | Unstage _ => True
  end.

(** The claim is marked for deletion, or its state is neither idle nor
    the state of the operation itself. *)
Definition busy_for (operation : string) (pvc : Pvc) : Prop :=
  corev1.DeletionTimestamp pvc <> None
  \/ (annot (corev1.Annotations pvc) stateKey <> operation
      /\ annot (corev1.Annotations pvc) stateKey <> "idle").

(** The requests that a computation has added to the log of [w]. *)
Definition requests_since (w w' : World) : list (Call * bool) :=
  drop (length (log w)) (log w').

(** The number of the request that was sent last. *)
Definition last_request (w : World) : nat := pred (length (log w)).

(** An error of [m] is the cluster's doing: a loop has not finished, or a
    request that [m] sent has failed. *)
Definition blames_request {A} (m : M A) : Prop :=
  forall w e w', m w = (inl e, w') ->
    e = OutOfFuel \/ exists c, (c, false) ∈ requests_since w w'.

(** The work-queue operations that a computation has added. *)
Definition queue_since (w w' : World) : list QueueOp := drop (length (queue w)) (queue w').

(** The keys marked done among queue operations, in order. *)
Definition marked_done (ops : list QueueOp) : list string :=
  omap (fun op => match op with Done key => Some key | _ => None end) ops.

(** The keys that a worker has taken before the queue shut down. *)
Fixpoint taken (gets : list (string * bool)) : list string :=
  match gets with
  | [] => []
  | (key, shutdown) :: rest => if shutdown : bool then [] else key :: taken rest
  end.

End lifecycle.

(** * Sample clusters and requests *)

Module fixtures.
Import golang common controller.
Local Open Scope list_scope.

Definition claim (name uid : string) (deletion : option Z)
    (annotations : gmap string string) (finalizers : list string) : Pvc :=
  {| corev1.Name := name; corev1.Namespace := "default"; corev1.UID := uid;
     corev1.DeletionTimestamp := deletion;
     corev1.Labels := {[ uidKey := uid ]};
     corev1.Annotations := annotations;
     corev1.Finalizers := finalizers |}.

Definition cluster (claims : list Pvc) (snaps : list VolumeSnapshot)
    (oracle : nat -> Answer) : World :=
  {| pvcs := list_to_map (map (fun p => ((corev1.Namespace p, corev1.Name p), p)) claims);
     snapshots :=
       list_to_map
         (map (fun s => ((volumesnapshotv1.Namespace s, volumesnapshotv1.Name s), s)) snaps);
     oracle := oracle; log := []; queue := [] |}.

(** A cluster that answers every request; every job it is asked about
    has succeeded. *)
Definition always_answers : nat -> Answer := fun _ => Answered 1.

Definition idle_claim : Pvc :=
  claim "vol" "u1" None {[ stateKey := "idle"; capacityKey := "2048" ]} [cleanupFinalizer].

Definition staged_claim : Pvc :=
  claim "vol" "u1" None
    {[ stateKey := "staged"; stagedOnNodesKey := "node-a"; capacityKey := "2048" ]}
    [cleanupFinalizer].





Definition new_claim : Pvc := claim "new" "u-new" None ∅ [].


Definition server : ControllerServer := {| Image := "subprovisioner:test" |}.


(** An expansion to 512 bytes, with the given limit, of the volume [u1]. *)
Definition expand_request (limit : Z) : csi.ControllerExpandVolumeRequest :=
  {| csi.ExpandVolumeId := "u1";
     csi.ExpandCapacityRange :=
       Some {| csi.RequiredBytes := 512; csi.LimitBytes := limit |} |}.

(** The cluster's answers during one cleanup: both deleted jobs are gone
    at the first poll (requests 2 and 6). *)
Definition cleanup_oracle : nat -> Answer :=
  fun n => if bool_decide (n = 2%nat \/ n = 6%nat) then Refused NotFound else Answered 1.

End fixtures.

(** ** Further clusters and requests *)

Module scenarios.
Import golang common controller snapshotting fixtures.
Local Open Scope list_scope.


(** A job has succeeded at the first poll and is gone at the first poll
    after its deletion (request 6). *)
Definition job_cycle_oracle : nat -> Answer :=
  fun n => if bool_decide (n = 6%nat) then Refused NotFound else Answered 1.

(** An expansion of the volume [u1] to 4096 bytes. *)
Definition grow_request : csi.ControllerExpandVolumeRequest :=
  {| csi.ExpandVolumeId := "u1";
     csi.ExpandCapacityRange := Some {| csi.RequiredBytes := 4096; csi.LimitBytes := 0 |} |}.

(** A request for a new volume of 512 bytes on the claim [new]. *)
Definition create_request : csi.CreateVolumeRequest :=
  {| csi.Parameters :=
       {[ "csi.storage.k8s.io/pvc/name" := "new";
          "csi.storage.k8s.io/pvc/namespace" := "default";
          "backingClaimName" := "backing";
          "backingClaimNamespace" := "backing" ]};
     csi.CreateCapacityRange := Some {| csi.RequiredBytes := 512; csi.LimitBytes := 0 |};
     csi.VolumeCapabilities :=
       [ {| csi.Block := true; csi.AccessMode := Some csi.SINGLE_NODE_WRITER |} ];
     csi.ContentSource := None |}.

(** A snapshot object as the snapshot controller has created it, and the
    request to fill it from the volume [u1]. *)
Definition bare_snapshot : VolumeSnapshot :=
  {| volumesnapshotv1.Name := "snap"; volumesnapshotv1.Namespace := "default";
     volumesnapshotv1.UID := "u-snap";
     volumesnapshotv1.Labels := ∅;
     volumesnapshotv1.Annotations := ∅ |}.

Definition snapshot_request : CreateSnapshotRequest :=
  {| SourceVolumeId := "u1";
     Parameters :=
       {[ "csi.storage.k8s.io/volumesnapshot/name" := "snap";
          "csi.storage.k8s.io/volumesnapshot/namespace" := "default" ]} |}.

(** A claim marked for deletion that no node stages. *)
Definition released_claim : Pvc :=
  claim "vol" "u1" (Some 0)
    {[ stateKey := "idle"; capacityKey := "2048";
       Domain +:+ "/backing-pvc-namespace" := "backing" ]}
    ["kubernetes.io/pvc-protection"; cleanupFinalizer].

Definition monitor_controller : pvcDeletionController := {| image := "subprovisioner:test" |}.

End scenarios.

(** * Properties *)

(** ** Splitting and joining *)

Module split_facts.
Import vocabulary.
Import golang.

Lemma app_nil_l (b : string) : ("" ++ b)%string = b.
Proof. reflexivity. Qed.

Lemma app_cons c (a b : string) : (String c a ++ b)%string = String c (a ++ b).
Proof. reflexivity. Qed.

Lemma Split_not_nil s sep : Split s sep <> [].
Proof.
  destruct s as [|c s]; simpl; [discriminate|].
  destruct (Ascii.eqb c sep); [discriminate|].
  destruct (Split s sep); discriminate.
Qed.

Lemma Split_without_sep s sep : has_byte sep s = false -> Split s sep = [s].
Proof.
  induction s as [|c s IH]; simpl; [reflexivity|].
  intros H. apply orb_false_iff in H as [Hc Hs].
  rewrite Hc, (IH Hs). reflexivity.
Qed.

Lemma Split_field_then_sep a b sep :
  has_byte sep a = false ->
  Split (a ++ String sep b) sep = a :: Split b sep.
Proof.
  induction a as [|c a IH].
  - intros _. rewrite app_nil_l. simpl. rewrite Ascii.eqb_refl. reflexivity.
  - intros H. simpl in H. apply orb_false_iff in H as [Hc Ha].
    rewrite app_cons. simpl. rewrite Hc, (IH Ha). reflexivity.
Qed.

Lemma Split_fields_without_sep s sep f :
  f ∈ Split s sep -> has_byte sep f = false.
Proof.
  revert f. induction s as [|c s IH]; simpl; intros f Hf.
  - apply list_elem_of_singleton in Hf as ->. reflexivity.
  - destruct (Ascii.eqb c sep) eqn:Hc.
    + apply elem_of_cons in Hf as [->|Hf]; [reflexivity|auto].
    + destruct (Split s sep) as [|g gs] eqn:Hs; [exfalso; eapply Split_not_nil; eauto|].
      apply elem_of_cons in Hf as [->|Hf].
      * simpl. rewrite Hc. apply IH. left.
      * apply IH. right. exact Hf.
Qed.

(** [String.concat] on two or more fields. *)
Lemma concat_cons2 sep x y l :
  String.concat sep (x :: y :: l) = (x ++ sep ++ String.concat sep (y :: l))%string.
Proof. reflexivity. Qed.

Lemma Split_concat (l : list string) :
  l <> [] ->
  (forall x, x ∈ l -> has_byte "," x = false) ->
  Split (String.concat "," l) "," = l.
Proof.
  induction l as [|x [|y l] IH]; intros Hne Hfree; [congruence| |].
  - simpl. apply Split_without_sep, Hfree. left.
  - rewrite concat_cons2.
    change ("," +:+ String.concat "," (y :: l)) with (String "," (String.concat "," (y :: l))).
    rewrite Split_field_then_sep by (apply Hfree; left).
    f_equal. apply IH; [discriminate|].
    intros z Hz. apply Hfree. right. exact Hz.
Qed.

Lemma append_eq_empty (a b : string) : (a ++ b)%string = "" -> a = "" /\ b = "".
Proof. destruct a; [rewrite app_nil_l; auto|rewrite app_cons; discriminate]. Qed.

Lemma append_empty_r (a : string) : (a ++ "")%string = a.
Proof. induction a as [|c a IH]; [reflexivity|]. rewrite app_cons, IH. reflexivity. Qed.

Lemma append_assoc (a b c : string) : ((a ++ b) ++ c)%string = (a ++ b ++ c)%string.
Proof. induction a as [|d a IH]; [reflexivity|]. rewrite !app_cons, IH. reflexivity. Qed.

End split_facts.

(** ** The staged-on-nodes encoding *)

Module encoding.
Import vocabulary.
Import golang split_facts common.

Lemma stringListToSet_fold (l : list string) (acc : gset string) :
  fold_left (fun set item => {[item]} ∪ set) l acc = list_to_set l ∪ acc.
Proof.
  revert acc. induction l as [|x l IH]; intros acc; simpl.
  - set_solver.
  - rewrite IH. set_solver.
Qed.

Lemma stringListToSet_Split (list : string) :
  list <> "" -> stringListToSet list = list_to_set (Split list ",").
Proof.
  intros Hne. unfold stringListToSet.
  destruct (String.eqb_spec list ""); [contradiction|].
  rewrite stringListToSet_fold. set_solver.
Qed.

(** The decoded set is empty exactly for the empty annotation. *)
Lemma stringListToSet_empty_iff (list : string) :
  stringListToSet list = ∅ <-> list = "".
Proof.
  split.
  - intros H. destruct (String.eqb_spec list "") as [|Hne]; [assumption|].
    rewrite stringListToSet_Split in H by assumption.
    destruct (Split list ",") as [|f fs] eqn:Hs; [exfalso; eapply Split_not_nil; eauto|].
    set_solver.
  - intros ->. reflexivity.
Qed.

(** Members of a decoded set hold no comma. *)
Lemma stringListToSet_comma_free (list x : string) :
  x ∈ stringListToSet list -> has_byte "," x = false.
Proof.
  unfold stringListToSet. destruct (String.eqb_spec list ""); [set_solver|].
  rewrite stringListToSet_fold. intros H.
  apply (Split_fields_without_sep list ","). set_solver.
Qed.

(** What the loop of [setToStringList] builds once the first item is in. *)
Lemma setToStringList_loop_rest (items : list string) (builder : string) :
  snd (fold_left
         (fun '(empty, builder) item =>
            (false, (if empty : bool then builder else builder ++ ",") ++ item)%string)
         items (false, builder))
  = (builder ++ comma_tail items)%string.
Proof.
  revert builder. induction items as [|x items IH]; intros builder; simpl.
  - rewrite append_empty_r. reflexivity.
  - rewrite IH. rewrite !append_assoc. reflexivity.
Qed.

Lemma concat_comma_cons (x : string) (items : list string) :
  String.concat "," (x :: items) = (x ++ comma_tail items)%string.
Proof.
  revert x. induction items as [|y items IH]; intros x.
  - simpl. rewrite append_empty_r. reflexivity.
  - rewrite concat_cons2, IH. reflexivity.
Qed.

(** The loop joins the items with commas. *)
Lemma setToStringList_loop_concat (items : list string) :
  setToStringList_loop items = String.concat "," items.
Proof.
  destruct items as [|x items]; [reflexivity|].
  unfold setToStringList_loop. simpl fold_left.
  rewrite setToStringList_loop_rest, concat_comma_cons. reflexivity.
Qed.

Lemma concat_comma_empty (items : list string) :
  String.concat "," items = "" -> items = [] \/ items = [""].
Proof.
  destruct items as [|x [|y items]]; [auto| |].
  - simpl. intros ->. auto.
  - rewrite concat_cons2. intros H.
    apply append_eq_empty in H as [_ H]. discriminate.
Qed.

(** Decoding what the loop wrote gives back the items, unless the only
    item is the empty string. *)
Lemma decode_loop (items : list string) :
  (forall x, x ∈ items -> has_byte "," x = false) ->
  items <> [""] ->
  stringListToSet (setToStringList_loop items) = list_to_set items.
Proof.
  intros Hfree Hne. rewrite setToStringList_loop_concat.
  destruct items as [|x items]; [reflexivity|].
  rewrite stringListToSet_Split.
  - rewrite Split_concat; [reflexivity|discriminate|assumption].
  - intros H. apply concat_comma_empty in H as [?|?]; congruence.
Qed.

Section Roundtrip.
Variable range : gset string -> list string.
Hypothesis range_enumerates : forall set, range set ≡ₚ elements set.

Lemma range_elem_of set x : x ∈ range set <-> x ∈ set.
Proof. rewrite range_enumerates. apply elem_of_elements. Qed.

Lemma list_to_set_range set : list_to_set (range set) = set.
Proof. apply set_eq. intros x. rewrite elem_of_list_to_set. apply range_elem_of. Qed.

Lemma range_empty : range ∅ = [].
Proof.
  apply Permutation_nil_r. rewrite range_enumerates, elements_empty. reflexivity.
Qed.

(** Encoding then decoding is the identity on every comma-free set other
    than the set whose only member is the empty string. *)
Lemma decode_encode (set : gset string) :
  (forall x, x ∈ set -> has_byte "," x = false) ->
  set <> {[ "" ]} ->
  stringListToSet (setToStringList range set) = set.
Proof.
  intros Hfree Hne. unfold setToStringList.
  rewrite decode_loop.
  - apply list_to_set_range.
  - intros x Hx. apply Hfree, range_elem_of, Hx.
  - intros H. apply Hne. rewrite <- (list_to_set_range set), H. set_solver.
Qed.

(** C9.  The comma-joined encoding of the staged-on set round-trips: on
    every finite set of non-empty strings that hold no comma,
    [stringListToSet (setToStringList s) = s], whatever the order in which
    the map is iterated; the empty set is written as the empty string, and
    the empty string is read as the empty set. *)
Theorem staged_on_roundtrip (set : gset string) :
  (forall x, x ∈ set -> x <> "" /\ has_byte "," x = false) ->
  stringListToSet (setToStringList range set) = set
  /\ setToStringList range ∅ = ""
  /\ stringListToSet "" = ∅.
Proof.
  intros Hwf. split; [|split].
  - apply decode_encode.
    + intros x Hx. apply Hwf, Hx.
    + intros ->. destruct (Hwf "") as [Hne _]; [set_solver|congruence].
  - unfold setToStringList. rewrite range_empty. reflexivity.
  - reflexivity.
Qed.
End Roundtrip.

End encoding.

(** ** Capacity validation *)

Module capacity.
Import vocabulary.
Import golang controller.

Lemma wrap64_in_range z : in_int64 z -> wrap64 z = z.
Proof.
  unfold in_int64, wrap64. intros H.
  rewrite Z.mod_small by lia. lia.
Qed.

Lemma least_multiple_unique c1 c2 n :
  least_multiple_512_ge c1 n -> least_multiple_512_ge c2 n -> c1 = c2.
Proof.
  intros (D1 & G1 & L1) (D2 & G2 & L2).
  specialize (L1 c2 D2 G2). specialize (L2 c1 D1 G1). lia.
Qed.

(** Without wrap-around the rounding expression of the source is the
    least multiple of 512 above a non-negative minimum. *)
Lemma round_up_512 n :
  0 <= n -> least_multiple_512_ge ((n + 511) ÷ 512 * 512) n.
Proof.
  intros Hn. rewrite Z.quot_div_nonneg by lia.
  pose proof (Z.div_mod (n + 511) 512 ltac:(lia)) as Hdm.
  pose proof (Z.mod_pos_bound (n + 511) 512 ltac:(lia)) as Hb.
  repeat split.
  - exists ((n + 511) / 512). reflexivity.
  - lia.
  - intros c' [k ->] Hle.
    assert ((n + 511) / 512 < k + 1); [|lia].
    apply Z.div_lt_upper_bound; lia.
Qed.

Lemma rounding_in_range n :
  0 <= n <= 2 ^ 63 - 512 ->
  wrap64 (wrap64 (wrap64 (n + 511) ÷ 512) * 512) = (n + 511) ÷ 512 * 512.
Proof.
  intros Hn.
  assert (0 <= (n + 511) ÷ 512 * 512 <= n + 511).
  { rewrite Z.quot_div_nonneg by lia.
    pose proof (Z.div_mod (n + 511) 512 ltac:(lia)).
    pose proof (Z.mod_pos_bound (n + 511) 512 ltac:(lia)). lia. }
  assert (0 <= (n + 511) ÷ 512 <= n + 511).
  { rewrite Z.quot_div_nonneg in * by lia. split; [apply Z.div_pos; lia|].
    pose proof (Z.div_le_upper_bound (n + 511) 512 (n + 511)). lia. }
  rewrite (wrap64_in_range (n + 511)) by (unfold in_int64; lia).
  rewrite (wrap64_in_range ((n + 511) ÷ 512)) by (unfold in_int64; lia).
  apply wrap64_in_range. unfold in_int64. lia.
Qed.

(** On minima for which the rounding does not leave [int64], the
    function rejects exactly the four cases of the specification and
    otherwise returns the rounded minimum. *)
Lemma validateCapacity_without_overflow (minCapacity maxCapacity : Z) :
  0 <= minCapacity <= 2 ^ 63 - 512 ->
  let range := Some {| csi.RequiredBytes := minCapacity; csi.LimitBytes := maxCapacity |} in
  let rounded := (minCapacity + 511) ÷ 512 * 512 in
  least_multiple_512_ge rounded minCapacity
  /\ (minCapacity = 0
      \/ (maxCapacity <> 0 /\ maxCapacity < minCapacity)
      \/ (maxCapacity <> 0 /\ maxCapacity < rounded) ->
      exists msg, validateCapacity range = (-1, -1, -1, Some (Status InvalidArgument msg)))
  /\ (~ (minCapacity = 0
         \/ (maxCapacity <> 0 /\ maxCapacity < minCapacity)
         \/ (maxCapacity <> 0 /\ maxCapacity < rounded)) ->
      validateCapacity range = (rounded, minCapacity, maxCapacity, None)).
Proof.
  intros Hmin range rounded.
  split; [apply round_up_512; lia|].
  unfold range, validateCapacity. cbn [csi.RequiredBytes csi.LimitBytes].
  rewrite rounding_in_range by lia. fold rounded.
  destruct (Z.eqb_spec minCapacity 0) as [Hz|Hz].
  { split; [eauto|tauto]. }
  destruct (Z.eqb_spec maxCapacity 0) as [Hm|Hm]; cbn [negb andb].
  { split; [lia|reflexivity]. }
  destruct (Z.ltb_spec maxCapacity minCapacity) as [Hlt|Hge].
  { split; [eauto|tauto]. }
  destruct (Z.ltb_spec maxCapacity rounded) as [Hlt'|Hge'].
  { split; [eauto|tauto]. }
  split; [lia|reflexivity].
Qed.

Lemma validateCapacity_absent :
  validateCapacity None = (-1, -1, -1, Some (Status InvalidArgument "must specify capacity")).
Proof. reflexivity. Qed.

(** C5.  At the minimum [2^63 - 1] the rounding [(min + 511) / 512 * 512]
    wraps around: the function returns the negative capacity [-2^63 + 512]
    and no error, with no maximum as well as with the maximum [2^63 - 1].
    The returned capacity is below the minimum, and with the non-zero
    maximum no error is raised although every multiple of 512 that is at
    least the minimum exceeds the maximum. *)
Theorem validateCapacity_wraps_around :
  let minCapacity := 2 ^ 63 - 1 in
  let range limit := Some {| csi.RequiredBytes := minCapacity; csi.LimitBytes := limit |} in
  in_int64 minCapacity
  /\ validateCapacity (range 0) = (- 2 ^ 63 + 512, minCapacity, 0, None)
  /\ validateCapacity (range minCapacity) = (- 2 ^ 63 + 512, minCapacity, minCapacity, None)
  /\ - 2 ^ 63 + 512 < minCapacity
  /\ (forall c, least_multiple_512_ge c minCapacity -> minCapacity < c).
Proof.
  cbv zeta. split; [unfold in_int64; lia|].
  split; [vm_compute; reflexivity|].
  split; [vm_compute; reflexivity|].
  split; [lia|].
  intros c ([k ->] & Hge & _). lia.
Qed.

End capacity.

(** ** Requests, retries and the claim store *)

Module api_facts.

Lemma logged_pvcs c ok w : pvcs (logged c ok w) = pvcs w.
Proof. reflexivity. Qed.

Lemma logged_length c ok w : length (log (logged c ok w)) = S (length (log w)).
Proof. simpl. rewrite length_app. simpl. lia. Qed.

Lemma answers_logged c ok w k : answers (logged c ok w) k = answers w k.
Proof. reflexivity. Qed.

Lemma answers_Answered w k :
  answers w k = true -> exists n, oracle w k = Answered n.
Proof. unfold answers. destruct (oracle w k); [eauto|discriminate]. Qed.

(** An answered read of a stored claim. *)
Lemma pvcs_Get_found w ns name pvc :
  answers w (length (log w)) = true ->
  pvcs w !! (ns, name) = Some pvc ->
  pvcs_Get ns name w = (inr pvc, logged (PvcGet ns name) true w).
Proof.
  intros Ha Hp. apply answers_Answered in Ha as [n Hn].
  unfold pvcs_Get, request. rewrite Hn, Hp. reflexivity.
Qed.

(** An answered write of a stored claim. *)
Lemma pvcs_Update_stored w obj old :
  answers w (length (log w)) = true ->
  pvcs w !! (corev1.Namespace obj, corev1.Name obj) = Some old ->
  pvcs_Update obj w
  = (inr tt, logged (PvcUpdate obj) true
               (with_pvcs (<[(corev1.Namespace obj, corev1.Name obj) := obj]> (pvcs w)) w)).
Proof.
  intros Ha Hp. apply answers_Answered in Ha as [n Hn].
  unfold pvcs_Update, request. rewrite Hn. cbv zeta. rewrite Hp. reflexivity.
Qed.

(** A read never changes the store, and returns what is stored. *)
Lemma pvcs_Get_inv ns name w r w' :
  pvcs_Get ns name w = (r, w') ->
  w' = logged (PvcGet ns name) (is_ok r) w
  /\ match r with
     | inr pvc => pvcs w !! (ns, name) = Some pvc
     | inl e => exists reason, e = ApiError reason
     end.
Proof.
  unfold pvcs_Get, request. destruct (oracle w _) as [n|reason].
  - destruct (pvcs w !! (ns, name)) as [pvc|] eqn:Hp; simpl; intros ?; simplify_eq; eauto.
  - intros ?; simplify_eq. eauto.
Qed.

(** A write either stores the object or fails and leaves the store alone. *)
Lemma pvcs_Update_inv obj w r w' :
  pvcs_Update obj w = (r, w') ->
  match r with
  | inr _ =>
      w' = logged (PvcUpdate obj) true
             (with_pvcs (<[(corev1.Namespace obj, corev1.Name obj) := obj]> (pvcs w)) w)
  | inl e => w' = logged (PvcUpdate obj) false w /\ exists reason, e = ApiError reason
  end.
Proof.
  unfold pvcs_Update, request. destruct (oracle w _) as [n|reason]; cbv zeta.
  - destruct (pvcs w !! _) as [pvc|] eqn:Hp; simpl; intros ?; simplify_eq; eauto.
  - intros ?; simplify_eq. eauto.
Qed.

(** *** The retry loop *)

Lemma RetryOnConflict_unfold steps fn w :
  RetryOnConflict (S steps) fn w
  = match fn w with
    | (inr _, w1) => (inr tt, w1)
    | (inl e, w1) =>
        if IsConflict e
        then match steps with O => (inl e, w1) | S _ => RetryOnConflict steps fn w1 end
        else (inl e, w1)
    end.
Proof.
  simpl. unfold bind, try. destruct (fn w) as [[e|[]] w1]; [|reflexivity].
  destruct e as [c msg|msg|[]|msg|]; try reflexivity.
  destruct steps; reflexivity.
Qed.

Lemma RetryOnConflict_done steps fn w w' :
  fn w = (inr tt, w') -> RetryOnConflict (S steps) fn w = (inr tt, w').
Proof. intros H. rewrite RetryOnConflict_unfold, H. reflexivity. Qed.

Lemma RetryOnConflict_failed steps fn w e w' :
  fn w = (inl e, w') -> IsConflict e = false ->
  RetryOnConflict (S steps) fn w = (inl e, w').
Proof. intros H Hc. rewrite RetryOnConflict_unfold, H, Hc. reflexivity. Qed.

(** Whatever every single attempt guarantees about failures, the retry
    loop guarantees too, provided the guarantee composes along retries. *)
Lemma RetryOnConflict_failure_ind (R : World -> Error -> World -> Prop) fn :
  (forall w e w', fn w = (inl e, w') -> R w e w') ->
  (forall w e0 w1 e w', fn w = (inl e0, w1) -> R w1 e w' -> R w e w') ->
  forall steps w e w',
    RetryOnConflict (S steps) fn w = (inl e, w') -> R w e w'.
Proof.
  intros Hone Hstep. induction steps as [|steps IH]; intros w e w';
    rewrite RetryOnConflict_unfold; destruct (fn w) as [[e0|[]] w1] eqn:Hfn;
    try discriminate; destruct (IsConflict e0);
    intros ?; simplify_eq; eauto.
Qed.

End api_facts.

(** ** The volume state machine *)

Module state_machine.
Import vocabulary.
Import common api_facts.



(** Evaluating the closure once the read has been answered. *)
Ltac read_claim :=
  unfold bind; erewrite pvcs_Get_found by eassumption.

Ltac eqb_true H := rewrite (proj2 (String.eqb_eq _ _) H).
Ltac eqb_false H := rewrite (proj2 (String.eqb_neq _ _) H).



(** *** Staging and unstaging *)

Lemma stateKey_ne_stagedOnNodesKey : stateKey <> stagedOnNodesKey.
Proof. intros H. vm_compute in H. discriminate. Qed.

Lemma annot_insert_eq (m : gmap string string) k v : annot (<[k := v]> m) k = v.
Proof. unfold annot. rewrite lookup_insert_eq. reflexivity. Qed.

Lemma annot_insert_ne (m : gmap string string) k k' v :
  k <> k' -> annot (<[k := v]> m) k' = annot m k'.
Proof. intros H. unfold annot. rewrite lookup_insert_ne by assumption. reflexivity. Qed.

Section Staging.
Variable range : gset string -> list string.
Hypothesis range_enumerates : forall set, range set ≡ₚ elements set.

(** C3.  [StagePvcOnNode node], on a claim that the API server hands
    out: when the deletion timestamp is unset and the state is idle or
    staged, the claim is updated with state staged and with the
    staged-on-nodes annotation holding the encoding of the previous set
    united with [{node}] (which decodes to that union for every node name
    that is non-empty and comma-free), all else unchanged; when the
    deletion timestamp is set, or the state is expanding, cloning or
    snapshotting, it fails with a precondition-failed error and the claim
    is not changed. *)
Theorem StagePvcOnNode_transitions
    (w : World) (pvcName pvcNamespace nodeName : string) (pvc : Pvc) :
  pvcs w !! (pvcNamespace, pvcName) = Some pvc ->
  corev1.Namespace pvc = pvcNamespace ->
  corev1.Name pvc = pvcName ->
  answers w (length (log w)) = true ->
  let state := annot (corev1.Annotations pvc) stateKey in
  let previous := stringListToSet (annot (corev1.Annotations pvc) stagedOnNodesKey) in
  let read := logged (PvcGet pvcNamespace pvcName) true w in
  let run := StagePvcOnNode range pvcName pvcNamespace nodeName w in
  (corev1.DeletionTimestamp pvc = None -> state = "idle" \/ state = "staged" ->
   answers w (S (length (log w))) = true ->
   exists pvc',
     run = (inr tt,
            logged (PvcUpdate pvc') true
              (with_pvcs (<[(pvcNamespace, pvcName) := pvc']> (pvcs w)) read))
     /\ annot (corev1.Annotations pvc') stateKey = "staged"
     /\ annot (corev1.Annotations pvc') stagedOnNodesKey
        = setToStringList range (previous ∪ {[nodeName]})
     /\ (nodeName <> "" -> has_byte "," nodeName = false ->
         stringListToSet (annot (corev1.Annotations pvc') stagedOnNodesKey)
         = previous ∪ {[nodeName]})
     /\ (forall k, k <> stateKey -> k <> stagedOnNodesKey ->
         corev1.Annotations pvc' !! k = corev1.Annotations pvc !! k)
     /\ corev1.with_Annotations (corev1.Annotations pvc) pvc' = pvc)
  /\ (corev1.DeletionTimestamp pvc <> None ->
      run = (inl (Status FailedPrecondition "volume is being deleted"), read))
  /\ (corev1.DeletionTimestamp pvc = None ->
      (state = "expanding" ->
         run = (inl (Status FailedPrecondition "volume is being expanded"), read))
      /\ (state = "cloning" ->
         run = (inl (Status FailedPrecondition "volume is being cloned"), read))
      /\ (state = "snapshotting" ->
         run = (inl (Status FailedPrecondition "volume is being snapshotted"), read))).
Proof.
  intros Hp Hns Hname Ha state previous read run.
  assert (Hstate : annot (corev1.Annotations pvc) stateKey = state) by reflexivity.
  subst run. unfold StagePvcOnNode, DefaultRetry_Steps.
  refine (conj _ (conj _ _)).
  - intros Hdel Hst Hupd.
    eexists. split; [|split; [|split; [|split; [|split]]]].
    + apply RetryOnConflict_done.
      unfold StagePvcOnNode_attempt. read_claim. rewrite Hdel, Hstate.
      rewrite bool_decide_false by (intros H; apply H; reflexivity).
      assert (String.eqb state "expanding" = false /\ String.eqb state "snapshotting" = false
              /\ String.eqb state "cloning" = false
              /\ negb (String.eqb state "idle") && negb (String.eqb state "staged") = false)
        as (-> & -> & -> & ->) by (destruct Hst as [-> | ->]; repeat split; reflexivity).
      erewrite pvcs_Update_stored.
      * simpl. rewrite Hns, Hname. reflexivity.
      * rewrite answers_logged, logged_length. exact Hupd.
      * simpl. rewrite Hns, Hname. exact Hp.
    + simpl. rewrite annot_insert_ne by (intros H; symmetry in H; revert H;
                                        apply stateKey_ne_stagedOnNodesKey).
      apply annot_insert_eq.
    + simpl. rewrite annot_insert_eq.
      rewrite annot_insert_ne by apply stateKey_ne_stagedOnNodesKey.
      fold previous. f_equal. apply union_comm_L.
    + intros Hne Hfree. simpl. rewrite annot_insert_eq.
      rewrite annot_insert_ne by apply stateKey_ne_stagedOnNodesKey.
      fold previous. rewrite (union_comm_L previous).
      apply (encoding.decode_encode range range_enumerates).
      * intros x Hx. apply elem_of_union in Hx as [Hx|Hx].
        -- apply elem_of_singleton in Hx as ->. exact Hfree.
        -- eapply encoding.stringListToSet_comma_free, Hx.
      * intros H. apply Hne.
        assert (nodeName ∈ ({[nodeName]} ∪ previous : gset string)) as Hin by set_solver.
        rewrite H in Hin. apply elem_of_singleton in Hin. exact Hin.
    + intros k Hk1 Hk2. simpl.
      rewrite !lookup_insert_ne by congruence. reflexivity.
    + destruct pvc. reflexivity.
  - intros Hdel. apply RetryOnConflict_failed; [|reflexivity].
    unfold StagePvcOnNode_attempt. read_claim.
    rewrite bool_decide_true by assumption. reflexivity.
  - intros Hdel.
    refine (conj _ (conj _ _)); intros Hs;
      (apply RetryOnConflict_failed; [|reflexivity]);
      unfold StagePvcOnNode_attempt; read_claim; rewrite Hdel, Hstate, Hs;
      reflexivity.
Qed.


End Staging.

(** *** Unknown states *)


End state_machine.

(** ** What a computation adds to the request log *)

Module traces.
Import vocabulary.
Import api_facts.
Local Open Scope list_scope.

Lemma emits_ret {A} P (a : A) : emits P (ret a).
Proof.
  intros w r w' H. unfold ret in H. simplify_eq.
  exists []. rewrite app_nil_r. auto.
Qed.

Lemma emits_fail {A} P e : emits P (@fail A e).
Proof.
  intros w r w' H. unfold fail in H. simplify_eq.
  exists []. rewrite app_nil_r. auto.
Qed.

Lemma emits_bind {A B} P (m : M A) (k : A -> M B) :
  emits P m -> (forall a, emits P (k a)) -> emits P (bind m k).
Proof.
  intros Hm Hk w r w' H. unfold bind in H.
  destruct (m w) as [[e|a] w1] eqn:Hmw.
  - simplify_eq. eapply Hm, Hmw.
  - destruct (Hm _ _ _ Hmw) as (evs1 & Hl1 & HP1).
    destruct (Hk a _ _ _ H) as (evs2 & Hl2 & HP2).
    exists (evs1 ++ evs2). rewrite Hl2, Hl1, app_assoc.
    split; [reflexivity|]. apply Forall_app. auto.
Qed.

Lemma emits_try {A} P (m : M A) : emits P m -> emits P (try m).
Proof.
  intros Hm w r w' H. unfold try in H.
  destruct (m w) as [[e|a] w1] eqn:Hmw.
  - destruct e; simplify_eq; eapply Hm, Hmw.
  - simplify_eq. eapply Hm, Hmw.
Qed.

Lemma emits_weaken {A} (P Q : Call * bool -> Prop) (m : M A) :
  (forall ev, P ev -> Q ev) -> emits P m -> emits Q m.
Proof.
  intros HPQ Hm w r w' H. destruct (Hm _ _ _ H) as (evs & Hl & HP).
  exists evs. split; [exact Hl|]. eapply Forall_impl; eauto.
Qed.

(** A request logs itself, once. *)
Lemma request_inv {A} c (serve : Z -> World -> (Error + A) * World) w r w' :
  (forall n w0, log (snd (serve n w0)) = log w0) ->
  request c serve w = (r, w') ->
  log w' = (log w ++ [(c, is_ok r)])%list.
Proof.
  intros Hserve. unfold request. destruct (oracle w _) as [n|reason].
  - specialize (Hserve n w). destruct (serve n w) as [res w1]. simpl in Hserve.
    intros ?; simplify_eq. simpl. rewrite Hserve. reflexivity.
  - intros ?; simplify_eq. reflexivity.
Qed.

Lemma emits_request {A} P c (serve : Z -> World -> (Error + A) * World) :
  (forall n w0, log (snd (serve n w0)) = log w0) ->
  (forall ok, P (c, ok)) ->
  emits P (request c serve).
Proof.
  intros Hserve HP w r w' H. apply request_inv in H; [|exact Hserve].
  exists [(c, is_ok r)]. split; [exact H|]. constructor; [apply HP|constructor].
Qed.

Ltac serve_keeps_log :=
  intros ? ?; cbv zeta; repeat case_match; reflexivity.

Lemma emits_pvcs_Get P ns name :
  (forall ok, P (PvcGet ns name, ok)) -> emits P (pvcs_Get ns name).
Proof. intros HP. apply emits_request; [serve_keeps_log|exact HP]. Qed.

Lemma emits_pvcs_Update P obj :
  (forall ok, P (PvcUpdate obj, ok)) -> emits P (pvcs_Update obj).
Proof. intros HP. apply emits_request; [serve_keeps_log|exact HP]. Qed.

Lemma emits_pvcs_Patch P ns name patch :
  (forall ok, P (PvcPatch ns name patch, ok)) -> emits P (pvcs_Patch ns name patch).
Proof. intros HP. apply emits_request; [serve_keeps_log|exact HP]. Qed.

Lemma emits_pvcs_List P sel :
  (forall ok, P (PvcList sel, ok)) -> emits P (pvcs_List sel).
Proof. intros HP. apply emits_request; [serve_keeps_log|exact HP]. Qed.

Lemma emits_snapshots_List P sel :
  (forall ok, P (SnapList sel, ok)) -> emits P (snapshots_List sel).
Proof. intros HP. apply emits_request; [serve_keeps_log|exact HP]. Qed.

Lemma emits_jobs_Create P job :
  (forall ok, P (JobCreate job, ok)) -> emits P (jobs_Create job).
Proof. intros HP. apply emits_request; [serve_keeps_log|exact HP]. Qed.

Lemma emits_jobs_Get P ns name :
  (forall ok, P (JobGet ns name, ok)) -> emits P (jobs_Get ns name).
Proof. intros HP. apply emits_request; [serve_keeps_log|exact HP]. Qed.

Lemma emits_jobs_Delete P ns name :
  (forall ok, P (JobDelete ns name, ok)) -> emits P (jobs_Delete ns name).
Proof. intros HP. apply emits_request; [serve_keeps_log|exact HP]. Qed.

Lemma emits_queue_op P op : emits P (queue_op op).
Proof.
  intros w r w' H. unfold queue_op in H. simplify_eq.
  exists []. rewrite app_nil_r. auto.
Qed.

Lemma emits_RetryOnConflict P steps fn :
  emits P fn -> emits P (RetryOnConflict steps fn).
Proof.
  intros Hfn. induction steps as [|steps IH]; simpl.
  - apply emits_fail.
  - apply emits_bind; [apply emits_try, Hfn|].
    intros [e|[]]; [|apply emits_ret].
    destruct (IsConflict e); [|apply emits_fail].
    destruct steps; [apply emits_fail|].
    apply emits_bind; [apply emits_ret|]. intros _. exact IH.
Qed.

(** The job helpers. *)
Lemma emits_CreateJob P config :
  (forall ok, P (JobCreate (common.job_of config), ok)) ->
  emits P (common.CreateJob config).
Proof.
  intros HP. unfold common.CreateJob.
  apply emits_bind; [apply emits_try, emits_jobs_Create, HP|].
  intros [e|[]]; [|apply emits_ret].
  destruct (negb (IsAlreadyExists e)); [apply emits_fail|apply emits_ret].
Qed.

(** [CreateJob] sends exactly one request, the creation of its job. *)
Lemma CreateJob_inv config w r w' :
  common.CreateJob config w = (r, w') ->
  exists ok, log w' = log w ++ [(JobCreate (common.job_of config), ok)].
Proof.
  unfold common.CreateJob, bind, try. cbv zeta.
  destruct (jobs_Create (common.job_of config) w) as [res w1] eqn:Hc.
  apply request_inv in Hc; [|intros ? ?; reflexivity].
  intros H. exists (is_ok res).
  destruct res as [e|[]].
  - destruct e as [c msg|msg|[]|msg|]; unfold fail, ret in H; simpl in H;
      simplify_eq; exact Hc.
  - unfold ret in H. simplify_eq. exact Hc.
Qed.

Lemma bind_inv {A B} (m : M A) (k : A -> M B) w r w' :
  bind m k w = (r, w') ->
  (exists e, m w = (inl e, w') /\ r = inl e)
  \/ (exists a w1, m w = (inr a, w1) /\ k a w1 = (r, w')).
Proof.
  unfold bind. destruct (m w) as [[e|a] w1]; intros H.
  - simplify_eq. left. eauto.
  - right. eauto.
Qed.

Lemma emits_WaitForJobToSucceed P fuel jobName jobNamespace :
  (forall ok, P (JobGet jobNamespace jobName, ok)) ->
  emits P (common.WaitForJobToSucceed fuel jobName jobNamespace).
Proof.
  intros HP. induction fuel as [|fuel IH]; simpl; [apply emits_fail|].
  apply emits_bind; [apply emits_jobs_Get, HP|].
  intros succeeded. destruct (0 <? succeeded); [apply emits_ret|].
  apply emits_bind; [apply emits_ret|]. intros _. exact IH.
Qed.

Lemma emits_DeleteJobSynchronously_loop P fuel err jobName jobNamespace :
  (forall ok, P (JobGet jobNamespace jobName, ok)) ->
  emits P (common.DeleteJobSynchronously_loop fuel err jobName jobNamespace).
Proof.
  intros HP. revert err. induction fuel as [|fuel IH]; intros [e|]; simpl;
    try (destruct (IsNotFound e); [apply emits_ret|apply emits_fail]);
    try apply emits_fail.
  apply emits_bind; [apply emits_ret|]. intros _.
  apply emits_bind; [apply emits_try, emits_jobs_Get, HP|].
  intros r. apply IH.
Qed.

Lemma emits_DeleteJobSynchronously P fuel jobName jobNamespace :
  (forall ok, P (JobDelete jobNamespace jobName, ok)) ->
  (forall ok, P (JobGet jobNamespace jobName, ok)) ->
  emits P (common.DeleteJobSynchronously fuel jobName jobNamespace).
Proof.
  intros HD HG. unfold common.DeleteJobSynchronously.
  apply emits_bind; [apply emits_try, emits_jobs_Delete, HD|].
  intros r. apply emits_DeleteJobSynchronously_loop, HG.
Qed.

End traces.

(** ** The controller RPCs *)

Module rpc.
Import vocabulary.
Import golang common controller api_facts traces.
Local Open Scope list_scope.

Lemma FindPvcByLabelSelector_found sel w pvc :
  answers w (length (log w)) = true ->
  selected sel w = [pvc] ->
  FindPvcByLabelSelector sel w = (inr pvc, logged (PvcList sel) true w).
Proof.
  intros Ha Hsel. apply answers_Answered in Ha as [n Hn].
  unfold FindPvcByLabelSelector, bind, pvcs_List, request. rewrite Hn.
  fold (selected sel w). rewrite Hsel. reflexivity.
Qed.


Lemma validateCapacity_step_ok range capacity minCapacity maxCapacity w :
  validateCapacity range = (capacity, minCapacity, maxCapacity, None) ->
  validateCapacity_step range w = (inr (capacity, maxCapacity), w).
Proof. intros H. unfold validateCapacity_step. rewrite H. reflexivity. Qed.

(** C6 (as amended).  When the capacity recorded on the claim is at least
    the requested, rounded capacity, [ControllerExpandVolume] performs the
    lookup of the claim and nothing else: no state transition, no job.  It
    answers with the recorded capacity and [NodeExpansionRequired = false]
    provided the recorded capacity does not exceed a non-zero [LimitBytes];
    when it does, the RPC fails with invalid-argument. *)
Theorem ControllerExpandVolume_already_expanded
    (fuel : nat) (s : ControllerServer) (req : csi.ControllerExpandVolumeRequest)
    (w : World) (pvc : Pvc) (capacity minCapacity maxCapacity currentCapacity : Z) :
  csi.ExpandVolumeId req <> "" ->
  validateCapacity (csi.ExpandCapacityRange req)
  = (capacity, minCapacity, maxCapacity, None) ->
  answers w (length (log w)) = true ->
  selected (uidKey, csi.ExpandVolumeId req) w = [pvc] ->
  ParseInt (annot (corev1.Annotations pvc) capacityKey) = Some currentCapacity ->
  capacity <= currentCapacity ->
  let looked_up := logged (PvcList (uidKey, csi.ExpandVolumeId req)) true w in
  (maxCapacity = 0 \/ currentCapacity <= maxCapacity ->
   ControllerExpandVolume fuel s req w
   = (inr {| csi.ExpandCapacityBytes := currentCapacity;
             csi.NodeExpansionRequired := false |}, looked_up))
  /\ (maxCapacity <> 0 -> maxCapacity < currentCapacity ->
      exists msg,
        ControllerExpandVolume fuel s req w = (inl (Status InvalidArgument msg), looked_up)).
Proof.
  intros Hid Hcap Ha Hsel Hparse Hle looked_up.
  apply String.eqb_neq in Hid.
  assert (Hrun : ControllerExpandVolume fuel s req w
                 = (if negb (maxCapacity =? 0) && (maxCapacity <? currentCapacity)
                    then fail (Status InvalidArgument
                                 ("current volume capacity (" +:+ FormatInt currentCapacity
                                  +:+ ") exceeds maximum capacity ("
                                  +:+ FormatInt maxCapacity +:+ ")"))
                    else ret {| csi.ExpandCapacityBytes := currentCapacity;
                                csi.NodeExpansionRequired := false |}) looked_up).
  { unfold ControllerExpandVolume. rewrite Hid.
    unfold bind at 1. erewrite validateCapacity_step_ok by exact Hcap.
    unfold bind at 1. erewrite FindPvcByLabelSelector_found by eassumption.
    rewrite Hparse. apply Z.leb_le in Hle. rewrite Hle. reflexivity. }
  rewrite Hrun. split.
  - intros Hmax.
    assert (negb (maxCapacity =? 0) && (maxCapacity <? currentCapacity) = false) as ->.
    { destruct Hmax as [-> | Hmax]; [reflexivity|].
      apply andb_false_iff. right. apply Z.ltb_ge. exact Hmax. }
    reflexivity.
  - intros Hnz Hlt.
    apply Z.eqb_neq in Hnz. apply Z.ltb_lt in Hlt. rewrite Hnz, Hlt.
    eexists. reflexivity.
Qed.


(** *** Capacity of derived volumes *)




End rpc.

(** ** Creating a volume *)

Module create_volume.
Import vocabulary.
Import golang common controller api_facts traces.
Local Open Scope list_scope.

(** Unfolds a computation into its requests and discharges the side
    conditions on the events with [tac]. *)
Ltac emits_with tac :=
  repeat first
    [ apply emits_ret
    | apply emits_fail
    | apply emits_queue_op
    | apply emits_RetryOnConflict
    | apply emits_try
    | apply emits_pvcs_Get; intros ?; tac
    | apply emits_pvcs_Update; intros ?; tac
    | apply emits_pvcs_Patch; intros ?; tac
    | apply emits_pvcs_List; intros ?; tac
    | apply emits_snapshots_List; intros ?; tac
    | apply emits_CreateJob; intros ?; tac
    | apply emits_WaitForJobToSucceed; intros ?; tac
    | apply emits_DeleteJobSynchronously; intros ?; tac
    | match goal with
      | |- emits _ (match ?x with _ => _ end) => destruct x
      | |- emits _ (let _ := _ in _) => cbv zeta
      end
    | apply emits_bind; [|intros ?] ].

Lemma emits_SetPvcStateTo P pvcName pvcNamespace newState :
  (forall ok, P (PvcGet pvcNamespace pvcName, ok)) ->
  (forall obj ok, P (PvcUpdate obj, ok)) ->
  emits P (SetPvcStateTo pvcName pvcNamespace newState).
Proof.
  intros HG HU. unfold SetPvcStateTo, SetPvcStateTo_attempt.
  emits_with ltac:(first [apply HG | apply HU]).
Qed.

Lemma emits_createVolumeFromNothing fuel s bn bns bp pvc capacity :
  emits any_event (createVolumeFromNothing fuel s bn bns bp pvc capacity).
Proof. unfold createVolumeFromNothing. emits_with ltac:(exact I). Qed.

Lemma emits_createVolumeFromVolume fuel s bn bns bp pvc capacity maxCapacity uid :
  emits any_event (createVolumeFromVolume fuel s bn bns bp pvc capacity maxCapacity uid).
Proof.
  unfold createVolumeFromVolume, FindPvcByLabelSelector, SetPvcStateToIdle,
    StrategicMergePatchPvc.
  emits_with ltac:(exact I).
Qed.

Lemma emits_createVolumeFromSnapshot fuel s bn bns bp pvc capacity maxCapacity uid :
  emits any_event (createVolumeFromSnapshot fuel s bn bns bp pvc capacity maxCapacity uid).
Proof.
  unfold createVolumeFromSnapshot, FindVolumeSnapshotByLabelSelector.
  emits_with ltac:(exact I).
Qed.

(** The steps of [CreateVolume] that touch nothing. *)
Lemma getParameter_inv parameters key w r w' :
  getParameter parameters key w = (r, w') ->
  w' = w
  /\ ((annot parameters key = "" /\ is_ok r = false)
      \/ (annot parameters key <> "" /\ r = inr (annot parameters key))).
Proof.
  unfold getParameter, fail, ret.
  destruct (String.eqb_spec (annot parameters key) ""); intros ?; simplify_eq; auto.
Qed.

Lemma validateCapacity_step_inv range w r w' :
  validateCapacity_step range w = (r, w') ->
  w' = w
  /\ match r with
     | inl _ => (validateCapacity range).2 <> None
     | inr _ => (validateCapacity range).2 = None
     end.
Proof.
  unfold validateCapacity_step, fail, ret.
  destruct (validateCapacity range) as [[[c mn] mx] [e|]]; intros ?; simplify_eq;
    simpl; auto.
Qed.

Lemma check_capabilities_inv caps w r w' :
  check_capabilities caps w = (r, w') ->
  w' = w
  /\ match r with
     | inl _ => True
     | inr _ => Forall acceptable caps
     end.
Proof.
  revert r. induction caps as [|cap caps IH]; simpl; intros r.
  - unfold ret. intros ?; simplify_eq. auto.
  - destruct (csi.Block cap) eqn:Hb; simpl.
    2:{ unfold fail. intros ?; simplify_eq. auto. }
    destruct (csi.AccessMode cap) as [mode|] eqn:Hm.
    2:{ unfold fail. intros ?; simplify_eq. auto. }
    destruct mode; unfold fail;
      try (intros ?; simplify_eq; split; [reflexivity|exact I]).
    all: intros H; apply IH in H as [-> H]; split; [reflexivity|].
    all: destruct r; [exact I|].
    all: constructor; [|exact H].
    all: split; [exact Hb|eexists; split; [exact Hm|reflexivity]].
Qed.


(** C8.  On every path of [CreateVolume], under every behaviour of the
    API server, a request that creates a job comes after a successful
    patch that puts the cleanup finalizer on the claim.  When the RPC ends
    before that patch, for one of the reasons of [fails_before_patch], it
    returns an error and has sent nothing but the read of the claim: no
    job was created. *)
Theorem CreateVolume_job_after_finalizer
    (fuel : nat) (s : ControllerServer) (req : csi.CreateVolumeRequest) (w : World) :
  let run := CreateVolume fuel s req w in
  exists evs,
    log run.2 = log w ++ evs
    /\ (forall i job ok,
          evs !! i = Some (JobCreate job, ok) ->
          exists j ns name patch,
            (j < i)%nat
            /\ evs !! j = Some (PvcPatch ns name patch, true)
            /\ cleanupFinalizer ∈ corev1.Finalizers patch)
    /\ (fails_before_patch req evs ->
        is_ok run.1 = false /\ Forall is_PvcGet evs).
Proof.
  cbv zeta. destruct (CreateVolume fuel s req w) as [r w'] eqn:H. simpl.
  unfold CreateVolume in H.
  (* the four required parameters *)
  apply bind_inv in H as [(e & Hm & ->)|(pvcName & w1 & Hm & H)];
    apply getParameter_inv in Hm as [-> [[Hp1 Hr]|[Hp1 Hr]]];
    simpl in Hr; try discriminate; clear Hr.
  { exists []. rewrite app_nil_r. split; [reflexivity|]. split; [intros i ? ? Hi; discriminate|].
    intros _. split; [reflexivity|constructor]. }
  apply bind_inv in H as [(e & Hm & ->)|(pvcNamespace & w1 & Hm & H)];
    apply getParameter_inv in Hm as [-> [[Hp2 Hr]|[Hp2 Hr]]];
    simpl in Hr; try discriminate; clear Hr.
  { exists []. rewrite app_nil_r. split; [reflexivity|]. split; [intros i ? ? Hi; discriminate|].
    intros _. split; [reflexivity|constructor]. }
  apply bind_inv in H as [(e & Hm & ->)|(backingPvcName & w1 & Hm & H)];
    apply getParameter_inv in Hm as [-> [[Hp3 Hr]|[Hp3 Hr]]];
    simpl in Hr; try discriminate; clear Hr.
  { exists []. rewrite app_nil_r. split; [reflexivity|]. split; [intros i ? ? Hi; discriminate|].
    intros _. split; [reflexivity|constructor]. }
  apply bind_inv in H as [(e & Hm & ->)|(backingPvcNamespace & w1 & Hm & H)];
    apply getParameter_inv in Hm as [-> [[Hp4 Hr]|[Hp4 Hr]]];
    simpl in Hr; try discriminate; clear Hr.
  { exists []. rewrite app_nil_r. split; [reflexivity|]. split; [intros i ? ? Hi; discriminate|].
    intros _. split; [reflexivity|constructor]. }
  cbv zeta in H.
  (* the read of the claim *)
  apply bind_inv in H as [(e & Hm & ->)|(pvc & w1 & Hm & H)];
    apply pvcs_Get_inv in Hm as [-> _]; simpl is_ok.
  { eexists [_]. split; [reflexivity|]. split.
    - intros [|[|i]] ? ? Hi; discriminate.
    - intros _. split; [reflexivity|]. repeat constructor. eexists _, _. reflexivity. }
  (* capacity and capabilities *)
  apply bind_inv in H as [(e & Hm & ->)|([capacity maxCapacity] & w1 & Hm & H)];
    apply validateCapacity_step_inv in Hm as [-> Hcap].
  { eexists [_]. split; [reflexivity|]. split.
    - intros [|[|i]] ? ? Hi; discriminate.
    - intros _. split; [reflexivity|]. repeat constructor. eexists _, _. reflexivity. }
  apply bind_inv in H as [(e & Hm & ->)|([] & w1 & Hm & H)];
    apply check_capabilities_inv in Hm as [-> Hcaps].
  { eexists [_]. split; [reflexivity|]. split.
    - intros [|[|i]] ? ? Hi; discriminate.
    - intros _. split; [reflexivity|]. repeat constructor. eexists _, _. reflexivity. }
  (* from here on no reason of [fails_before_patch] holds *)
  assert (Hnone : forall evs, evs !! 0%nat = Some (PvcGet pvcNamespace pvcName, true) ->
                              ~ fails_before_patch req evs).
  { intros evs H0 [(key & Hkey & Hempty)|[(c & Hc)|[Hbad|Hbad]]].
    - unfold required_parameters in Hkey.
      rewrite !elem_of_cons, elem_of_nil in Hkey.
      destruct Hkey as [->|[->|[->|[->|[]]]]]; congruence.
    - congruence.
    - contradiction.
    - contradiction. }
  (* the patch *)
  unfold StrategicMergePatchPvc in H.
  apply bind_inv in H as [(e & Hm & ->)|([] & w1 & Hm & H)].
  { apply request_inv in Hm; [|intros ? ?; repeat case_match; reflexivity].
    eexists [_; _]. split; [rewrite Hm; simpl; rewrite <- app_assoc; reflexivity|]. split.
    - intros [|[|[|i]]] ? ? Hi; discriminate.
    - intros Hf. exfalso. eapply Hnone; [|exact Hf]. reflexivity. }
  apply request_inv in Hm; [|intros ? ?; repeat case_match; reflexivity].
  simpl is_ok in Hm.
  (* the creation of the image *)
  assert (Hrest : exists rest, log w' = log w1 ++ rest).
  { apply bind_inv in H as [(e & Hm' & _)|([] & w2 & Hm' & H)].
    - destruct (csi.ContentSource req) as [[uid|uid|]|].
      + apply emits_createVolumeFromVolume in Hm' as (rest & Hl & _). eauto.
      + apply emits_createVolumeFromSnapshot in Hm' as (rest & Hl & _). eauto.
      + unfold fail in Hm'. simplify_eq. exists []. rewrite app_nil_r. reflexivity.
      + apply emits_createVolumeFromNothing in Hm' as (rest & Hl & _). eauto.
    - unfold ret in H. simplify_eq.
      destruct (csi.ContentSource req) as [[uid|uid|]|].
      + apply emits_createVolumeFromVolume in Hm' as (rest & Hl & _). eauto.
      + apply emits_createVolumeFromSnapshot in Hm' as (rest & Hl & _). eauto.
      + unfold fail in Hm'. simplify_eq.
      + apply emits_createVolumeFromNothing in Hm' as (rest & Hl & _). eauto. }
  destruct Hrest as [rest Hrest].
  eexists (_ :: _ :: rest). split.
  { rewrite Hrest, Hm. simpl. rewrite <- !app_assoc. reflexivity. }
  split.
  - intros [|[|i]] job ok Hi; try discriminate.
    exists 1%nat, pvcNamespace, pvcName. eexists. split; [lia|]. split; [reflexivity|].
    simpl. apply list_elem_of_singleton. reflexivity.
  - intros Hf. exfalso. eapply Hnone; [|exact Hf]. reflexivity.
Qed.

End create_volume.

(** ** The deletion reaper *)

Module reaper.
Import vocabulary.
Import golang common controller api_facts traces.
Local Open Scope list_scope.



Lemma try_inv {A} (m : M A) w r w' :
  try m w = (r, w') -> exists r0, m w = (r0, w').
Proof.
  unfold try. destruct (m w) as [[e|a] w1]; [destruct e|]; intros ?; simplify_eq; eauto.
Qed.

(** *** The requests of each step *)







(** *** The cleanup sequence *)


(** The run of [processNextItem] up to the deferred [Done]. *)
Lemma then_Done {A} (m : M A) key (b : bool) w r w' :
  (m ;;; queue_op (Done key) ;;; ret b) w = (r, w') ->
  exists r0 w1, m w = (r0, w1) /\ log w' = log w1.
Proof.
  intros H. apply bind_inv in H as [(e & Hm & _)|(a & w1 & Hm & H)].
  - eauto.
  - unfold bind, queue_op, ret in H. simplify_eq. eauto.
Qed.

(** The read at the start of [processNextItem]. *)
Lemma try_pvcs_Get_inv ns name w r w' :
  try (pvcs_Get ns name) w = (r, w') ->
  exists got,
    r = inr got
    /\ w' = logged (PvcGet ns name) (is_ok got) w
    /\ match got with
       | inr pvc => pvcs w !! (ns, name) = Some pvc
       | inl e => answers w (length (log w)) = true -> pvcs w !! (ns, name) = None
       end.
Proof.
  unfold try, pvcs_Get, request, answers.
  destruct (oracle w (length (log w))) as [n|reason].
  - destruct (pvcs w !! (ns, name)) as [pvc|] eqn:Hp; simpl; intros ?; simplify_eq.
    + exists (inr pvc). auto.
    + exists (inl (ApiError NotFound)). auto.
  - simpl. intros ?; simplify_eq. exists (inl (ApiError reason)).
    split; [reflexivity|]. split; [reflexivity|discriminate].
Qed.

Lemma pvcIsStaged_false pvc :
  pvcIsStaged pvc = false <->
  stringListToSet (annot (corev1.Annotations pvc) stagedOnNodesKey) = ∅.
Proof.
  unfold pvcIsStaged. rewrite encoding.stringListToSet_empty_iff.
  rewrite negb_false_iff. apply String.eqb_eq.
Qed.


End reaper.

(** ** The staged-on-nodes encoding and the order of iteration *)

Module codec.
Import vocabulary lifecycle.
Import golang split_facts encoding common.
Local Open Scope list_scope.

Lemma Split_app_sep a b sep :
  Split (a ++ String sep b)%string sep = Split a sep ++ Split b sep.
Proof.
  induction a as [|c a IH].
  - rewrite app_nil_l. simpl. rewrite Ascii.eqb_refl. reflexivity.
  - rewrite app_cons. simpl. rewrite IH.
    destruct (Ascii.eqb c sep); [reflexivity|].
    destruct (Split a sep) as [|f fs] eqn:Hs; [exfalso; eapply Split_not_nil; eauto|].
    reflexivity.
Qed.

Lemma Split_concat_pieces (items : list string) :
  items <> [] ->
  Split (String.concat "," items) "," = flat_map (fun x => Split x ",") items.
Proof.
  induction items as [|x [|y items] IH]; intros Hne; [congruence| |].
  - simpl. rewrite app_nil_r. reflexivity.
  - rewrite concat_cons2.
    change ("," +:+ String.concat "," (y :: items))
      with (String "," (String.concat "," (y :: items))).
    rewrite Split_app_sep, IH by discriminate. reflexivity.
Qed.

Lemma decode_encode_pieces (range : gset string -> list string) (set : gset string) :
  (forall set, range set ≡ₚ elements set) ->
  set <> {[ "" ]} ->
  stringListToSet (setToStringList range set) = comma_pieces set.
Proof.
  intros range_enumerates Hne. unfold setToStringList. rewrite setToStringList_loop_concat.
  assert (Hset : list_to_set (range set) = set)
    by apply (list_to_set_range range range_enumerates).
  apply set_eq. intros y. unfold comma_pieces. rewrite elem_of_set_bind.
  destruct (range set) as [|x items] eqn:Hr.
  - simpl in Hset. subst set. set_solver.
  - rewrite stringListToSet_Split.
    + rewrite Split_concat_pieces by discriminate.
      rewrite elem_of_list_to_set, list_elem_of_In, in_flat_map.
      split; intros (z & Hz & Hy); exists z.
      * rewrite <- list_elem_of_In in Hz, Hy.
        rewrite elem_of_list_to_set. rewrite <- Hset, elem_of_list_to_set. auto.
      * rewrite elem_of_list_to_set in Hy.
        rewrite <- Hset, elem_of_list_to_set in Hz.
        rewrite <- !list_elem_of_In. auto.
    + intros H. apply concat_comma_empty in H as [H|H]; [discriminate|].
      apply Hne. rewrite <- Hset, H. set_solver.
Qed.

Lemma decode_encode_empty_name (range : gset string -> list string) :
  (forall set, range set ≡ₚ elements set) ->
  stringListToSet (setToStringList range {[ "" ]}) = ∅.
Proof.
  intros Hr. unfold setToStringList.
  assert (range {[ "" ]} = [""]) as ->; [|reflexivity].
  apply Permutation_singleton_r. rewrite Hr, elements_singleton. reflexivity.
Qed.

(** X2.  Whatever the order in which Go walks the map, the annotation that
    [setToStringList] writes is read back by [stringListToSet] as the same
    set, for every set of names: it is the set of the names obtained by
    cutting every member at its commas, and no name at all when the only
    member is the empty string. *)
Theorem staged_on_order_independent
    (range range' : gset string -> list string) (set : gset string) :
  (forall set, range set ≡ₚ elements set) ->
  (forall set, range' set ≡ₚ elements set) ->
  stringListToSet (setToStringList range set)
  = stringListToSet (setToStringList range' set)
  /\ stringListToSet (setToStringList range set)
     = (if bool_decide (set = {[ "" ]}) then ∅ else comma_pieces set).
Proof.
  intros Hr Hr'. case_bool_decide as Hs.
  - subst set. rewrite !decode_encode_empty_name by assumption. auto.
  - rewrite !decode_encode_pieces by assumption. auto.
Qed.

End codec.

(** ** Decimal numbers *)

Module decimal.
Import vocabulary.
Import golang split_facts common controller.

Lemma digit_pretty_N_char (d : N) :
  (d < 10)%N -> digit (pretty_N_char d) = Some (Z.of_N d).
Proof.
  intros Hd.
  assert (d = 0 \/ d = 1 \/ d = 2 \/ d = 3 \/ d = 4 \/ d = 5 \/ d = 6 \/ d = 7 \/ d = 8
          \/ d = 9)%N as H by lia.
  repeat (destruct H as [->|H]; [reflexivity|]). subst d. reflexivity.
Qed.

(** Reading the digits that [pretty] has put in front of [s]. *)
Lemma parse_digits_pretty_N_go (x : N) :
  forall acc s, exists n : nat,
    parse_digits acc (pretty_N_go x s) = parse_digits (acc * 10 ^ Z.of_nat n + Z.of_N x) s.
Proof.
  induction (N.lt_wf_0 x) as [x _ IH]. intros acc s.
  destruct (decide (x = 0%N)) as [->|Hx].
  - exists 0%nat. rewrite pretty_N_go_0. f_equal. simpl. lia.
  - rewrite pretty_N_go_step by lia.
    destruct (IH (x `div` 10)%N ltac:(apply N.div_lt; lia) acc
                (String (pretty_N_char (x `mod` 10)) s)) as [n ->].
    exists (S n). simpl parse_digits.
    rewrite digit_pretty_N_char by (apply N.mod_lt; lia).
    f_equal. rewrite Nat2Z.inj_succ, Z.pow_succ_r by lia.
    pose proof (N.div_mod x 10 ltac:(lia)) as Hdm.
    rewrite N2Z.inj_div, N2Z.inj_mod. 
    pose proof (Z.div_mod (Z.of_N x) 10 ltac:(lia)). simpl Z.of_N. lia.
Qed.

(** A positive number is written with a digit first. *)
Lemma pretty_N_go_head (x : N) :
  (0 < x)%N ->
  forall s, exists d rest, (d < 10)%N /\ pretty_N_go x s = String (pretty_N_char d) rest.
Proof.
  induction (N.lt_wf_0 x) as [x _ IH]. intros Hx s.
  rewrite pretty_N_go_step by lia.
  destruct (decide (x `div` 10 = 0)%N) as [->|Hq].
  - rewrite pretty_N_go_0. eexists _, _. split; [|reflexivity]. apply N.mod_lt. lia.
  - apply IH; [apply N.div_lt; lia|apply N.neq_0_lt_0, Hq].
Qed.

Lemma parse_unsigned_pretty_pos (p : positive) :
  parse_unsigned (pretty (N.pos p)) = Some (Z.pos p)
  /\ exists d rest, (d < 10)%N /\ pretty (N.pos p) = String (pretty_N_char d) rest.
Proof.
  unfold pretty, pretty_N. rewrite decide_False by discriminate.
  destruct (pretty_N_go_head (N.pos p) ltac:(lia) "") as (d & rest & Hd & Hs).
  split; [|eauto].
  destruct (parse_digits_pretty_N_go (N.pos p) 0 "") as [n Hn].
  rewrite Hs in *. unfold parse_unsigned. rewrite Hn. reflexivity.
Qed.

(** A text that starts with a digit carries no sign. *)
Lemma ParseInt_unsigned (d : N) (rest : string) :
  (d < 10)%N ->
  ParseInt (String (pretty_N_char d) rest)
  = match parse_unsigned (String (pretty_N_char d) rest) with
    | Some n => if (- 2 ^ 63 <=? n) && (n <? 2 ^ 63) then Some n else None
    | None => None
    end.
Proof.
  intros Hd.
  assert (d = 0 \/ d = 1 \/ d = 2 \/ d = 3 \/ d = 4 \/ d = 5 \/ d = 6 \/ d = 7 \/ d = 8
          \/ d = 9)%N as H by lia.
  repeat (destruct H as [->|H]; [reflexivity|]). subst d. reflexivity.
Qed.

(** [strconv.ParseInt] reads back what [strconv.FormatInt] writes, for the
    numbers of [int64]. *)
Lemma ParseInt_FormatInt (z : Z) :
  ParseInt (FormatInt z) = if (- 2 ^ 63 <=? z) && (z <? 2 ^ 63) then Some z else None.
Proof.
  unfold FormatInt. destruct z as [|p|p].
  - reflexivity.
  - destruct (parse_unsigned_pretty_pos p) as (Hp & d & rest & Hd & Hs).
    change (pretty (Z.pos p)) with (pretty (N.pos p)).
    rewrite Hs, ParseInt_unsigned, <- Hs, Hp by exact Hd.
    reflexivity.
  - destruct (parse_unsigned_pretty_pos p) as (Hp & _).
    change (pretty (Z.neg p)) with ("-" +:+ pretty (N.pos p)).
    rewrite app_cons, app_nil_l. unfold ParseInt.
    rewrite Hp. reflexivity.
Qed.

End decimal.

(** ** Frame rules *)

Module frames.
Import vocabulary invariants.
Import golang common controller api_facts traces.
Local Open Scope list_scope.

(** *** What the monad's operations preserve *)

Section Frame.
Context (R : World -> World -> Prop) `{!Frame R}.

Lemma preserves_ret {A} (a : A) : preserves R (ret a).
Proof. intros w r w' H. unfold ret in H. simplify_eq. apply frame_refl. Qed.

Lemma preserves_fail {A} e : preserves R (@fail A e).
Proof. intros w r w' H. unfold fail in H. simplify_eq. apply frame_refl. Qed.

Lemma preserves_bind {A B} (m : M A) (k : A -> M B) :
  preserves R m -> (forall a, preserves R (k a)) -> preserves R (bind m k).
Proof.
  intros Hm Hk w r w' H.
  apply bind_inv in H as [(e & H & _)|(a & w1 & H & H')].
  - eapply Hm, H.
  - eapply frame_trans; [eapply Hm, H|eapply Hk, H'].
Qed.

Lemma preserves_try {A} (m : M A) : preserves R m -> preserves R (try m).
Proof.
  intros Hm w r w' H. unfold try in H.
  destruct (m w) as [[e|a] w1] eqn:Hmw; [destruct e|]; simplify_eq; eapply Hm, Hmw.
Qed.

Lemma preserves_request {A} c (serve : Z -> World -> (Error + A) * World) :
  (forall n w, R w (serve n w).2) -> preserves R (request c serve).
Proof.
  intros Hserve w r w' H. unfold request in H.
  destruct (oracle w _) as [n|reason].
  - specialize (Hserve n w). destruct (serve n w) as [res w1]. simplify_eq.
    eapply frame_trans; [exact Hserve|apply frame_logged].
  - simplify_eq. apply frame_logged.
Qed.

Lemma preserves_pvcs_Get ns name : preserves R (pvcs_Get ns name).
Proof.
  apply preserves_request. intros n w. destruct (pvcs w !! _); apply frame_refl.
Qed.

Lemma preserves_pvcs_List sel : preserves R (pvcs_List sel).
Proof. apply preserves_request. intros n w. apply frame_refl. Qed.

Lemma preserves_snapshots_List sel : preserves R (snapshots_List sel).
Proof. apply preserves_request. intros n w. apply frame_refl. Qed.

Lemma preserves_jobs_Create job : preserves R (jobs_Create job).
Proof. apply preserves_request. intros n w. apply frame_refl. Qed.

Lemma preserves_jobs_Get ns name : preserves R (jobs_Get ns name).
Proof. apply preserves_request. intros n w. apply frame_refl. Qed.

Lemma preserves_jobs_Delete ns name : preserves R (jobs_Delete ns name).
Proof. apply preserves_request. intros n w. apply frame_refl. Qed.

Lemma preserves_RetryOnConflict steps fn :
  preserves R fn -> preserves R (RetryOnConflict steps fn).
Proof.
  intros Hfn. induction steps as [|steps IH]; simpl.
  - apply preserves_fail.
  - apply preserves_bind; [apply preserves_try, Hfn|].
    intros [e|[]]; [|apply preserves_ret].
    destruct (IsConflict e); [|apply preserves_fail].
    destruct steps; [apply preserves_fail|].
    apply preserves_bind; [apply preserves_ret|]. intros _. exact IH.
Qed.

Lemma preserves_CreateJob config : preserves R (CreateJob config).
Proof.
  unfold CreateJob. apply preserves_bind; [apply preserves_try, preserves_jobs_Create|].
  intros [e|[]]; [|apply preserves_ret].
  destruct (negb (IsAlreadyExists e)); [apply preserves_fail|apply preserves_ret].
Qed.

Lemma preserves_WaitForJobToSucceed fuel jobName jobNamespace :
  preserves R (WaitForJobToSucceed fuel jobName jobNamespace).
Proof.
  induction fuel as [|fuel IH]; simpl; [apply preserves_fail|].
  apply preserves_bind; [apply preserves_jobs_Get|].
  intros succeeded. destruct (0 <? succeeded); [apply preserves_ret|].
  apply preserves_bind; [apply preserves_ret|]. intros _. exact IH.
Qed.

Lemma preserves_DeleteJobSynchronously_loop fuel err jobName jobNamespace :
  preserves R (DeleteJobSynchronously_loop fuel err jobName jobNamespace).
Proof.
  revert err. induction fuel as [|fuel IH]; intros [e|]; simpl;
    try (destruct (IsNotFound e); [apply preserves_ret|apply preserves_fail]);
    try apply preserves_fail.
  apply preserves_bind; [apply preserves_ret|]. intros _.
  apply preserves_bind; [apply preserves_try, preserves_jobs_Get|].
  intros r. apply IH.
Qed.

Lemma preserves_DeleteJobSynchronously fuel jobName jobNamespace :
  preserves R (DeleteJobSynchronously fuel jobName jobNamespace).
Proof.
  unfold DeleteJobSynchronously.
  apply preserves_bind; [apply preserves_try, preserves_jobs_Delete|].
  intros r. apply preserves_DeleteJobSynchronously_loop.
Qed.

End Frame.

(** *** Relations between claims *)

#[export] Instance same_but_annotations_preorder keys : PreOrder (same_but_annotations keys).
Proof.
  split.
  - intros p. split; [destruct p; reflexivity|reflexivity].
  - intros p1 p2 p3 [H1 K1] [H2 K2]. split.
    + destruct p1, p2, p3. unfold corev1.with_Annotations in *. simpl in *. congruence.
    + intros k Hk. rewrite K2, K1 by assumption. reflexivity.
Qed.

#[export] Instance released_preorder : PreOrder released.
Proof.
  split.
  - intros p. split; [destruct p; reflexivity|]. exists 0%nat. reflexivity.
  - intros p1 p2 p3 [H1 [n1 K1]] [H2 [n2 K2]]. split.
    + destruct p1, p2, p3. unfold corev1.with_Finalizers in *. simpl in *. congruence.
    + exists (n2 + n1)%nat. rewrite K2, K1, Nat.iter_add. reflexivity.
Qed.

(** *** Steps of the claim store *)

Section Steps.
Context (Q : Pvc -> Pvc -> Prop) `{!PreOrder Q}.

Lemma steps_same_claims w w' : pvcs w' = pvcs w -> steps Q w w'.
Proof.
  intros H Hk. unfold keyed, evolves. rewrite H. split; [exact Hk|].
  intros key. destruct (pvcs w !! key); constructor. reflexivity.
Qed.

#[export] Instance steps_frame : Frame (steps Q).
Proof.
  split.
  - intros w. apply steps_same_claims. reflexivity.
  - intros w1 w2 w3 H12 H23 Hk.
    destruct (H12 Hk) as [Hk2 E12]. destruct (H23 Hk2) as [Hk3 E23].
    split; [exact Hk3|]. intros key. specialize (E12 key). specialize (E23 key).
    destruct E12; inversion E23; subst; constructor. etrans; eassumption.
  - intros w c ok. apply steps_same_claims. reflexivity.
Qed.

(** A logged request in front does not matter. *)
Lemma steps_logged_l c ok w w' : steps Q (logged c ok w) w' -> steps Q w w'.
Proof. intros H Hk. exact (H Hk). Qed.

(** Writing back a claim that has evolved by [Q] under its own name. *)
Lemma steps_write w key old obj :
  pvcs w !! key = Some old ->
  key = (corev1.Namespace obj, corev1.Name obj) ->
  Q old obj ->
  steps Q w (with_pvcs (<[key := obj]> (pvcs w)) w).
Proof.
  intros Hold Hkey HQ Hk. split.
  - unfold keyed. simpl. apply map_Forall_insert_2; [exact Hkey|exact Hk].
  - intros k. simpl. destruct (decide (k = key)) as [->|Hne].
    + rewrite lookup_insert_eq, Hold. constructor. exact HQ.
    + rewrite lookup_insert_ne by congruence.
      destruct (pvcs w !! k); constructor. reflexivity.
Qed.


(** Writing back, under the name it was read under, a claim that has
    changed by [Q]. *)
Lemma steps_pvcs_Update ns name old obj w r w' :
  pvcs w !! (ns, name) = Some old ->
  corev1.Namespace obj = corev1.Namespace old ->
  corev1.Name obj = corev1.Name old ->
  Q old obj ->
  pvcs_Update obj w = (r, w') ->
  steps Q w w'.
Proof.
  intros Hp Hns Hname HQ H Hk.
  pose proof (Hk _ _ Hp) as Hkey. simpl in Hkey.
  apply pvcs_Update_inv in H. destruct r as [e|[]].
  - destruct H as [-> _]. apply steps_same_claims; [reflexivity|exact Hk].
  - subst w'. rewrite Hns, Hname, <- Hkey.
    eapply (frame_trans (R := steps Q)); [|apply frame_logged|exact Hk].
    eapply steps_write; [exact Hp| |exact HQ].
    rewrite Hns, Hname. exact Hkey.
Qed.

(** A patch that changes the patched claim by [Q]. *)
Lemma preserves_pvcs_Patch ns name patch :
  (forall obj, Q obj (strategic_merge patch obj)) ->
  preserves (steps Q) (pvcs_Patch ns name patch).
Proof.
  intros HQ. apply preserves_request; [apply _|]. intros n w.
  destruct (pvcs w !! (ns, name)) as [obj|] eqn:Hp; [|apply frame_refl].
  intros Hk. pose proof (Hk _ _ Hp) as Hkey. simpl in Hkey. revert Hk.
  eapply steps_write; [exact Hp| |apply HQ].
  destruct obj. exact Hkey.
Qed.

End Steps.

(** Requests about jobs leave the claims alone. *)
#[export] Instance same_claims_frame : Frame same_claims.
Proof.
  split.
  - intros w. reflexivity.
  - intros w1 w2 w3 H12 H23. unfold same_claims in *. congruence.
  - intros w c ok. reflexivity.
Qed.

(** The requests leave the work queue alone. *)
#[export] Instance same_queue_frame : Frame same_queue.
Proof.
  split.
  - intros w. reflexivity.
  - intros w1 w2 w3 H12 H23. unfold same_queue in *. congruence.
  - intros w c ok. reflexivity.
Qed.

Lemma same_queue_pvcs_Update obj : preserves same_queue (pvcs_Update obj).
Proof.
  apply preserves_request; [apply _|]. intros n w. cbv zeta.
  destruct (pvcs w !! _); reflexivity.
Qed.

Lemma same_queue_pvcs_Patch ns name patch : preserves same_queue (pvcs_Patch ns name patch).
Proof.
  apply preserves_request; [apply _|]. intros n w.
  destruct (pvcs w !! _); reflexivity.
Qed.

(** *** The claim helpers *)

Lemma set_annotation_same_but key value keys pvc :
  key ∈ keys -> same_but_annotations keys pvc (set_annotation key value pvc).
Proof.
  intros Hin. split; [destruct pvc; reflexivity|].
  intros k Hk. simpl. apply lookup_insert_ne. intros ->. contradiction.
Qed.

Lemma delete_annotation_same_but key keys pvc :
  key ∈ keys -> same_but_annotations keys pvc (delete_annotation key pvc).
Proof.
  intros Hin. split; [destruct pvc; reflexivity|].
  intros k Hk. simpl. apply lookup_delete_ne. intros ->. contradiction.
Qed.

Lemma preserves_SetPvcStateTo pvcName pvcNamespace newState :
  preserves (steps (same_but_annotations [stateKey]))
    (SetPvcStateTo pvcName pvcNamespace newState).
Proof.
  apply preserves_RetryOnConflict; [apply _|].
  intros w r w' H. unfold SetPvcStateTo_attempt in H.
  apply bind_inv in H as [(e & H & _)|(pvc & w1 & H & H')];
    apply pvcs_Get_inv in H as [-> Hp].
  { apply frame_logged. }
  apply (steps_logged_l _ (PvcGet pvcNamespace pvcName) true).
  unfold fail, ret in H'.
  destruct (corev1.DeletionTimestamp pvc).
  { simplify_eq. apply frame_refl. }
  repeat match type of H' with
         | context [if ?b then _ else _] => destruct b
         end;
    try (simplify_eq; apply frame_refl).
  eapply steps_pvcs_Update; [apply _|exact Hp| | | |exact H']; [reflexivity..|].
  apply set_annotation_same_but. left.
Qed.

Lemma strategic_merge_annotations (annotations : gmap string string) keys obj :
  (forall k, k ∉ keys -> annotations !! k = None) ->
  same_but_annotations keys obj (strategic_merge (patch_of ∅ annotations []) obj).
Proof.
  intros Hkeys. split.
  - destruct obj. unfold strategic_merge, corev1.with_Annotations, corev1.with_Labels,
      corev1.with_Finalizers. simpl. rewrite (left_id_L ∅ (∪)), filter_nil, app_nil_r.
    reflexivity.
  - intros k Hk. simpl. rewrite lookup_union_r by auto. reflexivity.
Qed.

Lemma preserves_SetPvcStateToIdle pvcName pvcNamespace :
  preserves (steps (same_but_annotations [stateKey]))
    (SetPvcStateToIdle pvcName pvcNamespace).
Proof.
  apply preserves_pvcs_Patch; [apply _|].
  intros obj. apply strategic_merge_annotations.
  intros k Hk. apply lookup_singleton_ne. intros <-. apply Hk. left.
Qed.

Section Staging.
Variable range : gset string -> list string.

Lemma preserves_StagePvcOnNode pvcName pvcNamespace nodeName :
  preserves (steps (same_but_annotations [stateKey; stagedOnNodesKey]))
    (StagePvcOnNode range pvcName pvcNamespace nodeName).
Proof.
  apply preserves_RetryOnConflict; [apply _|].
  intros w r w' H. unfold StagePvcOnNode_attempt in H.
  apply bind_inv in H as [(e & H & _)|(pvc & w1 & H & H')];
    apply pvcs_Get_inv in H as [-> Hp].
  { apply frame_logged. }
  apply (steps_logged_l _ (PvcGet pvcNamespace pvcName) true).
  cbv zeta in H'. unfold fail in H'.
  repeat match type of H' with
         | context [if ?b then _ else _] => destruct b
         end;
    try (simplify_eq; apply frame_refl).
  eapply steps_pvcs_Update; [apply _|exact Hp| | | |exact H']; [reflexivity..|].
  etrans; apply set_annotation_same_but; set_solver.
Qed.

Lemma preserves_UnstagePvcFromNode pvcName pvcNamespace nodeName :
  preserves (steps (same_but_annotations [stateKey; stagedOnNodesKey]))
    (UnstagePvcFromNode range pvcName pvcNamespace nodeName).
Proof.
  apply preserves_RetryOnConflict; [apply _|].
  intros w r w' H. unfold UnstagePvcFromNode_attempt in H.
  apply bind_inv in H as [(e & H & _)|(pvc & w1 & H & H')];
    apply pvcs_Get_inv in H as [-> Hp].
  { apply frame_logged. }
  apply (steps_logged_l _ (PvcGet pvcNamespace pvcName) true).
  cbv zeta in H'.
  eapply steps_pvcs_Update; [apply _|exact Hp| | | |exact H'].
  - repeat case_match; reflexivity.
  - repeat case_match; reflexivity.
  - repeat case_match; try reflexivity.
    + etrans; [apply delete_annotation_same_but|apply set_annotation_same_but];
        set_solver.
    + apply set_annotation_same_but. set_solver.
Qed.
End Staging.

End frames.

(** ** State transitions on a stored claim *)

Module transitions.
Import vocabulary lifecycle.
Import golang common controller api_facts state_machine.
Local Open Scope list_scope.

(** *** Single transitions, evaluated *)

Section Stored.
Variables (w : World) (pvcName pvcNamespace : string) (pvc : Pvc).
Hypothesis stored : pvcs w !! (pvcNamespace, pvcName) = Some pvc.
Hypothesis Hns : corev1.Namespace pvc = pvcNamespace.
Hypothesis Hname : corev1.Name pvc = pvcName.
Hypothesis answered : answers w (length (log w)) = true.

Let read := logged (PvcGet pvcNamespace pvcName) true w.

Lemma rewritten_eq obj :
  corev1.Namespace obj = pvcNamespace -> corev1.Name obj = pvcName ->
  rewritten obj w
  = logged (PvcUpdate obj) true (with_pvcs (<[(pvcNamespace, pvcName) := obj]> (pvcs w)) read).
Proof. intros H1 H2. unfold rewritten. simpl. rewrite H1, H2. reflexivity. Qed.

Lemma SetPvcStateTo_from_idle newState :
  corev1.DeletionTimestamp pvc = None ->
  annot (corev1.Annotations pvc) stateKey = "idle" ->
  newState <> "idle" ->
  answers w (S (length (log w))) = true ->
  SetPvcStateTo pvcName pvcNamespace newState w
  = (inr tt, rewritten (set_annotation stateKey newState pvc) w).
Proof.
  intros Hdel Hidle Hne Hupd. unfold SetPvcStateTo, DefaultRetry_Steps.
  apply RetryOnConflict_done.
  unfold SetPvcStateTo_attempt. read_claim. rewrite Hdel, Hidle.
  assert (Hne' : "idle" <> newState) by congruence. eqb_false Hne'.
  rewrite String.eqb_refl.
  erewrite pvcs_Update_stored.
  - rewrite rewritten_eq by (simpl; assumption). simpl. rewrite Hns, Hname. reflexivity.
  - rewrite answers_logged, logged_length. exact Hupd.
  - simpl. rewrite Hns, Hname. exact stored.
Qed.

Lemma SetPvcStateTo_same newState :
  corev1.DeletionTimestamp pvc = None ->
  annot (corev1.Annotations pvc) stateKey = newState ->
  SetPvcStateTo pvcName pvcNamespace newState w = (inr tt, read).
Proof.
  intros Hdel Heq. unfold SetPvcStateTo, DefaultRetry_Steps.
  apply RetryOnConflict_done.
  unfold SetPvcStateTo_attempt. read_claim. rewrite Hdel.
  eqb_true Heq. reflexivity.
Qed.

Lemma SetPvcStateTo_rejects newState :
  corev1.DeletionTimestamp pvc <> None
  \/ (annot (corev1.Annotations pvc) stateKey <> newState
      /\ annot (corev1.Annotations pvc) stateKey <> "idle") ->
  exists msg,
    SetPvcStateTo pvcName pvcNamespace newState w
    = (inl (Status FailedPrecondition msg), read).
Proof.
  intros Hbusy. unfold SetPvcStateTo, DefaultRetry_Steps.
  assert (exists msg, SetPvcStateTo_attempt pvcName pvcNamespace newState w
                      = (inl (Status FailedPrecondition msg), read)) as [msg Hrun].
  { unfold SetPvcStateTo_attempt. read_claim.
    destruct (corev1.DeletionTimestamp pvc) as [t|]; [eexists; reflexivity|].
    destruct Hbusy as [?|[Hne Hidle]]; [contradiction|].
    eqb_false Hne. eqb_false Hidle.
    unfold fail. repeat case_match; eexists; reflexivity. }
  exists msg. apply RetryOnConflict_failed; [exact Hrun|reflexivity].
Qed.

Section Staging.
Variable range : gset string -> list string.

Lemma StagePvcOnNode_ok nodeName :
  corev1.DeletionTimestamp pvc = None ->
  annot (corev1.Annotations pvc) stateKey = "idle"
  \/ annot (corev1.Annotations pvc) stateKey = "staged" ->
  answers w (S (length (log w))) = true ->
  StagePvcOnNode range pvcName pvcNamespace nodeName w
  = (inr tt,
     rewritten
       (set_annotation stagedOnNodesKey
          (setToStringList range ({[nodeName]} ∪ staged_on pvc))
          (set_annotation stateKey "staged" pvc)) w).
Proof.
  intros Hdel Hst Hupd. unfold StagePvcOnNode, DefaultRetry_Steps.
  apply RetryOnConflict_done.
  unfold StagePvcOnNode_attempt. read_claim. rewrite Hdel.
  rewrite bool_decide_false by (intros H; apply H; reflexivity).
  assert (String.eqb (annot (corev1.Annotations pvc) stateKey) "expanding" = false
          /\ String.eqb (annot (corev1.Annotations pvc) stateKey) "snapshotting" = false
          /\ String.eqb (annot (corev1.Annotations pvc) stateKey) "cloning" = false
          /\ negb (String.eqb (annot (corev1.Annotations pvc) stateKey) "idle")
             && negb (String.eqb (annot (corev1.Annotations pvc) stateKey) "staged") = false)
    as (-> & -> & -> & ->) by (destruct Hst as [-> | ->]; repeat split; reflexivity).
  cbv zeta.
  assert (annot (corev1.Annotations (set_annotation stateKey "staged" pvc)) stagedOnNodesKey
          = annot (corev1.Annotations pvc) stagedOnNodesKey) as ->
    by (simpl; apply annot_insert_ne, stateKey_ne_stagedOnNodesKey).
  fold (staged_on pvc).
  erewrite pvcs_Update_stored.
  - rewrite rewritten_eq by (simpl; assumption). simpl. rewrite Hns, Hname. reflexivity.
  - rewrite answers_logged, logged_length. exact Hupd.
  - simpl. rewrite Hns, Hname. exact stored.
Qed.

Lemma StagePvcOnNode_rejects nodeName :
  corev1.DeletionTimestamp pvc <> None
  \/ annot (corev1.Annotations pvc) stateKey ∈ ["expanding"; "snapshotting"; "cloning"] ->
  exists msg,
    StagePvcOnNode range pvcName pvcNamespace nodeName w
    = (inl (Status FailedPrecondition msg), read).
Proof.
  intros Hbusy. unfold StagePvcOnNode, DefaultRetry_Steps.
  assert (exists msg, StagePvcOnNode_attempt range pvcName pvcNamespace nodeName w
                      = (inl (Status FailedPrecondition msg), read)) as [msg Hrun].
  { unfold StagePvcOnNode_attempt. read_claim. cbv zeta.
    case_bool_decide as Hdel; [eexists; reflexivity|].
    destruct Hbusy as [?|Hst]; [contradiction|].
    rewrite !elem_of_cons, elem_of_nil in Hst.
    destruct Hst as [->|[->|[->|[]]]]; eexists; reflexivity. }
  exists msg. apply RetryOnConflict_failed; [exact Hrun|reflexivity].
Qed.

Lemma UnstagePvcFromNode_ok nodeName :
  answers w (S (length (log w))) = true ->
  UnstagePvcFromNode range pvcName pvcNamespace nodeName w
  = (inr tt,
     rewritten
       (if String.eqb (annot (corev1.Annotations pvc) stateKey) "staged" then
          if Nat.eqb (size (staged_on pvc ∖ {[nodeName]})) 0 then
            set_annotation stateKey "idle" (delete_annotation stagedOnNodesKey pvc)
          else
            set_annotation stagedOnNodesKey
              (setToStringList range (staged_on pvc ∖ {[nodeName]})) pvc
        else pvc) w).
Proof.
  intros Hupd. unfold UnstagePvcFromNode, DefaultRetry_Steps.
  apply RetryOnConflict_done.
  unfold UnstagePvcFromNode_attempt. read_claim. cbv zeta. fold (staged_on pvc).
  match goal with |- pvcs_Update ?obj _ = _ => set (obj' := obj) end.
  assert (corev1.Namespace obj' = pvcNamespace /\ corev1.Name obj' = pvcName) as [Hns' Hname'].
  { subst obj'. repeat case_match; simpl; auto. }
  erewrite pvcs_Update_stored.
  - rewrite rewritten_eq by assumption. rewrite Hns', Hname'. reflexivity.
  - rewrite answers_logged, logged_length. exact Hupd.
  - rewrite Hns', Hname'. exact stored.
Qed.

End Staging.
End Stored.


(** *** Sequences of staging requests *)

Lemma rewritten_lookup obj w :
  pvcs (rewritten obj w) !! (corev1.Namespace obj, corev1.Name obj) = Some obj.
Proof. unfold rewritten. simpl. apply lookup_insert_eq. Qed.

Lemma rewritten_answers obj w : answers_from_now w -> answers_from_now (rewritten obj w).
Proof.
  intros H k Hk. unfold rewritten in *. simpl in *. rewrite !length_app in Hk. simpl in Hk.
  apply H. lia.
Qed.

Lemma staged_on_set_state state pvc :
  staged_on (set_annotation stateKey state pvc) = staged_on pvc.
Proof.
  unfold staged_on. simpl. rewrite annot_insert_ne by apply stateKey_ne_stagedOnNodesKey.
  reflexivity.
Qed.

Lemma state_set_staged_on value pvc :
  annot (corev1.Annotations (set_annotation stagedOnNodesKey value pvc)) stateKey
  = annot (corev1.Annotations pvc) stateKey.
Proof.
  simpl. apply annot_insert_ne. intros H. symmetry in H. revert H.
  apply stateKey_ne_stagedOnNodesKey.
Qed.

Section Sequences.
Variable range : gset string -> list string.
Hypothesis range_enumerates : forall set, range set ≡ₚ elements set.

(** Writing a set of proper node names and reading it back. *)
Lemma staged_on_written (nodes : gset string) pvc :
  "" ∉ nodes ->
  (forall x, x ∈ nodes -> has_byte "," x = false) ->
  staged_on (set_annotation stagedOnNodesKey (setToStringList range nodes) pvc) = nodes.
Proof.
  intros Hne Hfree. unfold staged_on. simpl. rewrite annot_insert_eq.
  apply (encoding.decode_encode range range_enumerates); [exact Hfree|].
  intros ->. apply Hne. set_solver.
Qed.

Lemma staged_on_comma_free pvc x : x ∈ staged_on pvc -> has_byte "," x = false.
Proof. apply encoding.stringListToSet_comma_free. Qed.

(** One request of a node, on a claim whose annotations agree. *)
Lemma run_op_step w pvcName pvcNamespace pvc op :
  pvcs w !! (pvcNamespace, pvcName) = Some pvc ->
  corev1.Namespace pvc = pvcNamespace ->
  corev1.Name pvc = pvcName ->
  corev1.DeletionTimestamp pvc = None ->
  well_staged pvc ->
  answers_from_now w ->
  valid_op op ->
  exists pvc',
    run_op range pvcName pvcNamespace op w = (inr tt, rewritten pvc' w)
    /\ corev1.Namespace pvc' = pvcNamespace
    /\ corev1.Name pvc' = pvcName
    /\ corev1.DeletionTimestamp pvc' = None
    /\ well_staged pvc'
    /\ staged_on pvc' = nodes_after [op] (staged_on pvc).
Proof.
  intros Hp Hns Hname Hdel [Hempty Hwell] Hans Hvalid.
  assert (Ha0 : answers w (length (log w)) = true) by (apply Hans; lia).
  assert (Ha1 : answers w (S (length (log w))) = true) by (apply Hans; lia).
  destruct op as [nodeName|nodeName]; simpl.
  - destruct Hvalid as [Hnode Hfree]. eexists. split.
    { apply (StagePvcOnNode_ok w pvcName pvcNamespace pvc Hp Hns Hname Ha0 range nodeName Hdel);
        [|exact Ha1].
      destruct Hwell as [[? _]|[? _]]; auto. }
    assert (Hset : staged_on
                     (set_annotation stagedOnNodesKey
                        (setToStringList range ({[nodeName]} ∪ staged_on pvc))
                        (set_annotation stateKey "staged" pvc))
                   = staged_on pvc ∪ {[nodeName]}).
    { rewrite staged_on_written; [set_solver| |].
      - intros H. apply elem_of_union in H as [H|H]; [|contradiction].
        apply elem_of_singleton in H. congruence.
      - intros x Hx. apply elem_of_union in Hx as [Hx|Hx].
        + apply elem_of_singleton in Hx as ->. exact Hfree.
        + eapply staged_on_comma_free, Hx. }
    split; [exact Hns|]. split; [exact Hname|]. split; [exact Hdel|].
    split; [|exact Hset].
    split; [rewrite Hset; set_solver|].
    right. split; [|rewrite Hset; set_solver].
    rewrite state_set_staged_on. simpl. apply annot_insert_eq.
  - eexists. split.
    { apply (UnstagePvcFromNode_ok w pvcName pvcNamespace pvc Hp Hns Hname Ha0 range nodeName Ha1). }
    destruct Hwell as [[Hidle Hnone]|[Hstaged Hsome]].
    + rewrite Hidle. simpl String.eqb. cbv iota.
      split; [exact Hns|]. split; [exact Hname|]. split; [exact Hdel|].
      split; [split; [exact Hempty|left; auto]|].
      rewrite Hnone. set_solver.
    + rewrite Hstaged, String.eqb_refl.
      destruct (Nat.eqb (size (staged_on pvc ∖ {[nodeName]})) 0) eqn:Hsize.
      * apply Nat.eqb_eq, size_empty_iff in Hsize. apply leibniz_equiv in Hsize.
        assert (Hnone : staged_on (set_annotation stateKey "idle"
                                     (delete_annotation stagedOnNodesKey pvc)) = ∅).
        { rewrite staged_on_set_state. unfold staged_on, annot. simpl.
          rewrite lookup_delete_eq. reflexivity. }
        split; [exact Hns|]. split; [exact Hname|]. split; [exact Hdel|].
        split; [|rewrite Hnone, Hsize; reflexivity].
        split; [rewrite Hnone; set_solver|].
        left. split; [apply annot_insert_eq|exact Hnone].
      * assert (Hrem : staged_on pvc ∖ {[nodeName]} <> ∅).
        { intros H. rewrite H, size_empty in Hsize. discriminate. }
        assert (Hset : staged_on
                         (set_annotation stagedOnNodesKey
                            (setToStringList range (staged_on pvc ∖ {[nodeName]})) pvc)
                       = staged_on pvc ∖ {[nodeName]}).
        { apply staged_on_written; [set_solver|].
          intros x Hx. apply elem_of_difference in Hx as [Hx _].
          eapply staged_on_comma_free, Hx. }
        split; [exact Hns|]. split; [exact Hname|]. split; [exact Hdel|].
        split; [|exact Hset].
        split; [rewrite Hset; set_solver|].
        right. split; [|rewrite Hset; exact Hrem].
        rewrite state_set_staged_on. exact Hstaged.
Qed.

Lemma nodes_after_cons op ops nodes :
  nodes_after (op :: ops) nodes = nodes_after ops (nodes_after [op] nodes).
Proof. reflexivity. Qed.

(** X3.  The staged-on-nodes annotation counts the nodes faithfully.  On a
    claim that is not being deleted and whose state and staged-on
    annotations agree, any sequence of [StagePvcOnNode] and
    [UnstagePvcFromNode] requests (for node names that are non-empty and
    comma-free), each answered by the API server, succeeds and leaves the
    claim with annotations that agree again: the staged-on set is the set
    obtained by adding and removing the nodes in turn, the state is staged
    exactly when that set is not empty, and the reaper's staged check
    agrees with it. *)
Theorem staging_counts_nodes
    (ops : list NodeOp) (w : World) (pvcName pvcNamespace : string) (pvc : Pvc) :
  pvcs w !! (pvcNamespace, pvcName) = Some pvc ->
  corev1.Namespace pvc = pvcNamespace ->
  corev1.Name pvc = pvcName ->
  corev1.DeletionTimestamp pvc = None ->
  well_staged pvc ->
  answers_from_now w ->
  Forall valid_op ops ->
  let run := run_ops range pvcName pvcNamespace ops w in
  run.1 = inr tt
  /\ exists pvc',
       pvcs run.2 !! (pvcNamespace, pvcName) = Some pvc'
       /\ well_staged pvc'
       /\ staged_on pvc' = nodes_after ops (staged_on pvc)
       /\ (annot (corev1.Annotations pvc') stateKey = "staged"
           <-> nodes_after ops (staged_on pvc) <> ∅)
       /\ pvcIsStaged pvc' = bool_decide (nodes_after ops (staged_on pvc) <> ∅).
Proof.
  revert w pvc. induction ops as [|op ops IH];
    intros w pvc Hp Hns Hname Hdel Hwell Hans Hvalid; cbv zeta.
  - simpl. split; [reflexivity|]. exists pvc. split; [exact Hp|].
    split; [exact Hwell|]. split; [reflexivity|].
    destruct Hwell as [_ [[Hidle Hnone]|[Hstaged Hsome]]].
    + split; [rewrite Hidle, Hnone; split; [discriminate|congruence]|].
      rewrite bool_decide_false by (rewrite Hnone; auto).
      apply reaper.pvcIsStaged_false. exact Hnone.
    + split; [tauto|]. rewrite bool_decide_true by exact Hsome.
      apply not_false_iff_true. intros H. apply reaper.pvcIsStaged_false in H.
      contradiction.
  - apply Forall_cons in Hvalid as [Hop Hvalid].
    destruct (run_op_step w pvcName pvcNamespace pvc op Hp Hns Hname Hdel Hwell Hans Hop)
      as (pvc1 & Hrun & Hns1 & Hname1 & Hdel1 & Hwell1 & Hset1).
    simpl run_ops. unfold bind. rewrite Hrun.
    rewrite nodes_after_cons, <- Hset1.
    apply IH; try assumption.
    + rewrite <- Hns1, <- Hname1. apply rewritten_lookup.
    + apply rewritten_answers, Hans.
Qed.
End Sequences.

End transitions.

(** ** The state annotation as a lock *)

Module locking.
Import vocabulary lifecycle.
Import golang common controller api_facts state_machine transitions.
Local Open Scope list_scope.

(** An answered patch of a stored claim. *)
Lemma pvcs_Patch_stored w ns name patch obj :
  answers w (length (log w)) = true ->
  pvcs w !! (ns, name) = Some obj ->
  pvcs_Patch ns name patch w
  = (inr tt, logged (PvcPatch ns name patch) true
               (with_pvcs (<[(ns, name) := strategic_merge patch obj]> (pvcs w)) w)).
Proof.
  intros Ha Hp. apply answers_Answered in Ha as [n Hn].
  unfold pvcs_Patch, request. rewrite Hn, Hp. reflexivity.
Qed.

(** Setting the state of an idle claim and patching it back to idle gives
    the claim back. *)
Lemma strategic_merge_idle state pvc :
  annot (corev1.Annotations pvc) stateKey = "idle" ->
  strategic_merge (patch_of ∅ {[ stateKey := "idle" ]} []) (set_annotation stateKey state pvc)
  = pvc.
Proof.
  intros Hidle. destruct pvc as [name ns uid del labels annotations finalizers].
  unfold strategic_merge, set_annotation, corev1.with_Annotations, corev1.with_Labels,
    corev1.with_Finalizers. simpl in *.
  rewrite (left_id_L ∅ (∪)), filter_nil, app_nil_r. f_equal.
  apply map_eq. intros k. destruct (decide (k = stateKey)) as [->|Hk].
  - rewrite lookup_union_l' by (rewrite lookup_singleton_eq; eauto).
    rewrite lookup_singleton_eq. unfold annot in Hidle.
    destruct (annotations !! stateKey) as [v|]; simpl in Hidle; [congruence|discriminate].
  - rewrite lookup_union_r by (apply lookup_singleton_ne; congruence).
    apply lookup_insert_ne. congruence.
Qed.

Section Stored.
Variables (w : World) (pvcName pvcNamespace : string) (pvc : Pvc).
Hypothesis stored : pvcs w !! (pvcNamespace, pvcName) = Some pvc.
Hypothesis Hns : corev1.Namespace pvc = pvcNamespace.
Hypothesis Hname : corev1.Name pvc = pvcName.
Hypothesis Hdel : corev1.DeletionTimestamp pvc = None.
Hypothesis Hidle : annot (corev1.Annotations pvc) stateKey = "idle".
Hypothesis answered : answers_from_now w.

Lemma answered_at k : answers w (k + length (log w)) = true.
Proof. apply answered. lia. Qed.

(** X4.  The state annotation is a lock.  Once [SetPvcStateTo] has taken
    an idle claim to the state of an operation, every request for another
    state and every staging request is refused with a precondition-failed
    error and leaves the claim as it is, while a repeated request for the
    same state succeeds without writing. *)
Theorem state_is_a_lock (range : gset string -> list string) (state : string) :
  state ∈ ["expanding"; "cloning"; "snapshotting"] ->
  let locked := rewritten (set_annotation stateKey state pvc) w in
  let read := logged (PvcGet pvcNamespace pvcName) true locked in
  SetPvcStateTo pvcName pvcNamespace state w = (inr tt, locked)
  /\ (forall other, other <> state ->
      exists msg,
        SetPvcStateTo pvcName pvcNamespace other locked
        = (inl (Status FailedPrecondition msg), read))
  /\ (forall nodeName,
      exists msg,
        StagePvcOnNode range pvcName pvcNamespace nodeName locked
        = (inl (Status FailedPrecondition msg), read))
  /\ SetPvcStateTo pvcName pvcNamespace state locked = (inr tt, read)
  /\ pvcs read = <[(pvcNamespace, pvcName) := set_annotation stateKey state pvc]> (pvcs w).
Proof.
  intros Hstate locked read.
  assert (Hne : state <> "idle").
  { rewrite !elem_of_cons, elem_of_nil in Hstate.
    destruct Hstate as [->|[->|[->|[]]]]; discriminate. }
  assert (Hlocked : pvcs locked !! (pvcNamespace, pvcName)
                    = Some (set_annotation stateKey state pvc)).
  { subst locked. rewrite <- Hns, <- Hname.
    apply (rewritten_lookup (set_annotation stateKey state pvc)). }
  assert (Hans : answers locked (length (log locked)) = true).
  { apply rewritten_answers; [exact answered|apply Nat.le_refl]. }
  assert (Hlstate : annot (corev1.Annotations (set_annotation stateKey state pvc)) stateKey
                    = state) by apply annot_insert_eq.
  split; [|split; [|split; [|split]]].
  - apply SetPvcStateTo_from_idle; try assumption.
    + apply (answered_at 0).
    + apply (answered_at 1).
  - intros other Hother.
    apply (SetPvcStateTo_rejects locked pvcName pvcNamespace _ Hlocked Hans).
    right. rewrite Hlstate. split; congruence.
  - intros nodeName.
    apply (StagePvcOnNode_rejects locked pvcName pvcNamespace _ Hlocked Hans).
    right. rewrite Hlstate.
    rewrite !elem_of_cons, elem_of_nil in Hstate. rewrite !elem_of_cons.
    tauto.
  - apply (SetPvcStateTo_same locked pvcName pvcNamespace _ Hlocked Hans); [exact Hdel|].
    exact Hlstate.
  - subst read locked. unfold rewritten. simpl. rewrite Hns, Hname. reflexivity.
Qed.

(** X5.  Taking the lock and giving it back restores the claims: after
    [SetPvcStateTo] on an idle claim followed by [SetPvcStateToIdle] the
    stored claims are what they were. *)
Theorem lock_and_release_restores (state : string) :
  state <> "idle" ->
  let run := (SetPvcStateTo pvcName pvcNamespace state ;;;
              SetPvcStateToIdle pvcName pvcNamespace) w in
  run.1 = inr tt /\ pvcs run.2 = pvcs w
  /\ map fst (log run.2)
     = map fst (log w)
       ++ [PvcGet pvcNamespace pvcName;
           PvcUpdate (set_annotation stateKey state pvc);
           PvcPatch pvcNamespace pvcName (patch_of ∅ {[ stateKey := "idle" ]} [])].
Proof.
  intros Hne run. subst run. unfold bind.
  rewrite (SetPvcStateTo_from_idle w pvcName pvcNamespace pvc stored Hns Hname
             (answered_at 0) state Hdel Hidle Hne (answered_at 1)).
  unfold SetPvcStateToIdle, StrategicMergePatchPvc.
  erewrite pvcs_Patch_stored.
  - simpl. split; [reflexivity|]. split.
    + rewrite Hns, Hname, insert_insert_eq, strategic_merge_idle by exact Hidle.
      apply insert_id. exact stored.
    + rewrite Hns, Hname, !map_app, <- !app_assoc. reflexivity.
  - apply rewritten_answers; [exact answered|apply Nat.le_refl].
  - rewrite <- Hns, <- Hname.
    apply (rewritten_lookup (set_annotation stateKey state pvc)).
Qed.

End Stored.

(** *** Conflicts *)

Section Conflicts.
Variables (pvcName pvcNamespace newState : string) (pvc : Pvc).
Hypothesis Hns : corev1.Namespace pvc = pvcNamespace.
Hypothesis Hname : corev1.Name pvc = pvcName.
Hypothesis Hdel : corev1.DeletionTimestamp pvc = None.
Hypothesis Hidle : annot (corev1.Annotations pvc) stateKey = "idle".
Hypothesis Hne : newState <> "idle".

Let pvc' := set_annotation stateKey newState pvc.




End Conflicts.

End locking.

(** ** Waiting for jobs *)

Module jobs.
Import vocabulary lifecycle.
Import golang common controller api_facts traces.
Local Open Scope list_scope.

(** One poll of a job. *)
Lemma jobs_Get_inv ns name w r w' :
  jobs_Get ns name w = (r, w') ->
  w' = logged (JobGet ns name) (is_ok r) w
  /\ match r with
     | inr n => oracle w (length (log w)) = Answered n
     | inl e => exists reason, e = ApiError reason
                               /\ oracle w (length (log w)) = Refused reason
     end.
Proof.
  unfold jobs_Get, request. destruct (oracle w _) as [n|reason];
    intros ?; simplify_eq; eauto.
Qed.

Lemma last_request_logged c ok w : last_request (logged c ok w) = length (log w).
Proof. unfold last_request. rewrite logged_length. reflexivity. Qed.

Lemma WaitForJobToSucceed_inv fuel jobName jobNamespace :
  forall w r w',
    WaitForJobToSucceed fuel jobName jobNamespace w = (r, w') ->
    oracle w' = oracle w /\ pvcs w' = pvcs w
    /\ match r with
       | inr _ =>
           (length (log w) < length (log w'))%nat
           /\ exists n, oracle w (last_request w') = Answered n /\ 0 < n
       | inl e =>
           e = OutOfFuel
           \/ exists reason, e = ApiError reason
                             /\ oracle w (last_request w') = Refused reason
       end.
Proof.
  induction fuel as [|fuel IH]; intros w r w' H; simpl in H.
  - unfold fail in H. simplify_eq. auto.
  - apply bind_inv in H as [(e & H & ->)|(n & w1 & H & H')];
      apply jobs_Get_inv in H as [-> Ho].
    + destruct Ho as (reason & -> & Ho). split; [reflexivity|]. split; [reflexivity|].
      right. exists reason. rewrite last_request_logged. auto.
    + destruct (Z.ltb_spec 0 n) as [Hn|Hn].
      * unfold ret in H'. simplify_eq. split; [reflexivity|]. split; [reflexivity|].
        rewrite last_request_logged, logged_length. split; [lia|eauto].
      * apply bind_inv in H' as [(e & H & _)|([] & w2 & H & H')];
          unfold time_Sleep, ret in H; simplify_eq.
        apply IH in H' as (Hor & Hp & Hr). simpl in Hor, Hp.
        split; [exact Hor|]. split; [exact Hp|].
        destruct r as [e|[]].
        -- exact Hr.
        -- destruct Hr as [Hlen Hr]. rewrite logged_length in Hlen.
           split; [lia|exact Hr].
Qed.

Lemma WaitForJobToSucceed_progress k jobName jobNamespace :
  forall fuel w,
    (k < fuel)%nat ->
    (forall i, (i < k)%nat ->
       exists n, oracle w (length (log w) + i) = Answered n /\ n <= 0) ->
    (exists n, oracle w (length (log w) + k) = Answered n /\ 0 < n) ->
    exists w',
      WaitForJobToSucceed fuel jobName jobNamespace w = (inr tt, w')
      /\ length (log w') = (length (log w) + k + 1)%nat.
Proof.
  induction k as [|k IH]; intros fuel w Hfuel Hwait Hdone;
    (destruct fuel as [|fuel]; [lia|]); simpl; unfold bind, jobs_Get, request.
  - destruct Hdone as (n & Hn & Hpos). rewrite Nat.add_0_r in Hn. rewrite Hn.
    apply Z.ltb_lt in Hpos. rewrite Hpos.
    eexists. split; [reflexivity|]. simpl. rewrite length_app. simpl. lia.
  - destruct (Hwait 0%nat ltac:(lia)) as (n & Hn & Hle). rewrite Nat.add_0_r in Hn.
    rewrite Hn. apply Z.ltb_ge in Hle. rewrite Hle. unfold time_Sleep, ret.
    set (w1 := logged (JobGet jobNamespace jobName) (is_ok (inr n)) w).
    assert (Hlen : length (log w1) = S (length (log w))) by apply logged_length.
    destruct (IH fuel w1) as (w' & Hrun & Hlog).
    + lia.
    + intros i Hi. destruct (Hwait (S i) ltac:(lia)) as (m & Hm & Hle').
      exists m. rewrite Hlen. split; [|exact Hle'].
      replace (S (length (log w)) + i)%nat with (length (log w) + S i)%nat by lia. exact Hm.
    + destruct Hdone as (m & Hm & Hpos). exists m. rewrite Hlen. split; [|exact Hpos].
      replace (S (length (log w)) + k)%nat with (length (log w) + S k)%nat by lia. exact Hm.
    + exists w'. split; [exact Hrun|]. rewrite Hlog, Hlen. lia.
Qed.

(** X7.  [WaitForJobToSucceed] polls the job and nothing else.  It returns
    without error only when the last poll reported a positive number of
    succeeded pods; an error it returns is the refusal of the last poll;
    and when the [k + 1]-th poll is the first to report success, it returns
    without error after exactly [k + 1] polls. *)
Theorem WaitForJobToSucceed_spec (fuel : nat) (jobName jobNamespace : string) (w : World) :
  let run := WaitForJobToSucceed fuel jobName jobNamespace w in
  (exists evs, log run.2 = log w ++ evs
               /\ Forall (fun ev => ev.1 = JobGet jobNamespace jobName) evs)
  /\ pvcs run.2 = pvcs w
  /\ (run.1 = inr tt ->
      (length (log w) < length (log run.2))%nat
      /\ exists n, oracle w (last_request run.2) = Answered n /\ 0 < n)
  /\ (forall e, run.1 = inl e ->
      e = OutOfFuel
      \/ exists reason, e = ApiError reason
                        /\ oracle w (last_request run.2) = Refused reason)
  /\ (forall k,
      (k < fuel)%nat ->
      (forall i, (i < k)%nat ->
         exists n, oracle w (length (log w) + i) = Answered n /\ n <= 0) ->
      (exists n, oracle w (length (log w) + k) = Answered n /\ 0 < n) ->
      run.1 = inr tt /\ length (log run.2) = (length (log w) + k + 1)%nat).
Proof.
  cbv zeta.
  destruct (WaitForJobToSucceed fuel jobName jobNamespace w) as [r w'] eqn:H. simpl.
  pose proof (WaitForJobToSucceed_inv _ _ _ _ _ _ H) as (_ & Hp & Hr).
  split; [|split; [exact Hp|split; [|split]]].
  - eapply (emits_WaitForJobToSucceed (fun ev => ev.1 = JobGet jobNamespace jobName)), H.
    intros ok. reflexivity.
  - intros ->. exact Hr.
  - intros e ->. exact Hr.
  - intros k Hk Hwait Hdone.
    destruct (WaitForJobToSucceed_progress k jobName jobNamespace fuel w Hk Hwait Hdone)
      as (w1 & Hrun & Hlog).
    rewrite H in Hrun. simplify_eq. auto.
Qed.


(** *** Deleting a job and waiting until it is gone *)

Lemma try_jobs_Get_inv ns name w r w' :
  try (jobs_Get ns name) w = (r, w') ->
  exists got,
    r = inr got
    /\ w' = logged (JobGet ns name) (is_ok got) w
    /\ match got with
       | inr n => oracle w (length (log w)) = Answered n
       | inl e => exists reason, e = ApiError reason
                                 /\ oracle w (length (log w)) = Refused reason
       end.
Proof.
  unfold try, jobs_Get, request. destruct (oracle w _) as [n|reason];
    intros ?; simplify_eq; eexists; eauto.
Qed.

Lemma IsNotFound_ApiError reason : IsNotFound (ApiError reason) = true <-> reason = NotFound.
Proof. destruct reason; simpl; split; congruence. Qed.

Lemma DeleteJobSynchronously_loop_inv fuel jobName jobNamespace :
  forall err w r w',
    DeleteJobSynchronously_loop fuel err jobName jobNamespace w = (r, w') ->
    oracle w' = oracle w /\ pvcs w' = pvcs w
    /\ ((exists e, err = Some e /\ w' = w
                   /\ r = if IsNotFound e then inr tt else inl e)
        \/ (err = None
            /\ match r with
               | inr _ =>
                   (length (log w) < length (log w'))%nat
                   /\ oracle w (last_request w') = Refused NotFound
               | inl e =>
                   e = OutOfFuel
                   \/ (length (log w) < length (log w'))%nat
                      /\ exists reason, reason <> NotFound /\ e = ApiError reason
                                        /\ oracle w (last_request w') = Refused reason
               end)).
Proof.
  induction fuel as [|fuel IH]; intros [e0|] w r w' H; simpl in H.
  - split; [|split]; [| |left; exists e0];
      destruct (IsNotFound e0); unfold ret, fail in H; simplify_eq; auto.
  - unfold fail in H. simplify_eq. split; [reflexivity|]. split; [reflexivity|].
    right. split; [reflexivity|]. left. reflexivity.
  - split; [|split]; [| |left; exists e0];
      destruct (IsNotFound e0); unfold ret, fail in H; simplify_eq; auto.
  - apply bind_inv in H as [(e & H & _)|([] & w1 & H & H')];
      unfold time_Sleep, ret in H; simplify_eq.
    apply bind_inv in H' as [(e & H & _)|(got & w2 & H & H')];
      apply try_jobs_Get_inv in H as (got' & Hgot & -> & Ho); [discriminate|].
    apply (inj inr) in Hgot. subst got'.
    apply IH in H' as (Hor & Hp & Hr). simpl in Hor, Hp.
    split; [exact Hor|]. split; [exact Hp|]. right. split; [reflexivity|].
    destruct Hr as [(e & He & -> & ->)|[Hnone Hr]].
    + destruct got as [e'|n]; [|discriminate]. simplify_eq.
      destruct Ho as (reason & -> & Ho).
      rewrite last_request_logged, logged_length.
      destruct (IsNotFound (ApiError reason)) eqn:Hnf.
      * apply IsNotFound_ApiError in Hnf as ->. split; [lia|exact Ho].
      * right. split; [lia|]. exists reason. split; [|auto].
        intros ->. discriminate.
    + rewrite logged_length in Hr. destruct r as [e|[]].
      * destruct Hr as [->|[Hlen Hr]]; [left; reflexivity|].
        right. split; [lia|exact Hr].
      * destruct Hr as [Hlen Hr]. split; [lia|exact Hr].
Qed.

Lemma DeleteJobSynchronously_loop_progress k jobName jobNamespace :
  forall fuel w,
    (k < fuel)%nat ->
    (forall i, (i < k)%nat -> answers w (length (log w) + i) = true) ->
    oracle w (length (log w) + k) = Refused NotFound ->
    exists w',
      DeleteJobSynchronously_loop fuel None jobName jobNamespace w = (inr tt, w')
      /\ length (log w') = (length (log w) + k + 1)%nat.
Proof.
  induction k as [|k IH]; intros fuel w Hfuel Hthere Hgone;
    (destruct fuel as [|fuel]; [lia|]); simpl;
    unfold bind, time_Sleep, ret, try, jobs_Get, request.
  - rewrite Nat.add_0_r in Hgone. rewrite Hgone. simpl.
    destruct fuel; simpl; unfold ret; eexists; (split; [reflexivity|]);
      simpl; rewrite length_app; simpl; lia.
  - pose proof (Hthere 0%nat ltac:(lia)) as Ha. rewrite Nat.add_0_r in Ha.
    apply answers_Answered in Ha as [n Hn]. rewrite Hn. simpl.
    set (w1 := logged (JobGet jobNamespace jobName) true w).
    assert (Hlen : length (log w1) = S (length (log w))) by apply logged_length.
    destruct (IH fuel w1) as (w' & Hrun & Hlog).
    + lia.
    + intros i Hi. rewrite Hlen.
      replace (S (length (log w)) + i)%nat with (length (log w) + S i)%nat by lia.
      apply Hthere. lia.
    + rewrite Hlen.
      replace (S (length (log w)) + k)%nat with (length (log w) + S k)%nat by lia.
      exact Hgone.
    + exists w'. split; [exact Hrun|]. rewrite Hlog, Hlen. lia.
Qed.

(** X8.  [DeleteJobSynchronously] sends the deletion and then polls the
    job.  It returns without error only when the last request, the deletion
    or a poll, was refused because the job does not exist, so a job that is
    already gone is no error; an error it returns is another refusal of the
    last request; and when the job is gone at the [k + 1]-th poll it
    returns without error after the deletion and [k + 1] polls. *)
Theorem DeleteJobSynchronously_spec (fuel : nat) (jobName jobNamespace : string) (w : World) :
  let run := DeleteJobSynchronously fuel jobName jobNamespace w in
  (exists ok evs,
      log run.2 = log w ++ (JobDelete jobNamespace jobName, ok) :: evs
      /\ Forall (fun ev => ev.1 = JobGet jobNamespace jobName) evs)
  /\ pvcs run.2 = pvcs w
  /\ (run.1 = inr tt -> oracle w (last_request run.2) = Refused NotFound)
  /\ (forall e, run.1 = inl e ->
      e = OutOfFuel
      \/ exists reason, reason <> NotFound /\ e = ApiError reason
                        /\ oracle w (last_request run.2) = Refused reason)
  /\ (oracle w (length (log w)) = Refused NotFound ->
      run = (inr tt, logged (JobDelete jobNamespace jobName) false w))
  /\ (forall k,
      (k < fuel)%nat ->
      answers w (length (log w)) = true ->
      (forall i, (i < k)%nat -> answers w (length (log w) + 1 + i) = true) ->
      oracle w (length (log w) + 1 + k) = Refused NotFound ->
      run.1 = inr tt /\ length (log run.2) = (length (log w) + k + 2)%nat).
Proof.
  cbv zeta.
  destruct (DeleteJobSynchronously fuel jobName jobNamespace w) as [r w'] eqn:H. simpl.
  pose proof H as Hrun. unfold DeleteJobSynchronously in H.
  unfold bind, try, jobs_Delete, request in H.
  destruct (oracle w (length (log w))) as [n|reason] eqn:Ho; simpl in H.
  - (* the deletion is accepted *)
    set (w1 := logged (JobDelete jobNamespace jobName) true w) in *.
    assert (Hlen : length (log w1) = S (length (log w))) by apply logged_length.
    pose proof (DeleteJobSynchronously_loop_inv _ _ _ _ _ _ _ H) as (_ & Hp & Hr).
    destruct Hr as [(e & He & _)|[_ Hr]]; [discriminate|].
    split; [|split; [exact Hp|split; [|split; [|split]]]].
    + apply (emits_DeleteJobSynchronously_loop
               (fun ev => ev.1 = JobGet jobNamespace jobName)) in H as (evs & Hl & HP);
        [|intros ok; reflexivity].
      exists true, evs. split; [|exact HP]. rewrite Hl. simpl. rewrite <- app_assoc.
      reflexivity.
    + intros ->. apply Hr.
    + intros e ->. destruct Hr as [->|[_ Hr]]; auto.
    + discriminate.
    + intros k Hk _ Hthere Hgone.
      destruct (DeleteJobSynchronously_loop_progress k jobName jobNamespace fuel w1)
        as (w2 & Hrun2 & Hlog); [exact Hk| | |].
      * intros i Hi. rewrite Hlen.
        replace (S (length (log w)) + i)%nat with (length (log w) + 1 + i)%nat by lia.
        apply Hthere, Hi.
      * rewrite Hlen.
        replace (S (length (log w)) + k)%nat with (length (log w) + 1 + k)%nat by lia.
        exact Hgone.
      * rewrite H in Hrun2. simplify_eq. split; [reflexivity|]. rewrite Hlog, Hlen. lia.
  - (* the deletion is refused *)
    assert (Hw' : w' = logged (JobDelete jobNamespace jobName) false w
                  /\ r = if IsNotFound (ApiError reason) then inr tt
                         else inl (ApiError reason)).
    { destruct fuel; simpl in H; destruct reason; simpl in H; unfold ret, fail in H;
        simplify_eq; auto. }
    destruct Hw' as [-> ->].
    split; [|split; [reflexivity|split; [|split; [|split]]]].
    + exists false, []. split; [reflexivity|constructor].
    + rewrite last_request_logged. destruct reason; simpl; congruence.
    + intros e He. right. exists reason. rewrite last_request_logged.
      destruct reason; simpl in He; simplify_eq; auto.
    + intros ?; simplify_eq. reflexivity.
    + intros k _ Ha. unfold answers in Ha. rewrite Ho in Ha. discriminate.
Qed.

End jobs.

(** ** What the reaper leaves alone *)

Module reaper_frame.
Import vocabulary invariants.
Import golang common controller api_facts traces frames.
Local Open Scope list_scope.








End reaper_frame.

(** ** Expanding a volume *)

Module expansion.
Import vocabulary invariants.
Import golang common controller api_facts traces frames decimal.
Local Open Scope list_scope.

Lemma wrap64_in_int64 z : in_int64 (wrap64 z).
Proof.
  unfold in_int64, wrap64.
  pose proof (Z.mod_pos_bound (z + 2 ^ 63) (2 ^ 64) ltac:(lia)). lia.
Qed.

(** A capacity that [validateCapacity] lets through is an [int64]. *)
Lemma validateCapacity_in_int64 range capacity minCapacity maxCapacity :
  validateCapacity range = (capacity, minCapacity, maxCapacity, None) ->
  in_int64 capacity.
Proof.
  unfold validateCapacity. destruct range as [range|]; [|discriminate].
  repeat case_match; intros ?; simplify_eq. apply wrap64_in_int64.
Qed.

Lemma ParseInt_FormatInt_in_int64 z : in_int64 z -> ParseInt (FormatInt z) = Some z.
Proof.
  intros [H1 H2]. rewrite ParseInt_FormatInt.
  apply Z.leb_le in H1. apply Z.ltb_lt in H2. rewrite H1, H2. reflexivity.
Qed.

(** The lookup of a claim by label returns a stored claim. *)
Lemma FindPvcByLabelSelector_inv sel w r w' :
  FindPvcByLabelSelector sel w = (r, w') ->
  w' = logged (PvcList sel) (match oracle w (length (log w)) with
                             | Answered _ => true | Refused _ => false end) w
  /\ match r with
     | inr pvc => selected sel w = [pvc] /\ exists key, pvcs w !! key = Some pvc
     | inl _ => True
     end.
Proof.
  unfold FindPvcByLabelSelector, bind, pvcs_List, request.
  destruct (oracle w _) as [n|reason]; [|intros ?; simplify_eq; auto].
  fold (selected sel w).
  destruct (selected sel w) as [|pvc [|pvc' rest]] eqn:Hsel; unfold fail, ret;
    intros ?; simplify_eq; split; try reflexivity; try exact I.
  split; [reflexivity|].
  assert (Hin : pvc ∈ selected sel w) by (rewrite Hsel; left).
  unfold selected in Hin. apply list_elem_of_filter in Hin as [_ Hin].
  apply list_elem_of_fmap in Hin as ([key p] & -> & Hin).
  apply elem_of_map_to_list in Hin. eauto.
Qed.

Lemma pvcs_Patch_inv ns name patch w r w' :
  pvcs_Patch ns name patch w = (r, w') ->
  match r with
  | inr _ =>
      exists obj, pvcs w !! (ns, name) = Some obj
                  /\ pvcs w' = <[(ns, name) := strategic_merge patch obj]> (pvcs w)
  | inl _ => pvcs w' = pvcs w
  end.
Proof.
  unfold pvcs_Patch, request. destruct (oracle w _) as [n|reason].
  - destruct (pvcs w !! (ns, name)) as [obj|] eqn:Hp; intros ?; simplify_eq; simpl; eauto.
  - intros ?; simplify_eq. reflexivity.
Qed.

Lemma same_but_annotations_more keys keys' p p' :
  keys ⊆ keys' -> same_but_annotations keys p p' -> same_but_annotations keys' p p'.
Proof. intros Hsub [H1 H2]. split; [exact H1|]. intros k Hk. apply H2. set_solver. Qed.

Lemma stateKey_ne_capacityKey : stateKey <> capacityKey.
Proof. intros H. vm_compute in H. discriminate. Qed.

(** A change of the state annotation alone is no change of the capacity. *)
Lemma state_change_grown p p' : same_but_annotations [stateKey] p p' -> grown p p'.
Proof.
  intros H. split; [eapply same_but_annotations_more, H; set_solver|].
  intros c Hc. exists c. split; [|lia]. rewrite <- Hc. f_equal. unfold annot.
  destruct H as [_ H]. rewrite H; [reflexivity|].
  rewrite list_elem_of_singleton. intros Heq. symmetry in Heq. revert Heq.
  apply stateKey_ne_capacityKey.
Qed.

#[export] Instance grown_preorder : PreOrder grown.
Proof.
  split.
  - intros p. apply state_change_grown. reflexivity.
  - intros p1 p2 p3 [H1 G1] [H2 G2]. split; [etrans; eassumption|].
    intros c Hc. destruct (G1 c Hc) as (c' & Hc' & Hle).
    destruct (G2 c' Hc') as (c'' & Hc'' & Hle'). exists c''. split; [exact Hc''|lia].
Qed.

Lemma steps_state_change_grown w w' :
  steps (same_but_annotations [stateKey]) w w' -> steps grown w w'.
Proof.
  intros H Hk. destruct (H Hk) as [Hk' He]. split; [exact Hk'|].
  intros key. specialize (He key). destruct He; constructor.
  apply state_change_grown. assumption.
Qed.

Ltac state_change_only :=
  repeat first
    [ apply preserves_SetPvcStateTo
    | apply preserves_CreateJob
    | apply preserves_WaitForJobToSucceed
    | apply preserves_DeleteJobSynchronously
    | apply _ ].

(** X10.  Expansion never shrinks a volume.  Under every behaviour of
    the cluster [ControllerExpandVolume] creates and removes no claim and
    changes nothing but state and capacity annotations; a capacity that
    could be read from a claim before can be read from it afterwards and is
    at least as large; and the capacity in a successful response is at
    least the validated request and is the capacity recorded on the
    volume's claim. *)
Theorem ControllerExpandVolume_never_shrinks
    (fuel : nat) (s : ControllerServer) (req : csi.ControllerExpandVolumeRequest) (w : World) :
  keyed w ->
  let run := ControllerExpandVolume fuel s req w in
  keyed run.2
  /\ (forall key, option_Forall2 grown (pvcs w !! key) (pvcs run.2 !! key))
  /\ (forall resp, run.1 = inr resp ->
      (validateCapacity (csi.ExpandCapacityRange req)).1.1.1 <= csi.ExpandCapacityBytes resp
      /\ exists key pvc',
           pvcs run.2 !! key = Some pvc'
           /\ corev1.Labels pvc' !! uidKey = Some (csi.ExpandVolumeId req)
           /\ ParseInt (annot (corev1.Annotations pvc') capacityKey)
              = Some (csi.ExpandCapacityBytes resp)).
Proof.
  intros Hk run. subst run.
  destruct (ControllerExpandVolume fuel s req w) as [r w'] eqn:H. simpl.
  assert (Hsame : forall w0, pvcs w0 = pvcs w -> keyed w0
            /\ forall key, option_Forall2 grown (pvcs w !! key) (pvcs w0 !! key)).
  { intros w0 Hw0. apply (steps_same_claims grown); [exact Hw0|exact Hk]. }
  unfold ControllerExpandVolume in H.
  destruct (String.eqb (csi.ExpandVolumeId req) "").
  { unfold fail in H. injection H as <- <-.
    destruct (Hsame w eq_refl). split; [|split]; [assumption..|discriminate]. }
  apply bind_inv in H as [(e & H & ->)|([capacity maxCapacity] & w0 & H & H')].
  { apply create_volume.validateCapacity_step_inv in H as [Hw _].
    destruct (Hsame w' ltac:(rewrite Hw; reflexivity)).
    split; [|split]; [assumption..|discriminate]. }
  assert (w0 = w /\ exists minCapacity,
            validateCapacity (csi.ExpandCapacityRange req)
            = (capacity, minCapacity, maxCapacity, None)) as [-> [minCapacity Hvalid]].
  { unfold validateCapacity_step in H.
    destruct (validateCapacity (csi.ExpandCapacityRange req)) as [[[c mn] mx] [e|]];
      unfold fail, ret in H; [discriminate|].
    injection H as -> -> ->. eauto. }
  pose proof (validateCapacity_in_int64 _ _ _ _ Hvalid) as Hrange.
  rewrite Hvalid. simpl. clear H.
  apply bind_inv in H' as [(e & H & ->)|(pvc & w1 & H & H')];
    apply FindPvcByLabelSelector_inv in H as [Hw1 Hfound].
  { destruct (Hsame w' ltac:(rewrite Hw1; reflexivity)).
    split; [|split]; [assumption..|discriminate]. }
  destruct Hfound as [Hsel [[ns name] Hp]].
  pose proof (Hk _ _ Hp) as Hkey. simpl in Hkey.
  assert (Huid : corev1.Labels pvc !! uidKey = Some (csi.ExpandVolumeId req)).
  { assert (Hin : pvc ∈ selected (uidKey, csi.ExpandVolumeId req) w) by (rewrite Hsel; left).
    unfold selected in Hin. apply list_elem_of_filter in Hin as [Hin _].
    unfold selects in Hin. apply bool_decide_unpack in Hin. exact Hin. }
  assert (Hp1 : pvcs w1 = pvcs w) by (rewrite Hw1; reflexivity).
  clear Hw1. cbv zeta in H'.
  destruct (ParseInt (annot (corev1.Annotations pvc) capacityKey))
    as [currentCapacity|] eqn:Hparse.
  2:{ unfold fail in H'. injection H' as <- <-.
      destruct (Hsame w1 Hp1). split; [|split]; [assumption..|discriminate]. }
  destruct (negb (maxCapacity =? 0) && (maxCapacity <? currentCapacity)).
  { unfold fail in H'. injection H' as <- <-.
    destruct (Hsame w1 Hp1). split; [|split]; [assumption..|discriminate]. }
  destruct (Z.leb_spec capacity currentCapacity) as [Hle|Hgt].
  { unfold ret in H'. injection H' as <- <-.
    destruct (Hsame w1 Hp1). split; [|split]; [assumption..|].
    intros resp Hresp. injection Hresp as <-. simpl. split; [exact Hle|].
    exists (ns, name), pvc. rewrite Hp1. auto. }
  (* the volume has to grow *)
  assert (Hstart : steps (same_but_annotations [stateKey]) w w1).
  { apply steps_same_claims; [apply _|exact Hp1]. }
  assert (Hdone : forall w2, steps (same_but_annotations [stateKey]) w w2 ->
            keyed w2 /\ forall key, option_Forall2 grown (pvcs w !! key) (pvcs w2 !! key)).
  { intros w2 Hs. apply steps_state_change_grown in Hs. exact (Hs Hk). }
  assert (Hnext : forall {A} (m : M A) wa ra wb,
            steps (same_but_annotations [stateKey]) w wa ->
            preserves (steps (same_but_annotations [stateKey])) m ->
            m wa = (ra, wb) ->
            steps (same_but_annotations [stateKey]) w wb).
  { intros A m wa ra wb Hs Hm Hrun.
    eapply frame_trans; [exact Hs|eapply Hm, Hrun]. }
  apply bind_inv in H' as [(e & H & ->)|([] & w2 & H & H')];
    (eapply Hnext in H; [|exact Hstart|state_change_only]).
  { destruct (Hdone _ H). split; [|split]; [assumption..|discriminate]. }
  clear Hstart. rename H into Hstart.
  apply bind_inv in H' as [(e & H & ->)|([] & w3 & H & H')];
    (eapply Hnext in H; [|exact Hstart|state_change_only]).
  { destruct (Hdone _ H). split; [|split]; [assumption..|discriminate]. }
  clear Hstart. rename H into Hstart.
  apply bind_inv in H' as [(e & H & ->)|([] & w4 & H & H')];
    (eapply Hnext in H; [|exact Hstart|state_change_only]).
  { destruct (Hdone _ H). split; [|split]; [assumption..|discriminate]. }
  clear Hstart. rename H into Hstart.
  apply bind_inv in H' as [(e & H & ->)|([] & w5 & H & H')];
    (eapply Hnext in H; [|exact Hstart|state_change_only]).
  { destruct (Hdone _ H). split; [|split]; [assumption..|discriminate]. }
  clear Hstart. rename H into Hstart.
  (* the patch that records the new capacity *)
  destruct (Hstart Hk) as [Hk5 He5].
  unfold StrategicMergePatchPvc in H'.
  apply bind_inv in H' as [(e & H & ->)|([] & w6 & H & H')];
    apply pvcs_Patch_inv in H.
  { assert (Hend : steps (same_but_annotations [stateKey]) w w').
    { eapply frame_trans; [exact Hstart|].
      apply steps_same_claims; [apply _|exact H]. }
    destruct (Hdone w' Hend). split; [|split]; [assumption..|discriminate]. }
  unfold ret in H'. injection H' as <- <-.
  destruct H as (obj & Hobj & Hw').
  set (patch := patch_of ∅ {[ capacityKey := FormatInt capacity; stateKey := "idle" ]} []) in *.
  pose proof (Hk5 _ _ Hobj) as Hkey5. simpl in Hkey5.
  assert (Hpatched : same_but_annotations [stateKey; capacityKey] obj
                       (strategic_merge patch obj)).
  { apply strategic_merge_annotations. intros k Hk0.
    rewrite !elem_of_cons, elem_of_nil in Hk0.
    rewrite lookup_insert_ne by (intros <-; tauto).
    apply lookup_singleton_ne. intros <-. tauto. }
  assert (Hcap : annot (corev1.Annotations (strategic_merge patch obj)) capacityKey
                 = FormatInt capacity).
  { unfold annot. simpl. erewrite lookup_union_Some_l; [reflexivity|].
    apply lookup_insert_eq. }
  assert (Hold : pvcs w !! (corev1.Namespace pvc, corev1.Name pvc) = Some pvc)
    by (rewrite <- Hkey; exact Hp).
  pose proof (He5 (corev1.Namespace pvc, corev1.Name pvc)) as Hrel.
  rewrite Hold, Hobj in Hrel. inversion Hrel as [? ? Hrel'|]; subst.
  split; [|split].
  - unfold keyed. rewrite Hw'. apply map_Forall_insert_2; [|exact Hk5].
    destruct obj. exact Hkey5.
  - intros key. rewrite Hw'.
    destruct (decide (key = (corev1.Namespace pvc, corev1.Name pvc))) as [->|Hne].
    + rewrite lookup_insert_eq, Hold. constructor. split.
      * etrans; [|exact Hpatched].
        eapply same_but_annotations_more, Hrel'. set_solver.
      * intros c Hc. rewrite Hparse in Hc. simplify_eq.
        exists capacity. rewrite Hcap, ParseInt_FormatInt_in_int64 by exact Hrange.
        split; [reflexivity|lia].
    + rewrite lookup_insert_ne by congruence.
      specialize (He5 key). destruct He5; constructor.
      apply state_change_grown. assumption.
  - intros resp Hresp. injection Hresp as <-. simpl. split; [lia|].
    exists (corev1.Namespace pvc, corev1.Name pvc), (strategic_merge patch obj).
    rewrite Hw', lookup_insert_eq. split; [reflexivity|]. split.
    + simpl. rewrite (left_id_L ∅ (∪)).
      destruct Hrel' as [Hrel' _]. rewrite <- Hrel' in Huid. exact Huid.
    + rewrite Hcap. apply ParseInt_FormatInt_in_int64, Hrange.
Qed.

End expansion.

(** ** Generated names and the capacity record *)

Module naming.
Import vocabulary snapshotting.
Import golang split_facts common controller.
Local Open Scope list_scope.

Lemma append_length (a b : string) :
  String.length (a ++ b)%string = (String.length a + String.length b)%nat.
Proof. induction a as [|c a IH]; [reflexivity|]. rewrite app_cons. simpl. rewrite IH. reflexivity. Qed.

Lemma append_inj_r (a b s : string) : (a ++ s)%string = (b ++ s)%string -> a = b.
Proof.
  revert b. induction a as [|c a IH]; intros [|d b] H.
  - reflexivity.
  - apply (f_equal String.length) in H. rewrite app_nil_l, app_cons in H. simpl in H.
    rewrite append_length in H. lia.
  - apply (f_equal String.length) in H. rewrite app_nil_l, app_cons in H. simpl in H.
    rewrite append_length in H. lia.
  - rewrite !app_cons in H. injection H as -> H. f_equal. apply IH, H.
Qed.

(** X11.  Object names do not collide.  The job names and image paths
    derived from UIDs determine the UID, and the names of creation,
    deletion, expansion and snapshotting jobs are pairwise different
    whatever the UIDs, as are the image paths of volumes and snapshots:
    a job found under a name is the job of that operation on that
    volume. *)
Theorem generated_names_distinct (uid uid' : string) :
  (GenerateCreationJobName uid = GenerateCreationJobName uid' -> uid = uid')
  /\ (GenerateDeletionJobName uid = GenerateDeletionJobName uid' -> uid = uid')
  /\ (GenerateExpansionJobName uid = GenerateExpansionJobName uid' -> uid = uid')
  /\ (GenerateSnapshottingJobName uid = GenerateSnapshottingJobName uid' -> uid = uid')
  /\ (GenerateVolumeImagePath uid = GenerateVolumeImagePath uid' -> uid = uid')
  /\ (GenerateSnapshotImagePath uid = GenerateSnapshotImagePath uid' -> uid = uid')
  /\ NoDup [GenerateCreationJobName uid; GenerateDeletionJobName uid';
            GenerateExpansionJobName uid; GenerateSnapshottingJobName uid']
  /\ NoDup [GenerateCreationJobName uid'; GenerateDeletionJobName uid;
            GenerateExpansionJobName uid'; GenerateSnapshottingJobName uid]
  /\ GenerateCreationJobName uid <> GenerateExpansionJobName uid'
  /\ GenerateDeletionJobName uid <> GenerateSnapshottingJobName uid'
  /\ GenerateVolumeImagePath uid <> GenerateSnapshotImagePath uid'.
Proof.
  unfold GenerateCreationJobName, GenerateDeletionJobName, GenerateExpansionJobName,
    GenerateSnapshottingJobName, GenerateVolumeImagePath, GenerateSnapshotImagePath.
  repeat split.
  1-4: apply String.app_inj.
  1-2: intros H; apply String.app_inj in H; eapply append_inj_r, H.
  1-2: repeat constructor; rewrite ?elem_of_cons, ?elem_of_nil;
       intros H; repeat destruct H as [H|H]; try contradiction;
       vm_compute in H; discriminate.
  all: intros H; vm_compute in H; discriminate.
Qed.

End naming.

Module records.
Import vocabulary invariants.
Import golang common controller api_facts traces frames decimal expansion.
Local Open Scope list_scope.

(** X12.  The decimal records are read back as written.  [ParseInt]
    returns every [int64] that [FormatInt] has written and rejects the
    decimal text of any other integer; hence the capacity that
    [CreateVolume] puts on a claim, and the capacity with which
    [ControllerExpandVolume] replaces it, are read back as the same
    number by the next RPC. *)
Theorem capacity_record_round_trip (capacity : Z) :
  ParseInt (FormatInt capacity)
  = (if (- 2 ^ 63 <=? capacity) && (capacity <? 2 ^ 63) then Some capacity else None)
  /\ forall range minCapacity maxCapacity,
       validateCapacity range = (capacity, minCapacity, maxCapacity, None) ->
       (forall pvc backingPvcName backingPvcNamespace backingPvcBasePath obj,
          ParseInt (annot (corev1.Annotations
                             (strategic_merge
                                (creation_patch pvc backingPvcName backingPvcNamespace
                                   backingPvcBasePath capacity) obj)) capacityKey)
          = Some capacity)
       /\ (forall obj,
          ParseInt (annot (corev1.Annotations
                             (strategic_merge
                                (patch_of ∅ {[ capacityKey := FormatInt capacity;
                                               stateKey := "idle" ]} []) obj)) capacityKey)
          = Some capacity).
Proof.
  split; [apply ParseInt_FormatInt|].
  intros range minCapacity maxCapacity Hvalid.
  apply validateCapacity_in_int64 in Hvalid.
  split; intros; unfold annot; simpl.
  - erewrite lookup_union_Some_l; [apply ParseInt_FormatInt_in_int64, Hvalid|].
    rewrite !lookup_insert_ne by (intros H; vm_compute in H; discriminate).
    apply lookup_insert_eq.
  - erewrite lookup_union_Some_l; [apply ParseInt_FormatInt_in_int64, Hvalid|].
    apply lookup_insert_eq.
Qed.

Section Helpers.
Variable range : gset string -> list string.

(** X13.  The claim helpers touch their own annotations only.  Under
    every behaviour of the API server, conflicts and retries included,
    [SetPvcStateTo] and [SetPvcStateToIdle] create and remove no claim and
    change nothing but the state annotation, and [StagePvcOnNode] and
    [UnstagePvcFromNode] nothing but the state and staged-on-nodes
    annotations. *)
Theorem claim_helpers_frame (w : World) (pvcName pvcNamespace : string) :
  keyed w ->
  (forall newState,
     let run := SetPvcStateTo pvcName pvcNamespace newState w in
     keyed run.2 /\ evolves (same_but_annotations [stateKey]) w run.2)
  /\ (let run := SetPvcStateToIdle pvcName pvcNamespace w in
      keyed run.2 /\ evolves (same_but_annotations [stateKey]) w run.2)
  /\ (forall nodeName,
      let run := StagePvcOnNode range pvcName pvcNamespace nodeName w in
      keyed run.2 /\ evolves (same_but_annotations [stateKey; stagedOnNodesKey]) w run.2)
  /\ (forall nodeName,
      let run := UnstagePvcFromNode range pvcName pvcNamespace nodeName w in
      keyed run.2 /\ evolves (same_but_annotations [stateKey; stagedOnNodesKey]) w run.2).
Proof.
  intros Hk. cbv zeta. repeat split.
  all: match goal with
       | |- context [snd (?m ?w0)] => destruct (m w0) as [r w'] eqn:H
       end; simpl.
  all: first [ apply preserves_SetPvcStateTo in H
             | apply preserves_SetPvcStateToIdle in H
             | apply preserves_StagePvcOnNode in H
             | apply preserves_UnstagePvcFromNode in H ];
       apply (H Hk).
Qed.
End Helpers.

End records.

(** ** Creating and cloning volumes *)

Module volumes.
Import vocabulary invariants lifecycle.
Import golang common controller api_facts traces rpc frames transitions locking expansion.
Local Open Scope list_scope.

(** X14.  A busy volume is left alone.  When the claim of the source
    volume is being deleted, or is in a state other than idle and other
    than the state of the operation itself (staged, say), a clone and an
    expansion that has to grow the volume are refused with a
    precondition-failed error after the lookup and the read of the claim:
    nothing is written and no job is created. *)
Theorem busy_volume_rejected
    (fuel : nat) (s : ControllerServer) (w : World) (uid : string) (pvc : Pvc) :
  answers w (length (log w)) = true ->
  answers w (S (length (log w))) = true ->
  selected (uidKey, uid) w = [pvc] ->
  pvcs w !! (corev1.Namespace pvc, corev1.Name pvc) = Some pvc ->
  let refused :=
    logged (PvcGet (corev1.Namespace pvc) (corev1.Name pvc)) true
      (logged (PvcList (uidKey, uid)) true w) in
  (busy_for "cloning" pvc ->
   forall backingPvcName backingPvcNamespace backingPvcBasePath destPvc capacity maxCapacity,
   exists msg,
     createVolumeFromVolume fuel s backingPvcName backingPvcNamespace backingPvcBasePath
       destPvc capacity maxCapacity uid w
     = (inl (Status FailedPrecondition msg), refused))
  /\ (busy_for "expanding" pvc ->
      forall req capacity minCapacity maxCapacity currentCapacity,
      csi.ExpandVolumeId req = uid -> uid <> "" ->
      validateCapacity (csi.ExpandCapacityRange req)
      = (capacity, minCapacity, maxCapacity, None) ->
      ParseInt (annot (corev1.Annotations pvc) capacityKey) = Some currentCapacity ->
      currentCapacity < capacity ->
      maxCapacity = 0 \/ currentCapacity <= maxCapacity ->
      exists msg,
        ControllerExpandVolume fuel s req w
        = (inl (Status FailedPrecondition msg), refused)).
Proof.
  intros Ha0 Ha1 Hsel Hp refused.
  assert (Hset : forall operation, busy_for operation pvc ->
            exists msg,
              SetPvcStateTo (corev1.Name pvc) (corev1.Namespace pvc) operation
                (logged (PvcList (uidKey, uid)) true w)
              = (inl (Status FailedPrecondition msg), refused)).
  { intros operation Hbusy.
    apply (SetPvcStateTo_rejects (logged (PvcList (uidKey, uid)) true w) _ _ pvc);
      [exact Hp|rewrite answers_logged, logged_length; exact Ha1|exact Hbusy]. }
  split.
  - intros Hbusy bn bns bp destPvc capacity maxCapacity.
    destruct (Hset _ Hbusy) as [msg Hrun]. exists msg.
    unfold createVolumeFromVolume.
    unfold bind at 1. erewrite FindPvcByLabelSelector_found by eassumption.
    unfold bind at 1. rewrite Hrun. reflexivity.
  - intros Hbusy req capacity minCapacity maxCapacity currentCapacity <- Hid Hvalid Hparse
      Hgrow Hmax.
    destruct (Hset _ Hbusy) as [msg Hrun]. exists msg.
    unfold ControllerExpandVolume. apply String.eqb_neq in Hid. rewrite Hid.
    unfold bind at 1. erewrite validateCapacity_step_ok by exact Hvalid.
    unfold bind at 1. erewrite FindPvcByLabelSelector_found by eassumption.
    rewrite Hparse.
    assert (negb (maxCapacity =? 0) && (maxCapacity <? currentCapacity) = false) as ->.
    { destruct Hmax as [-> | Hmax]; [reflexivity|].
      apply andb_false_iff. right. apply Z.ltb_ge. exact Hmax. }
    apply Z.leb_gt in Hgrow. rewrite Hgrow.
    unfold bind at 1. rewrite Hrun. reflexivity.
Qed.


(** *** Creation of the image *)

Ltac state_frame :=
  repeat first
    [ apply preserves_ret
    | apply preserves_fail
    | apply preserves_pvcs_List
    | apply preserves_snapshots_List
    | apply preserves_SetPvcStateTo
    | apply preserves_SetPvcStateToIdle
    | apply preserves_CreateJob
    | apply preserves_WaitForJobToSucceed
    | apply preserves_DeleteJobSynchronously
    | match goal with
      | |- preserves _ (match ?x with _ => _ end) => destruct x
      | |- preserves _ (let _ := _ in _) => cbv zeta
      end
    | apply preserves_bind; [apply _| |intros ?]
    | apply _ ].

Lemma preserves_createVolumeFromNothing fuel s bn bns bp pvc capacity :
  preserves (steps (same_but_annotations [stateKey]))
    (createVolumeFromNothing fuel s bn bns bp pvc capacity).
Proof. unfold createVolumeFromNothing. state_frame. Qed.

Lemma preserves_createVolumeFromVolume fuel s bn bns bp pvc capacity maxCapacity uid :
  preserves (steps (same_but_annotations [stateKey]))
    (createVolumeFromVolume fuel s bn bns bp pvc capacity maxCapacity uid).
Proof. unfold createVolumeFromVolume, FindPvcByLabelSelector. state_frame. Qed.

Lemma preserves_createVolumeFromSnapshot fuel s bn bns bp pvc capacity maxCapacity uid :
  preserves (steps (same_but_annotations [stateKey]))
    (createVolumeFromSnapshot fuel s bn bns bp pvc capacity maxCapacity uid).
Proof. unfold createVolumeFromSnapshot, FindVolumeSnapshotByLabelSelector. state_frame. Qed.

Lemma annot_strategic_merge_idle obj :
  annot (corev1.Annotations
           (strategic_merge (patch_of ∅ {[ stateKey := "idle" ]} []) obj)) stateKey = "idle".
Proof.
  unfold annot. simpl. erewrite lookup_union_Some_l; [reflexivity|apply lookup_singleton_eq].
Qed.



(** *** The finalizer of a new volume *)

Lemma requests_since_app w w' evs : log w' = log w ++ evs -> requests_since w w' = evs.
Proof. intros H. unfold requests_since. rewrite H. apply drop_app_length. Qed.

Lemma pvcHasFinalizer_elem_of pvc :
  cleanupFinalizer ∈ corev1.Finalizers pvc -> pvcHasFinalizer pvc = true.
Proof.
  intros H. unfold pvcHasFinalizer. apply existsb_exists.
  exists cleanupFinalizer. split; [apply list_elem_of_In, H|apply String.eqb_refl].
Qed.

Lemma creation_patch_merged pvc bn bns bp capacity obj :
  let merged := strategic_merge (creation_patch pvc bn bns bp capacity) obj in
  cleanupFinalizer ∈ corev1.Finalizers merged
  /\ corev1.Labels merged !! uidKey = Some (corev1.UID pvc)
  /\ corev1.UID merged = corev1.UID obj
  /\ corev1.Namespace merged = corev1.Namespace obj
  /\ corev1.Name merged = corev1.Name obj.
Proof.
  cbv zeta. simpl. split; [|split; [|auto]].
  - destruct (decide (cleanupFinalizer ∈ corev1.Finalizers obj)) as [Hin|Hout].
    + apply elem_of_app. left. exact Hin.
    + apply elem_of_app. right. rewrite filter_cons_True by exact Hout. left.
  - erewrite lookup_union_Some_l; [reflexivity|apply lookup_singleton_eq].
Qed.

(** X16.  A volume for which a job was created keeps its finalizer.
    Under every behaviour of the cluster, when [CreateVolume] has asked for
    a job, or has returned without error, the claim of the new volume
    carries the cleanup finalizer and its uid label when the RPC returns,
    whatever happened to the job: the reaper's test for the finalizer
    succeeds on it. *)
Theorem CreateVolume_finalizer_stays
    (fuel : nat) (s : ControllerServer) (req : csi.CreateVolumeRequest) (w : World) :
  keyed w ->
  let run := CreateVolume fuel s req w in
  let key := (annot (csi.Parameters req) "csi.storage.k8s.io/pvc/namespace",
              annot (csi.Parameters req) "csi.storage.k8s.io/pvc/name") in
  (exists job ok, (JobCreate job, ok) ∈ requests_since w run.2) \/ is_ok run.1 = true ->
  keyed run.2
  /\ exists pvc',
       pvcs run.2 !! key = Some pvc'
       /\ pvcHasFinalizer pvc' = true
       /\ corev1.Labels pvc' !! uidKey = Some (corev1.UID pvc').
Proof.
  intros Hk run key. subst run.
  destruct (CreateVolume fuel s req w) as [r w'] eqn:H. simpl.
  assert (Hnone : forall evs, log w' = log w ++ evs -> is_ok r = false ->
            Forall (fun ev => forall job, ev.1 <> JobCreate job) evs ->
            (exists job ok, (JobCreate job, ok) ∈ requests_since w w') \/ is_ok r = true ->
            False).
  { intros evs Hl Hr Hevs [(job & ok & Hin)|Hok]; [|congruence].
    rewrite (requests_since_app _ _ _ Hl) in Hin.
    rewrite Forall_forall in Hevs. exact (Hevs _ Hin job eq_refl). }
  unfold CreateVolume in H.
  apply bind_inv in H as [(e & Hm & ->)|(pvcName & w1 & Hm & H)];
    apply create_volume.getParameter_inv in Hm as [-> [[Hp1 Hr]|[Hp1 Hr]]];
    simpl in Hr; try discriminate.
  { intros Hjob. exfalso. apply (Hnone []); [symmetry; apply app_nil_r|reflexivity|constructor|exact Hjob]. }
  apply (inj inr) in Hr. clear Hp1.
  apply bind_inv in H as [(e & Hm & ->)|(pvcNamespace & w1 & Hm & H)];
    apply create_volume.getParameter_inv in Hm as [-> [[Hp2 Hr2]|[Hp2 Hr2]]];
    simpl in Hr2; try discriminate.
  { intros Hjob. exfalso. apply (Hnone []); [symmetry; apply app_nil_r|reflexivity|constructor|exact Hjob]. }
  apply (inj inr) in Hr2. clear Hp2.
  apply bind_inv in H as [(e & Hm & ->)|(backingPvcName & w1 & Hm & H)];
    apply create_volume.getParameter_inv in Hm as [-> [[Hp3 Hr3]|[Hp3 Hr3]]];
    simpl in Hr3; try discriminate.
  { intros Hjob. exfalso. apply (Hnone []); [symmetry; apply app_nil_r|reflexivity|constructor|exact Hjob]. }
  clear Hr3 Hp3.
  apply bind_inv in H as [(e & Hm & ->)|(backingPvcNamespace & w1 & Hm & H)];
    apply create_volume.getParameter_inv in Hm as [-> [[Hp4 Hr4]|[Hp4 Hr4]]];
    simpl in Hr4; try discriminate.
  { intros Hjob. exfalso. apply (Hnone []); [symmetry; apply app_nil_r|reflexivity|constructor|exact Hjob]. }
  clear Hr4 Hp4. cbv zeta in H.
  assert (Hkey : key = (pvcNamespace, pvcName)) by (subst key; congruence).
  clearbody key. subst key. clear Hr Hr2.
  (* the read of the claim *)
  apply bind_inv in H as [(e & Hm & ->)|(pvc & w1 & Hm & H)];
    apply pvcs_Get_inv in Hm as [Hw1 Hp].
  { intros Hjob. exfalso. apply (Hnone [(PvcGet pvcNamespace pvcName, false)]);
      [rewrite Hw1; reflexivity|reflexivity| |exact Hjob].
    repeat constructor. intros job. discriminate. }
  simpl in Hw1.
  assert (Hread : Forall (fun ev : Call * bool => forall job, ev.1 <> JobCreate job)
                    [(PvcGet pvcNamespace pvcName, true)])
    by (repeat constructor; intros job; discriminate).
  apply bind_inv in H as [(e & Hm & ->)|([capacity maxCapacity] & w2 & Hm & H)];
    apply create_volume.validateCapacity_step_inv in Hm as [-> _].
  { intros Hjob. exfalso. apply (Hnone [(PvcGet pvcNamespace pvcName, true)]);
      [rewrite Hw1; reflexivity|reflexivity|exact Hread|exact Hjob]. }
  apply bind_inv in H as [(e & Hm & ->)|([] & w2 & Hm & H)];
    apply create_volume.check_capabilities_inv in Hm as [-> _].
  { intros Hjob. exfalso. apply (Hnone [(PvcGet pvcNamespace pvcName, true)]);
      [rewrite Hw1; reflexivity|reflexivity|exact Hread|exact Hjob]. }
  (* the patch *)
  unfold StrategicMergePatchPvc in H.
  apply bind_inv in H as [(e & Hm & ->)|([] & w2 & Hm & H)].
  { apply request_inv in Hm; [|intros ? ?; repeat case_match; reflexivity].
    intros Hjob. exfalso. eapply (Hnone [_; _]);
      [rewrite Hm, Hw1; simpl; rewrite <- app_assoc; reflexivity|reflexivity| |exact Hjob].
    repeat constructor; intros job; discriminate. }
  intros _.
  apply pvcs_Patch_inv in Hm as (obj & Hobj & Hw2).
  assert (obj = pvc) as -> by (rewrite Hw1 in Hobj; simpl in Hobj; congruence).
  set (merged := strategic_merge
                   (creation_patch pvc backingPvcName backingPvcNamespace
                      (annot (csi.Parameters req) "basePath") capacity) pvc) in *.
  destruct (creation_patch_merged pvc backingPvcName backingPvcNamespace
              (annot (csi.Parameters req) "basePath") capacity pvc)
    as (Hfin & Hlabel & Huid & Hns & Hname).
  fold merged in Hfin, Hlabel, Huid, Hns, Hname.
  assert (Hk2 : keyed w2).
  { unfold keyed. rewrite Hw2, Hw1. simpl. apply map_Forall_insert_2; [|exact Hk].
    rewrite Hns, Hname. exact (Hk _ _ Hp). }
  (* the creation of the image *)
  assert (Hrest : steps (same_but_annotations [stateKey]) w2 w').
  { apply bind_inv in H as [(e & Hm' & _)|([] & w3 & Hm' & H)].
    - destruct (csi.ContentSource req) as [[uid|uid|]|].
      + eapply preserves_createVolumeFromVolume, Hm'.
      + eapply preserves_createVolumeFromSnapshot, Hm'.
      + unfold fail in Hm'. injection Hm' as _ <-.
        apply frame_refl.
      + eapply preserves_createVolumeFromNothing, Hm'.
    - unfold ret in H. injection H as _ <-.
      destruct (csi.ContentSource req) as [[uid|uid|]|].
      + eapply preserves_createVolumeFromVolume, Hm'.
      + eapply preserves_createVolumeFromSnapshot, Hm'.
      + unfold fail in Hm'. discriminate.
      + eapply preserves_createVolumeFromNothing, Hm'. }
  destruct (Hrest Hk2) as [Hk' He'].
  split; [exact Hk'|].
  specialize (He' (pvcNamespace, pvcName)). rewrite Hw2, lookup_insert_eq in He'.
  inversion He' as [? pvc' [Hrel _] Heq1 Heq2|]; subst.
  exists pvc'. split; [reflexivity|].
  assert (corev1.Finalizers pvc' = corev1.Finalizers merged
          /\ corev1.Labels pvc' = corev1.Labels merged
          /\ corev1.UID pvc' = corev1.UID merged) as (Hf & Hl & Hu).
  { rewrite <- Hrel. destruct pvc'. auto. }
  split.
  - apply pvcHasFinalizer_elem_of. rewrite Hf. exact Hfin.
  - rewrite Hl, Hu, Huid. exact Hlabel.
Qed.

End volumes.

(** ** The work queue *)

Module work_queue.
Import vocabulary invariants lifecycle monitor.
Import golang common controller api_facts traces split_facts frames volumes reaper.
Local Open Scope list_scope.

(** *** Errors and the requests behind them *)

Lemma requests_since_trans w w1 w' evs1 evs2 ev :
  log w1 = log w ++ evs1 -> log w' = log w1 ++ evs2 ->
  ev ∈ requests_since w1 w' -> ev ∈ requests_since w w'.
Proof.
  intros H1 H2 Hin. rewrite (requests_since_app _ _ _ H2) in Hin.
  rewrite (requests_since_app w w' (evs1 ++ evs2)) by (rewrite H2, H1, app_assoc; reflexivity).
  apply elem_of_app. right. exact Hin.
Qed.

Lemma requests_since_first w w1 w' evs1 evs2 ev :
  log w1 = log w ++ evs1 -> log w' = log w1 ++ evs2 ->
  ev ∈ requests_since w w1 -> ev ∈ requests_since w w'.
Proof.
  intros H1 H2 Hin. rewrite (requests_since_app _ _ _ H1) in Hin.
  rewrite (requests_since_app w w' (evs1 ++ evs2)) by (rewrite H2, H1, app_assoc; reflexivity).
  apply elem_of_app. left. exact Hin.
Qed.

Lemma blames_request_bind {A B} (m : M A) (k : A -> M B) :
  emits any_event m -> (forall a, emits any_event (k a)) ->
  blames_request m -> (forall a, blames_request (k a)) ->
  blames_request (bind m k).
Proof.
  intros Em Ek Hm Hk w e w' H.
  apply bind_inv in H as [(e0 & H & Heq)|(a & w1 & H & H')].
  - simplify_eq. eapply Hm, H.
  - destruct (Hk a _ _ _ H') as [->|[c Hc]]; [auto|]. right. exists c.
    destruct (Em _ _ _ H) as (evs1 & H1 & _). destruct (Ek a _ _ _ H') as (evs2 & H2 & _).
    eapply requests_since_trans; eassumption.
Qed.

Lemma blames_request_request {A} c (serve : Z -> World -> (Error + A) * World) :
  (forall n w0, log (snd (serve n w0)) = log w0) ->
  blames_request (request c serve).
Proof.
  intros Hserve w e w' H. apply request_inv in H; [|exact Hserve].
  right. exists c. rewrite (requests_since_app _ _ _ H). left.
Qed.

Lemma blames_request_CreateJob config : blames_request (CreateJob config).
Proof.
  intros w e w' H. right. exists (JobCreate (job_of config)).
  pose proof (CreateJob_inv _ _ _ _ H) as [ok Hl].
  rewrite (requests_since_app _ _ _ Hl).
  assert (ok = false) as ->; [|left].
  unfold CreateJob, bind, try, jobs_Create, request in H. cbv zeta in H.
  destruct (oracle w _) as [n|reason]; simpl in H.
  - unfold ret in H. discriminate.
  - destruct reason; simpl in H; unfold fail, ret in H; simplify_eq;
      simpl in Hl; apply app_inv_head in Hl; congruence.
Qed.

Lemma blames_request_WaitForJobToSucceed fuel jobName jobNamespace :
  blames_request (WaitForJobToSucceed fuel jobName jobNamespace).
Proof.
  induction fuel as [|fuel IH]; simpl.
  - intros w e w' H. unfold fail in H. simplify_eq. auto.
  - apply blames_request_bind.
    + apply emits_jobs_Get. intros; exact I.
    + intros n. destruct (0 <? n); [apply emits_ret|].
      apply emits_bind; [apply emits_ret|]. intros _.
      apply emits_WaitForJobToSucceed. intros; exact I.
    + apply blames_request_request. intros; reflexivity.
    + intros n. destruct (0 <? n).
      * intros w e w' H. unfold ret in H. discriminate.
      * intros w e w' H. unfold bind, time_Sleep, ret in H. eapply IH, H.
Qed.

Lemma DeleteJobSynchronously_loop_blames fuel jobName jobNamespace :
  forall err w e w',
    DeleteJobSynchronously_loop fuel err jobName jobNamespace w = (inl e, w') ->
    e = OutOfFuel \/ (err = Some e /\ w' = w) \/ exists c, (c, false) ∈ requests_since w w'.
Proof.
  induction fuel as [|fuel IH]; intros [e0|] w e w' H; simpl in H.
  - destruct (IsNotFound e0); unfold ret, fail in H; simplify_eq. auto.
  - unfold fail in H. simplify_eq. auto.
  - destruct (IsNotFound e0); unfold ret, fail in H; simplify_eq. auto.
  - unfold bind at 1, time_Sleep, ret in H.
    apply bind_inv in H as [(e1 & H & _)|(got & w1 & H & H')].
    + unfold try, jobs_Get, request in H. destruct (oracle w _); simpl in H; discriminate.
    + assert (Hl : log w1 = log w ++ [(JobGet jobNamespace jobName,
                                       match got with inr _ => true | inl _ => false end)]).
      { unfold try, jobs_Get, request in H.
        destruct (oracle w _); simpl in H; simplify_eq; reflexivity. }
      pose proof (emits_DeleteJobSynchronously_loop any_event fuel
                    (match got with inl e => Some e | inr _ => None end)
                    jobName jobNamespace ltac:(intros; exact I) _ _ _ H')
        as (evs2 & Hl2 & _).
      apply IH in H' as [->|[[Herr ->]|[c Hc]]]; [auto| |].
      * right. right. destruct got as [e1|n]; [|discriminate].
        exists (JobGet jobNamespace jobName).
        rewrite (requests_since_app _ _ _ Hl). left.
      * right. right. exists c. eapply requests_since_trans; eassumption.
Qed.

Lemma blames_request_DeleteJobSynchronously fuel jobName jobNamespace :
  blames_request (DeleteJobSynchronously fuel jobName jobNamespace).
Proof.
  intros w e w' H. unfold DeleteJobSynchronously in H.
  apply bind_inv in H as [(e1 & H & _)|(got & w1 & H & H')].
  - unfold try, jobs_Delete, request in H. destruct (oracle w _); simpl in H; discriminate.
  - assert (Hl : log w1 = log w ++ [(JobDelete jobNamespace jobName,
                                     match got with inr _ => true | inl _ => false end)]).
    { unfold try, jobs_Delete, request in H.
      destruct (oracle w _); simpl in H; simplify_eq; reflexivity. }
    pose proof (emits_DeleteJobSynchronously_loop any_event fuel
                  (match got with inl e => Some e | inr _ => None end)
                  jobName jobNamespace ltac:(intros; exact I) _ _ _ H')
      as (evs2 & Hl2 & _).
    apply DeleteJobSynchronously_loop_blames in H' as [->|[[Herr ->]|[c Hc]]]; [auto| |].
    + right. destruct got as [e1|n]; [|discriminate].
      exists (JobDelete jobNamespace jobName).
      rewrite (requests_since_app _ _ _ Hl). left.
    + right. exists c. eapply requests_since_trans; eassumption.
Qed.

Lemma blames_request_dropFinalizer_attempt pvc : blames_request (dropFinalizer_attempt pvc).
Proof.
  unfold dropFinalizer_attempt. apply blames_request_bind.
  - apply emits_pvcs_Get. intros; exact I.
  - intros got. apply emits_pvcs_Update. intros; exact I.
  - apply blames_request_request. intros; repeat case_match; reflexivity.
  - intros got. apply blames_request_request. intros; cbv zeta; repeat case_match; reflexivity.
Qed.

Lemma blames_request_RetryOnConflict steps fn :
  emits any_event fn -> blames_request fn ->
  blames_request (RetryOnConflict (S steps) fn).
Proof.
  intros Efn Hfn w e w'.
  apply (RetryOnConflict_failure_ind
           (fun w e w' => (exists evs, log w' = log w ++ evs)
                          /\ (e = OutOfFuel \/ exists c, (c, false) ∈ requests_since w w'))).
  - intros w0 e0 w0' H. split; [|eapply Hfn, H].
    destruct (Efn _ _ _ H) as (evs & Hl & _). eauto.
  - intros w0 e0 w1 e1 w0' H [[evs2 Hl2] Hr].
    destruct (Efn _ _ _ H) as (evs1 & Hl1 & _).
    split; [exists (evs1 ++ evs2); rewrite Hl2, Hl1, app_assoc; reflexivity|].
    destruct Hr as [->|[c Hc]]; [auto|]. right. exists c.
    eapply requests_since_trans; eassumption.
Qed.

Lemma emits_dropFinalizer pvc :
  emits any_event (RetryOnConflict DefaultRetry_Steps (dropFinalizer_attempt pvc)).
Proof.
  apply emits_RetryOnConflict. unfold dropFinalizer_attempt.
  apply emits_bind; [apply emits_pvcs_Get; intros; exact I|].
  intros got. apply emits_pvcs_Update. intros; exact I.
Qed.

Lemma emits_deleteVolume fuel c pvc : emits any_event (deleteVolume fuel c pvc).
Proof.
  unfold deleteVolume. cbv zeta.
  repeat first
    [ apply emits_DeleteJobSynchronously; intros; exact I
    | apply emits_CreateJob; intros; exact I
    | apply emits_WaitForJobToSucceed; intros; exact I
    | apply emits_dropFinalizer
    | apply emits_bind; [|intros ?] ].
Qed.

Lemma blames_request_deleteVolume fuel c pvc : blames_request (deleteVolume fuel c pvc).
Proof.
  unfold deleteVolume, DefaultRetry_Steps. cbv zeta.
  repeat first
    [ apply blames_request_DeleteJobSynchronously
    | apply blames_request_CreateJob
    | apply blames_request_WaitForJobToSucceed
    | apply blames_request_RetryOnConflict
    | apply blames_request_dropFinalizer_attempt
    | apply emits_DeleteJobSynchronously; intros; exact I
    | apply emits_CreateJob; intros; exact I
    | apply emits_WaitForJobToSucceed; intros; exact I
    | apply (emits_dropFinalizer pvc)
    | apply emits_pvcs_Get; intros; exact I
    | apply emits_pvcs_Update; intros; exact I
    | apply blames_request_bind; [|intros ?| |intros ?]
    | apply emits_bind; [|intros ?] ].
Qed.


(** *** The work queue *)

Lemma queue_op_inv op w r w' :
  queue_op op w = (r, w') -> r = inr tt /\ w' = with_queue (queue w ++ [op]) w.
Proof. unfold queue_op. intros ?; simplify_eq. auto. Qed.

(** The read at the start of [processNextItem], case by case. *)
Lemma try_pvcs_Get_cases ns name w :
  try (pvcs_Get ns name) w
  = match oracle w (length (log w)) with
    | Refused reason => (inr (inl (ApiError reason)), logged (PvcGet ns name) false w)
    | Answered _ =>
        match pvcs w !! (ns, name) with
        | Some pvc => (inr (inr pvc), logged (PvcGet ns name) true w)
        | None => (inr (inl (ApiError NotFound)), logged (PvcGet ns name) false w)
        end
    end.
Proof.
  unfold try, pvcs_Get, request. destruct (oracle w _) as [n|reason]; [|reflexivity].
  destruct (pvcs w !! (ns, name)); reflexivity.
Qed.

Lemma same_queue_deleteVolume fuel c pvc : preserves same_queue (deleteVolume fuel c pvc).
Proof.
  unfold deleteVolume, dropFinalizer_attempt. cbv zeta.
  repeat first
    [ apply preserves_DeleteJobSynchronously
    | apply preserves_CreateJob
    | apply preserves_WaitForJobToSucceed
    | apply preserves_RetryOnConflict
    | apply preserves_pvcs_Get
    | apply same_queue_pvcs_Update
    | apply preserves_bind; [apply _| |intros ?]
    | apply _ ].
Qed.

(** What the body of [processNextItem] does before the deferred [Done]. *)
Lemma processNextItem_decision fuel c key w r w' :
  (match SplitMetaNamespaceKey key with
   | inl err => queue_op (AddRateLimited key)
   | inr (pvcNamespace, pvcName) =>
       r <- try (pvcs_Get pvcNamespace pvcName) ;;
       match r with
       | inl err =>
           if negb (IsNotFound err) then queue_op (AddRateLimited key)
           else queue_op (Forget key)
       | inr pvc =>
           if negb (pvcIsStaged pvc) && pvcHasFinalizer pvc then
             r <- try (deleteVolume fuel c pvc) ;;
             match r with
             | inl err => queue_op (AddRateLimited key)
             | inr _ => queue_op (Forget key)
             end
           else queue_op (Forget key)
       end
   end) w = (inr r, w') ->
  exists op,
    queue w' = queue w ++ [op]
    /\ (op = Forget key \/ op = AddRateLimited key)
    /\ (op = AddRateLimited key ->
        is_ok (SplitMetaNamespaceKey key) = false
        \/ exists c, (c, false) ∈ requests_since w w')
    /\ (forall ns name,
        SplitMetaNamespaceKey key = inr (ns, name) ->
        answers w (length (log w)) = true ->
        pvcs w !! (ns, name) = None ->
        op = Forget key /\ requests_since w w' = [(PvcGet ns name, false)]).
Proof.
  destruct (SplitMetaNamespaceKey key) as [err|[pvcNamespace pvcName]] eqn:Hsplit.
  { intros H. apply queue_op_inv in H as [_ ->]. exists (AddRateLimited key).
    split; [reflexivity|]. split; [auto|]. split; [auto|]. intros ? ? ?; discriminate. }
  unfold bind at 1. rewrite try_pvcs_Get_cases. unfold answers.
  assert (Hsince : forall w2, log w2 = log (logged (PvcGet pvcNamespace pvcName) false w) ->
            requests_since w w2 = [(PvcGet pvcNamespace pvcName, false)]).
  { intros w2 Hl. apply requests_since_app. rewrite Hl. reflexivity. }
  destruct (oracle w (length (log w))) as [n|reason].
  - destruct (pvcs w !! (pvcNamespace, pvcName)) as [pvc|] eqn:Hp.
    + (* the claim is there *)
      destruct (negb (pvcIsStaged pvc) && pvcHasFinalizer pvc).
      * intros H.
        apply bind_inv in H as [(e & Hm & ?)|(res & w1 & Hm & H)]; [discriminate|].
        set (w0 := logged (PvcGet pvcNamespace pvcName) true w) in *.
        apply try_inv in Hm as Hdel. destruct Hdel as [r0 Hdel].
        pose proof (same_queue_deleteVolume _ _ _ _ _ _ Hdel) as Hq.
        unfold same_queue in Hq. change (queue w0) with (queue w) in Hq.
        pose proof (emits_deleteVolume _ _ _ _ _ _ Hdel) as (evs & Hl & _).
        destruct res as [err|[]]; apply queue_op_inv in H as [_ ->]; simpl; rewrite Hq.
        -- exists (AddRateLimited key). split; [reflexivity|]. split; [auto|]. split.
           ++ intros _. right.
              assert (r0 = inl err) as ->.
              { unfold try in Hm. rewrite Hdel in Hm.
                destruct r0 as [[]|]; simplify_eq; reflexivity. }
              destruct (blames_request_deleteVolume _ _ _ _ _ _ Hdel) as [->|[call Hc]].
              { unfold try in Hm. rewrite Hdel in Hm. discriminate. }
              exists call.
              eapply (requests_since_trans w w0); [reflexivity|exact Hl|exact Hc].
           ++ intros ns name ? _ Hnone. simplify_eq.
        -- exists (Forget key). split; [reflexivity|]. split; [auto|].
           split; [discriminate|]. intros ns name ? _ Hnone. simplify_eq.
      * intros H. apply queue_op_inv in H as [_ ->]. exists (Forget key).
        split; [reflexivity|]. split; [auto|]. split; [discriminate|].
        intros ns name ? _ Hnone. simplify_eq.
    + (* the claim is gone *)
      simpl. intros H. apply queue_op_inv in H as [_ ->]. exists (Forget key).
      split; [reflexivity|]. split; [auto|]. split; [discriminate|].
      intros ns name ? _ _. simplify_eq. split; [reflexivity|]. apply Hsince. reflexivity.
  - (* the read is refused *)
    destruct (IsNotFound (ApiError reason)); simpl; intros H;
      apply queue_op_inv in H as [_ ->].
    + exists (Forget key). split; [reflexivity|]. split; [auto|]. split; [discriminate|].
      intros ns name ? ?; discriminate.
    + exists (AddRateLimited key). split; [reflexivity|]. split; [auto|]. split.
      * intros _. right. exists (PvcGet pvcNamespace pvcName).
        rewrite Hsince by reflexivity. left.
      * intros ns name ? ?; discriminate.
Qed.

(** A pass of [processNextItem] that returns. *)
Lemma processNextItem_inv fuel c key w continue w' :
  processNextItem fuel c key false w = (inr continue, w') ->
  continue = true
  /\ exists op,
       queue w' = queue w ++ [op; Done key]
       /\ (op = Forget key \/ op = AddRateLimited key)
       /\ (op = AddRateLimited key ->
           is_ok (SplitMetaNamespaceKey key) = false
           \/ exists call, (call, false) ∈ requests_since w w')
       /\ (forall ns name,
           SplitMetaNamespaceKey key = inr (ns, name) ->
           answers w (length (log w)) = true ->
           pvcs w !! (ns, name) = None ->
           op = Forget key /\ requests_since w w' = [(PvcGet ns name, false)]).
Proof.
  intros H. unfold processNextItem in H.
  apply bind_inv in H as [(e & Hm & ?)|([] & w1 & Hm & H)]; [discriminate|].
  apply processNextItem_decision in Hm as (op & Hq & Hop & Hwhy & Hgone).
  unfold bind, queue_op, ret in H. simplify_eq. split; [reflexivity|].
  exists op. simpl. rewrite Hq, <- app_assoc. split; [reflexivity|].
  split; [exact Hop|]. split; [exact Hwhy|exact Hgone].
Qed.

(** X17.  The discipline of the work queue.  When the queue has shut
    down, [processNextItem] returns false and touches nothing.  Otherwise,
    whenever it returns, it returns true and has added two operations to
    the queue: the key is either forgotten or added again with rate
    limiting, and then marked done.  The key is added again only when it is
    malformed or a request has failed; a key whose claim no longer exists
    is forgotten after the one read. *)
Theorem processNextItem_queue_discipline
    (fuel : nat) (c : pvcDeletionController) (key : string) (w : World) :
  processNextItem fuel c key true w = (inr false, w)
  /\ let run := processNextItem fuel c key false w in
     forall continue, run.1 = inr continue ->
       continue = true
       /\ exists op,
            queue run.2 = queue w ++ [op; Done key]
            /\ (op = Forget key \/ op = AddRateLimited key)
            /\ (op = AddRateLimited key ->
                is_ok (SplitMetaNamespaceKey key) = false
                \/ exists call, (call, false) ∈ requests_since w run.2)
            /\ (forall ns name,
                SplitMetaNamespaceKey key = inr (ns, name) ->
                answers w (length (log w)) = true ->
                pvcs w !! (ns, name) = None ->
                op = Forget key /\ requests_since w run.2 = [(PvcGet ns name, false)]).
Proof.
  split; [reflexivity|]. cbv zeta.
  destruct (processNextItem fuel c key false w) as [r w'] eqn:H. simpl.
  intros continue ->. apply (processNextItem_inv fuel c), H.
Qed.

Lemma runWorker_inv fuel c gets :
  forall w w',
    runWorker fuel c gets w = (inr tt, w') ->
    (exists key, (key, true) ∈ gets)
    /\ exists ops,
         queue w' = queue w ++ ops
         /\ marked_done ops = taken gets
         /\ length ops = (2 * length (taken gets))%nat.
Proof.
  induction gets as [|[key shutdown] gets IH]; intros w w' H; simpl in H.
  - unfold fail in H. discriminate.
  - apply bind_inv in H as [(e & Hm & ?)|(continue & w1 & Hm & H)]; [discriminate|].
    destruct shutdown.
    + unfold processNextItem, ret in Hm. simplify_eq. unfold ret in H. simplify_eq.
      split; [exists key; left|]. exists []. rewrite app_nil_r. auto.
    + apply (processNextItem_inv fuel c key) in Hm as (-> & op & Hq & Hop & _).
      apply IH in H as ([key' Hin] & ops & Hq' & Hdone & Hlen).
      split; [exists key'; right; exact Hin|].
      exists ([op; Done key] ++ ops). rewrite Hq', Hq, <- app_assoc.
      split; [reflexivity|]. split.
      * simpl. rewrite Hdone. destruct Hop as [-> | ->]; reflexivity.
      * simpl. rewrite Hlen. lia.
Qed.

(** X18.  A worker marks every key it takes done, once and in order.
    When [runWorker] returns, the queue has shut down, and the worker has
    added two operations to the queue for each key it took before that,
    the second of which marks the key done. *)
Theorem runWorker_marks_keys_done
    (fuel : nat) (c : pvcDeletionController) (gets : list (string * bool)) (w : World) :
  let run := runWorker fuel c gets w in
  run.1 = inr tt ->
  (exists key, (key, true) ∈ gets)
  /\ marked_done (queue_since w run.2) = taken gets
  /\ length (queue_since w run.2) = (2 * length (taken gets))%nat.
Proof.
  cbv zeta. destruct (runWorker fuel c gets w) as [r w'] eqn:H. simpl. intros ->.
  apply runWorker_inv in H as (Hshut & ops & Hq & Hdone & Hlen).
  split; [exact Hshut|]. unfold queue_since. rewrite Hq, drop_app_length. auto.
Qed.

(** *** Keys *)

Lemma SplitMetaNamespaceKey_of_names (ns name : string) :
  has_byte "/" ns = false -> has_byte "/" name = false ->
  SplitMetaNamespaceKey (if negb (String.eqb ns "") then ns ++ "/" ++ name else name)%string
  = inr (ns, name).
Proof.
  intros Hns Hname. unfold SplitMetaNamespaceKey.
  destruct (String.eqb_spec ns "") as [->|Hne]; simpl negb; cbv iota.
  - rewrite Split_without_sep by exact Hname. reflexivity.
  - change ("/" +:+ name) with (String "/" name).
    rewrite Split_field_then_sep by exact Hns.
    rewrite Split_without_sep by exact Hname. reflexivity.
Qed.

(** X19.  The key that the event handlers put on the queue names the
    claim.  The handlers enqueue a claim exactly when its deletion
    timestamp is set; for a claim whose namespace and name hold no slash
    the key is split by [processNextItem] into that namespace and name,
    and the first request of the pass is the read of this claim. *)
Theorem enqueued_key_names_the_claim (oldObj pvc : Pvc) :
  has_byte "/" (corev1.Namespace pvc) = false ->
  has_byte "/" (corev1.Name pvc) = false ->
  UpdateFunc oldObj pvc = AddFunc pvc
  /\ (corev1.DeletionTimestamp pvc = None -> AddFunc pvc = [])
  /\ (corev1.DeletionTimestamp pvc <> None ->
      exists key,
        AddFunc pvc = [key]
        /\ SplitMetaNamespaceKey key = inr (corev1.Namespace pvc, corev1.Name pvc)
        /\ forall fuel c w,
             exists ok evs,
               requests_since w (processNextItem fuel c key false w).2
               = (PvcGet (corev1.Namespace pvc) (corev1.Name pvc), ok) :: evs).
Proof.
  intros Hns Hname. split; [reflexivity|]. split.
  - intros Hdel. unfold AddFunc. cbv zeta. rewrite Hdel. reflexivity.
  - intros Hdel. unfold AddFunc, MetaNamespaceKeyFunc. cbv zeta.
    destruct (corev1.DeletionTimestamp pvc) as [t|]; [|contradiction].
    eexists. split; [reflexivity|].
    pose proof (SplitMetaNamespaceKey_of_names _ _ Hns Hname) as Hsplit.
    split; [exact Hsplit|].
    intros fuel c w.
    match goal with |- context [processNextItem fuel c ?k false w] => set (key := k) in * end.
    destruct (processNextItem fuel c key false w) as [r w'] eqn:H. simpl.
    unfold processNextItem in H. apply then_Done in H as (r0 & w1 & H & Hl).
    rewrite Hsplit in H.
    apply bind_inv in H as [(e & Hm & ->)|(res & w2 & Hm & H)];
      apply try_pvcs_Get_inv in Hm as (got & Hres & Hw & _); [discriminate|].
    assert (exists evs, log w1 = log w2 ++ evs) as [evs Hevs].
    { destruct res as [err|claim].
      - destruct (negb (IsNotFound err)); apply queue_op_inv in H as [_ ->];
          exists []; rewrite app_nil_r; reflexivity.
      - destruct (negb (pvcIsStaged claim) && pvcHasFinalizer claim).
        + apply bind_inv in H as [(e & Hm & _)|(res' & w3 & Hm & H)].
          * apply try_inv in Hm as [r1 Hm].
            apply emits_deleteVolume in Hm as (evs & Hevs & _). eauto.
          * apply try_inv in Hm as [r1 Hm].
            apply emits_deleteVolume in Hm as (evs & Hevs & _).
            exists evs. destruct res'; apply queue_op_inv in H as [_ ->]; exact Hevs.
        + apply queue_op_inv in H as [_ ->]. exists []. rewrite app_nil_r. reflexivity. }
    exists (is_ok got), evs. apply requests_since_app.
    rewrite Hl, Hevs, Hw. simpl. rewrite <- app_assoc. reflexivity.
Qed.

End work_queue.

(** ** Cleaning up once *)

Module cleanup_once.
Import vocabulary invariants lifecycle monitor.
Import golang common controller api_facts traces split_facts frames volumes reaper work_queue.
Local Open Scope list_scope.




End cleanup_once.

(** ** Taking a snapshot *)

Module snapshot_rpc.
Import vocabulary invariants lifecycle.
Import golang common controller snapshotting.
Import api_facts traces rpc frames transitions locking expansion decimal volumes.
Local Open Scope list_scope.

#[export] Instance same_snapshots_frame : Frame same_snapshots.
Proof.
  split.
  - intros w. reflexivity.
  - intros w1 w2 w3 H12 H23. unfold same_snapshots in *. congruence.
  - intros w c ok. reflexivity.
Qed.

Lemma same_snapshots_pvcs_Update obj : preserves same_snapshots (pvcs_Update obj).
Proof.
  apply preserves_request; [apply _|]. intros n w. cbv zeta.
  destruct (pvcs w !! _); reflexivity.
Qed.

Lemma same_snapshots_pvcs_Patch ns name patch :
  preserves same_snapshots (pvcs_Patch ns name patch).
Proof.
  apply preserves_request; [apply _|]. intros n w.
  destruct (pvcs w !! _); reflexivity.
Qed.

Ltac snapshots_frame :=
  repeat first
    [ apply preserves_ret
    | apply preserves_fail
    | apply preserves_pvcs_Get
    | apply preserves_pvcs_List
    | apply same_snapshots_pvcs_Update
    | apply same_snapshots_pvcs_Patch
    | apply preserves_RetryOnConflict
    | apply preserves_CreateJob
    | apply preserves_WaitForJobToSucceed
    | apply preserves_DeleteJobSynchronously
    | match goal with
      | |- preserves _ (match ?x with _ => _ end) => destruct x
      | |- preserves _ (let _ := _ in _) => cbv zeta
      end
    | apply preserves_bind; [apply _| |intros ?]
    | apply _ ].

Lemma same_snapshots_SetPvcStateTo pvcName pvcNamespace newState :
  preserves same_snapshots (SetPvcStateTo pvcName pvcNamespace newState).
Proof. unfold SetPvcStateTo, SetPvcStateTo_attempt. snapshots_frame. Qed.

Lemma same_snapshots_SetPvcStateToIdle pvcName pvcNamespace :
  preserves same_snapshots (SetPvcStateToIdle pvcName pvcNamespace).
Proof. unfold SetPvcStateToIdle, StrategicMergePatchPvc. snapshots_frame. Qed.

(** The requests about the snapshot object. *)
Lemma snapshots_Get_inv answer ns name w r w' :
  snapshots_Get answer ns name w = (r, w') ->
  w' = w
  /\ match r with
     | inr volumeSnapshot => snapshots w !! (ns, name) = Some volumeSnapshot
     | inl _ => True
     end.
Proof.
  unfold snapshots_Get. destruct answer; [destruct (snapshots w !! _) eqn:Hs|];
    intros ?; simplify_eq; auto.
Qed.

Lemma snapshots_Patch_inv answer ns name patch w r w' :
  snapshots_Patch answer ns name patch w = (r, w') ->
  pvcs w' = pvcs w /\ log w' = log w /\ oracle w' = oracle w
  /\ match r with
     | inr _ =>
         exists obj, snapshots w !! (ns, name) = Some obj
                     /\ snapshots w' = <[(ns, name) := merge_patch patch obj]> (snapshots w)
     | inl _ => w' = w
     end.
Proof.
  unfold snapshots_Patch. destruct answer; [destruct (snapshots w !! _) eqn:Hs|];
    intros ?; simplify_eq; simpl; eauto 10.
Qed.

(** What [ParseInt] returns is an [int64]. *)
Lemma ParseInt_in_int64 s n : ParseInt s = Some n -> in_int64 n.
Proof.
  unfold ParseInt.
  match goal with |- context [match ?signed with Some _ => _ | None => _ end = _] =>
    destruct signed as [m|]; [|discriminate] end.
  destruct ((- 2 ^ 63 <=? m) && (m <? 2 ^ 63)) eqn:Hr; [|discriminate].
  intros ?; simplify_eq. apply andb_true_iff in Hr as [H1 H2].
  apply Z.leb_le in H1. apply Z.ltb_lt in H2. split; assumption.
Qed.


Lemma selected_labelled sel w pvc :
  pvc ∈ selected sel w -> corev1.Labels pvc !! sel.1 = Some sel.2.
Proof.
  unfold selected. intros Hin. apply list_elem_of_filter in Hin as [Hin _].
  unfold selects in Hin. apply bool_decide_unpack in Hin. exact Hin.
Qed.

(** X21.  What a successful [CreateSnapshot] leaves behind.  Under every
    behaviour of the cluster, when the RPC returns a snapshot, the snapshot
    object named in the request carries the uid label with which
    [createVolumeFromSnapshot] will look it up, equal to the returned
    snapshot id, and a size annotation that reads back as the returned
    size; this size is the capacity recorded on the claim of the source
    volume, and that claim is idle again. *)
Theorem CreateSnapshot_records_size
    (fuel : nat) (s : ControllerServer) (req : CreateSnapshotRequest)
    (getAnswer patchAnswer : Answer) (now : Z) (w : World) :
  keyed w ->
  let run := CreateSnapshot fuel s req getAnswer patchAnswer now w in
  let snapshotKey :=
    (annot (Parameters req) "csi.storage.k8s.io/volumesnapshot/namespace",
     annot (Parameters req) "csi.storage.k8s.io/volumesnapshot/name") in
  forall snapshot, run.1 = inr snapshot ->
    ReadyToUse snapshot = true
    /\ SnapshotSourceVolumeId snapshot = SourceVolumeId req
    /\ (exists volumeSnapshot,
          snapshots run.2 !! snapshotKey = Some volumeSnapshot
          /\ volumesnapshotv1.UID volumeSnapshot = SnapshotId snapshot
          /\ volumesnapshotv1.Labels volumeSnapshot !! uidKey = Some (SnapshotId snapshot)
          /\ ParseInt (annot (volumesnapshotv1.Annotations volumeSnapshot) sizeKey)
             = Some (SizeBytes snapshot))
    /\ (exists key sourcePvc,
          pvcs run.2 !! key = Some sourcePvc
          /\ corev1.Labels sourcePvc !! uidKey = Some (SourceVolumeId req)
          /\ annot (corev1.Annotations sourcePvc) stateKey = "idle"
          /\ ParseInt (annot (corev1.Annotations sourcePvc) capacityKey)
             = Some (SizeBytes snapshot)).
Proof.
  intros Hk run snapshotKey. subst run.
  destruct (CreateSnapshot fuel s req getAnswer patchAnswer now w) as [r w'] eqn:H.
  cbn [fst snd]. intros snapshot ->. unfold CreateSnapshot in H.
  apply bind_inv in H as [(e & Hm & ?)|(volumeSnapshotName & w0 & Hm & H)]; [discriminate|].
  apply create_volume.getParameter_inv in Hm as [-> [[_ Hr]|[_ Hr]]]; [discriminate|].
  apply (inj inr) in Hr. subst volumeSnapshotName.
  apply bind_inv in H as [(e & Hm & ?)|(volumeSnapshotNamespace & w0 & Hm & H)];
    [discriminate|].
  apply create_volume.getParameter_inv in Hm as [-> [[_ Hr]|[_ Hr]]]; [discriminate|].
  apply (inj inr) in Hr. subst volumeSnapshotNamespace. fold snapshotKey in H.
  (* the snapshot object and the source claim *)
  apply bind_inv in H as [(e & Hm & ?)|(volumeSnapshot & w0 & Hm & H)]; [discriminate|].
  apply snapshots_Get_inv in Hm as [-> Hsnap]. cbv zeta in H.
  apply bind_inv in H as [(e & Hm & ?)|(sourcePvc & w1 & Hm & H)]; [discriminate|].
  apply FindPvcByLabelSelector_inv in Hm as [Hw1 [Hsel [[ns name] Hp]]].
  pose proof (Hk _ _ Hp) as Hkey. simpl in Hkey.
  assert (Huid : corev1.Labels sourcePvc !! uidKey = Some (SourceVolumeId req)).
  { apply (selected_labelled (uidKey, SourceVolumeId req) w). rewrite Hsel. left. }
  assert (Hp1 : pvcs w1 = pvcs w) by (rewrite Hw1; reflexivity).
  assert (Hs1 : snapshots w1 = snapshots w) by (rewrite Hw1; reflexivity).
  clear Hw1.
  (* the lock *)
  apply bind_inv in H as [(e & Hm & ?)|([] & w2 & Hm & H)]; [discriminate|].
  pose proof (same_snapshots_SetPvcStateTo _ _ _ _ _ _ Hm) as Hs2.
  apply preserves_SetPvcStateTo in Hm.
  assert (Hk1 : keyed w1) by (unfold keyed; rewrite Hp1; exact Hk).
  destruct (Hm Hk1) as [Hk2 He2]. clear Hm.
  destruct (ParseInt (annot (corev1.Annotations sourcePvc) capacityKey)) as [size|] eqn:Hparse;
    [|discriminate].
  pose proof (ParseInt_in_int64 _ _ Hparse) as Hrange.
  (* the patch of the snapshot object *)
  apply bind_inv in H as [(e & Hm & ?)|([] & w3 & Hm & H)]; [discriminate|].
  apply snapshots_Patch_inv in Hm as (Hp3 & _ & _ & obj & Hobj & Hs3).
  assert (obj = volumeSnapshot) as ->.
  { unfold same_snapshots in Hs2. rewrite Hs2, Hs1, Hsnap in Hobj. congruence. }
  (* the job *)
  apply bind_inv in H as [(e & Hm & ?)|([] & w4 & Hm & H)]; [discriminate|].
  pose proof (preserves_CreateJob same_claims _ _ _ _ Hm) as Hp4.
  apply (preserves_CreateJob same_snapshots) in Hm. rename Hm into Hs4.
  apply bind_inv in H as [(e & Hm & ?)|([] & w5 & Hm & H)]; [discriminate|].
  pose proof (preserves_WaitForJobToSucceed same_claims _ _ _ _ _ _ Hm) as Hp5.
  apply (preserves_WaitForJobToSucceed same_snapshots) in Hm. rename Hm into Hs5.
  apply bind_inv in H as [(e & Hm & ?)|([] & w6 & Hm & H)]; [discriminate|].
  pose proof (preserves_DeleteJobSynchronously same_claims _ _ _ _ _ _ Hm) as Hp6.
  apply (preserves_DeleteJobSynchronously same_snapshots) in Hm. rename Hm into Hs6.
  (* the release *)
  apply bind_inv in H as [(e & Hm & ?)|([] & w7 & Hm & H)]; [discriminate|].
  pose proof (same_snapshots_SetPvcStateToIdle _ _ _ _ _ Hm) as Hs7.
  apply pvcs_Patch_inv in Hm as (claim & Hclaim & Hp7).
  unfold ret in H. injection H as <- <-. cbn [ReadyToUse SnapshotSourceVolumeId SnapshotId SizeBytes].
  unfold same_claims, same_snapshots in *.
  split; [reflexivity|]. split; [reflexivity|]. split.
  - eexists. split; [rewrite Hs7, Hs6, Hs5, Hs4, Hs3; apply lookup_insert_eq|].
    split; [reflexivity|]. split.
    + simpl. erewrite lookup_union_Some_l; [reflexivity|apply lookup_singleton_eq].
    + unfold annot. simpl. erewrite lookup_union_Some_l;
        [apply ParseInt_FormatInt_in_int64, Hrange|].
      rewrite !lookup_insert_ne by (intros Heq; vm_compute in Heq; discriminate).
      apply lookup_singleton_eq.
  - rewrite Hp6, Hp5, Hp4, Hp3 in Hclaim.
    specialize (He2 (corev1.Namespace sourcePvc, corev1.Name sourcePvc)).
    rewrite Hp1, <- Hkey, Hp in He2. rewrite Hkey in He2. rewrite Hclaim in He2.
    inversion He2 as [? ? [Hrel Hann]|]; subst.
    exists (corev1.Namespace sourcePvc, corev1.Name sourcePvc). eexists.
    split; [rewrite Hp7; apply lookup_insert_eq|]. split; [|split].
    + simpl. rewrite (left_id_L ∅ (∪)). rewrite <- Hrel in Huid. exact Huid.
    + apply annot_strategic_merge_idle.
    + rewrite <- Hparse. f_equal. unfold annot. simpl.
      rewrite lookup_union_r by (apply lookup_singleton_ne; apply stateKey_ne_capacityKey).
      rewrite Hann; [reflexivity|].
      rewrite list_elem_of_singleton. intros Heq. symmetry in Heq. revert Heq.
      apply stateKey_ne_capacityKey.
Qed.




End snapshot_rpc.

(** * Concrete runs *)

Module examples.
Import vocabulary fixtures.
Import golang common controller.
Local Open Scope list_scope.

(** ** Witnesses *)

Lemma staged_on_roundtrip_witness :
  stringListToSet (setToStringList elements {[ "node-a"; "node-b" ]})
  = {[ "node-a"; "node-b" ]}
  /\ setToStringList elements ∅ = ""
  /\ stringListToSet "" = ∅.
Proof.
  apply (encoding.staged_on_roundtrip elements).
  - intros set. reflexivity.
  - intros x Hx. apply elem_of_union in Hx as [Hx|Hx];
      apply elem_of_singleton in Hx as ->. all: split.
    all: first [discriminate|reflexivity].
Defined.


Lemma StagePvcOnNode_transitions_witness :
  exists pvc',
    pvcs (StagePvcOnNode elements "vol" "default" "node-b"
            (cluster [staged_claim] [] always_answers)).2 !! ("default", "vol") = Some pvc'
    /\ annot (corev1.Annotations pvc') stateKey = "staged"
    /\ stringListToSet (annot (corev1.Annotations pvc') stagedOnNodesKey)
       = {[ "node-a"; "node-b" ]}.
Proof.
  pose proof (state_machine.StagePvcOnNode_transitions elements
                ltac:(intros set; reflexivity)
                (cluster [staged_claim] [] always_answers) "vol" "default" "node-b"
                staged_claim ltac:(vm_compute; reflexivity) eq_refl eq_refl eq_refl)
    as (H & _).
  destruct H as (pvc' & Hrun & Hstate & _ & Hset & _);
    [reflexivity|right; reflexivity|reflexivity|].
  exists pvc'. rewrite Hrun. split; [apply lookup_insert_eq|].
  split; [exact Hstate|].
  rewrite Hset; [|discriminate|reflexivity].
  vm_compute. reflexivity.
Defined.




Lemma ControllerExpandVolume_already_expanded_witness :
  ControllerExpandVolume 0 server (expand_request 4096)
    (cluster [idle_claim] [] always_answers)
  = (inr {| csi.ExpandCapacityBytes := 2048; csi.NodeExpansionRequired := false |},
     logged (PvcList (uidKey, "u1")) true (cluster [idle_claim] [] always_answers)).
Proof.
  refine (proj1 (rpc.ControllerExpandVolume_already_expanded 0 server (expand_request 4096)
                   (cluster [idle_claim] [] always_answers) idle_claim 512 512 4096 2048
                   _ _ _ _ _ _) _).
  - discriminate.
  - vm_compute. reflexivity.
  - reflexivity.
  - vm_compute. reflexivity.
  - vm_compute. reflexivity.
  - lia.
  - right. lia.
Defined.


(** ** Counterexamples *)


(** C6 as stated fails when the recorded capacity exceeds a non-zero
    limit: the volume holds 2048 bytes, 512 are requested with a limit of
    1024, and the RPC fails instead of reporting the current capacity. *)
Lemma ControllerExpandVolume_counterexample :
  let w := cluster [idle_claim] [] always_answers in
  validateCapacity (csi.ExpandCapacityRange (expand_request 1024)) = (512, 512, 1024, None)
  /\ ParseInt (annot (corev1.Annotations idle_claim) capacityKey) = Some 2048
  /\ 512 <= 2048
  /\ (ControllerExpandVolume 0 server (expand_request 1024) w).1
     = inl (Status InvalidArgument
              "current volume capacity (2048) exceeds maximum capacity (1024)").
Proof.
  cbv zeta. split; [vm_compute; reflexivity|].
  split; [vm_compute; reflexivity|].
  split; [lia|]. vm_compute. reflexivity.
Qed.




(** ** Further runs *)

(** A staged claim is left alone by the reaper. *)
Example reaper_skips_staged_claim :
  let c := {| image := "subprovisioner:test" |} in
  let run := processNextItem 2 c "default/vol" false
               (cluster [staged_claim] [] cleanup_oracle) in
  log run.2 = [(PvcGet "default" "vol", true)]
  /\ queue run.2 = [Forget "default/vol"; Done "default/vol"].
Proof. cbv zeta. split; vm_compute; reflexivity. Qed.

(** Without [backingClaimName] the RPC fails before any request is sent. *)
Example CreateVolume_missing_parameter :
  let req :=
    {| csi.Parameters :=
         {[ "csi.storage.k8s.io/pvc/name" := "new";
            "csi.storage.k8s.io/pvc/namespace" := "default" ]};
       csi.CreateCapacityRange := Some {| csi.RequiredBytes := 512; csi.LimitBytes := 0 |};
       csi.VolumeCapabilities := [];
       csi.ContentSource := None |} in
  let w := cluster [new_claim] [] always_answers in
  fails_before_patch req []
  /\ CreateVolume 1 server req w
     = (inl (Status InvalidArgument
               ("missing/empty parameter " +:+ dq +:+ "backingClaimName" +:+ dq)), w).
Proof.
  cbv zeta. split; [|vm_compute; reflexivity].
  left. exists "backingClaimName". split; [|vm_compute; reflexivity].
  unfold required_parameters. rewrite !elem_of_cons. auto.
Qed.

(** A node name with a comma is stored as it is and read back as two
    names; the empty name alone is read back as no name. *)
Example staged_on_encoding_edges :
  stringListToSet (setToStringList elements {[ "a,b" ]}) = {[ "a"; "b" ]}
  /\ stringListToSet (setToStringList elements {[ "" ]}) = ∅.
Proof. split; vm_compute; reflexivity. Qed.

Lemma validateCapacity_without_overflow_witness :
  least_multiple_512_ge 1024 1000
  /\ validateCapacity (Some {| csi.RequiredBytes := 1000; csi.LimitBytes := 0 |})
     = (1024, 1000, 0, None).
Proof.
  destruct (capacity.validateCapacity_without_overflow 1000 0 ltac:(lia))
    as (Hleast & _ & Hok).
  split; [exact Hleast|]. apply Hok. lia.
Defined.

(** Capacities in range are rounded up to the next multiple of 512. *)
Example validateCapacity_rounds_up :
  validateCapacity (Some {| csi.RequiredBytes := 1000; csi.LimitBytes := 0 |})
  = (1024, 1000, 0, None)
  /\ validateCapacity (Some {| csi.RequiredBytes := 1000; csi.LimitBytes := 1023 |})
     = (-1, -1, -1, Some (Status InvalidArgument "capacity must be a multiple of 512")).
Proof. split; vm_compute; reflexivity. Qed.

(** ** Witnesses of the further properties *)

Import scenarios invariants lifecycle snapshotting monitor.
Local Open Scope list_scope.

Lemma staged_on_order_independent_witness :
  stringListToSet (setToStringList elements {[ "node-a"; "b,c" ]})
  = stringListToSet (setToStringList (fun set => reverse (elements set)) {[ "node-a"; "b,c" ]})
  /\ stringListToSet (setToStringList elements {[ "node-a"; "b,c" ]})
     = {[ "node-a"; "b"; "c" ]}.
Proof.
  destruct (codec.staged_on_order_independent elements (fun set => reverse (elements set))
              {[ "node-a"; "b,c" ]}
              ltac:(intros set; reflexivity)
              ltac:(intros set; apply reverse_Permutation)) as [H1 H2].
  split; [exact H1|]. rewrite H2. vm_compute. reflexivity.
Defined.

Lemma keyed_cluster claims snaps oracle : keyed (cluster claims snaps oracle).
Proof.
  unfold keyed, cluster. simpl. induction claims as [|p claims IH]; simpl.
  - apply map_Forall_empty.
  - apply map_Forall_insert_2; [reflexivity|exact IH].
Qed.

Lemma staging_counts_nodes_witness :
  let run := run_ops elements "vol" "default"
               [Stage "node-a"; Stage "node-b"; Unstage "node-a"]
               (cluster [idle_claim] [] always_answers) in
  run.1 = inr tt
  /\ exists pvc', pvcs run.2 !! ("default", "vol") = Some pvc'
                  /\ staged_on pvc' = {[ "node-b" ]}
                  /\ pvcIsStaged pvc' = true.
Proof.
  cbv zeta.
  destruct (transitions.staging_counts_nodes elements ltac:(intros set; reflexivity)
              [Stage "node-a"; Stage "node-b"; Unstage "node-a"]
              (cluster [idle_claim] [] always_answers) "vol" "default" idle_claim)
    as (Hok & pvc' & Hp & _ & Hset & _ & Hstaged).
  - vm_compute. reflexivity.
  - reflexivity.
  - reflexivity.
  - reflexivity.
  - split; [vm_compute; set_solver|]. left. split; vm_compute; reflexivity.
  - intros k Hk. reflexivity.
  - repeat constructor; discriminate.
  - split; [exact Hok|]. exists pvc'. split; [exact Hp|].
    split; [rewrite Hset; vm_compute; reflexivity|].
    rewrite Hstaged. vm_compute. reflexivity.
Defined.


Lemma state_is_a_lock_witness :
  let w := cluster [idle_claim] [] always_answers in
  let locked := rewritten (set_annotation stateKey "cloning" idle_claim) w in
  SetPvcStateTo "vol" "default" "cloning" w = (inr tt, locked)
  /\ (exists msg,
        StagePvcOnNode elements "vol" "default" "node-a" locked
        = (inl (Status FailedPrecondition msg), logged (PvcGet "default" "vol") true locked)).
Proof.
  cbv zeta.
  destruct (locking.state_is_a_lock (cluster [idle_claim] [] always_answers)
              "vol" "default" idle_claim
              ltac:(vm_compute; reflexivity) eq_refl eq_refl eq_refl
              ltac:(vm_compute; reflexivity) ltac:(intros k Hk; reflexivity)
              elements "cloning" ltac:(rewrite !elem_of_cons; auto))
    as (Hlock & _ & Hstage & _).
  split; [exact Hlock|]. apply Hstage.
Defined.

Lemma lock_and_release_restores_witness :
  let w := cluster [idle_claim] [] always_answers in
  let run := (SetPvcStateTo "vol" "default" "expanding" ;;;
              SetPvcStateToIdle "vol" "default") w in
  run.1 = inr tt /\ pvcs run.2 = pvcs w.
Proof.
  cbv zeta.
  destruct (locking.lock_and_release_restores (cluster [idle_claim] [] always_answers)
              "vol" "default" idle_claim
              ltac:(vm_compute; reflexivity) eq_refl eq_refl eq_refl
              ltac:(vm_compute; reflexivity) ltac:(intros k Hk; reflexivity)
              "expanding" ltac:(discriminate))
    as (Hok & Hstore & _).
  split; [exact Hok|exact Hstore].
Defined.



Lemma ControllerExpandVolume_never_shrinks_witness :
  let run := ControllerExpandVolume 1 server grow_request
               (cluster [idle_claim] [] job_cycle_oracle) in
  run.1 = inr {| csi.ExpandCapacityBytes := 4096; csi.NodeExpansionRequired := false |}
  /\ keyed run.2
  /\ option_Forall2 grown (Some idle_claim) (pvcs run.2 !! ("default", "vol")).
Proof.
  cbv zeta.
  destruct (expansion.ControllerExpandVolume_never_shrinks 1 server grow_request
              (cluster [idle_claim] [] job_cycle_oracle) (keyed_cluster _ _ _))
    as (Hk & He & _).
  split; [vm_compute; reflexivity|]. split; [exact Hk|]. exact (He ("default", "vol")).
Defined.

Lemma claim_helpers_frame_witness :
  let w := cluster [staged_claim] [] always_answers in
  let run := UnstagePvcFromNode elements "vol" "default" "node-a" w in
  keyed run.2 /\ evolves (same_but_annotations [stateKey; stagedOnNodesKey]) w run.2.
Proof.
  cbv zeta.
  destruct (records.claim_helpers_frame elements (cluster [staged_claim] [] always_answers)
              "vol" "default" (keyed_cluster _ _ _)) as (_ & _ & _ & H).
  exact (H "node-a").
Defined.

Lemma busy_volume_rejected_witness :
  let w := cluster [staged_claim] [] always_answers in
  exists msg,
    ControllerExpandVolume 1 server grow_request w
    = (inl (Status FailedPrecondition msg),
       logged (PvcGet "default" "vol") true (logged (PvcList (uidKey, "u1")) true w)).
Proof.
  cbv zeta.
  destruct (volumes.busy_volume_rejected 1 server (cluster [staged_claim] [] always_answers)
              "u1" staged_claim eq_refl eq_refl
              ltac:(vm_compute; reflexivity) ltac:(vm_compute; reflexivity))
    as [_ Hexpand].
  apply (Hexpand ltac:(right; split; vm_compute; discriminate)
           grow_request 4096 4096 0 2048);
    [reflexivity|discriminate|vm_compute; reflexivity|vm_compute; reflexivity|lia|left; reflexivity].
Defined.


Lemma CreateVolume_finalizer_stays_witness :
  let run := CreateVolume 1 server create_request (cluster [new_claim] [] always_answers) in
  keyed run.2
  /\ exists pvc',
       pvcs run.2 !! ("default", "new") = Some pvc'
       /\ pvcHasFinalizer pvc' = true
       /\ corev1.Labels pvc' !! uidKey = Some (corev1.UID pvc').
Proof.
  cbv zeta.
  apply (volumes.CreateVolume_finalizer_stays 1 server create_request
           (cluster [new_claim] [] always_answers) (keyed_cluster _ _ _)).
  right. vm_compute. reflexivity.
Defined.

Lemma runWorker_marks_keys_done_witness :
  let w := cluster [staged_claim] [] always_answers in
  let run := runWorker 1 monitor_controller
               [("default/vol", false); ("default/gone", false); ("", true)] w in
  marked_done (queue_since w run.2) = ["default/vol"; "default/gone"].
Proof.
  cbv zeta.
  destruct (work_queue.runWorker_marks_keys_done 1 monitor_controller
              [("default/vol", false); ("default/gone", false); ("", true)]
              (cluster [staged_claim] [] always_answers)
              ltac:(vm_compute; reflexivity)) as (_ & Hdone & _).
  exact Hdone.
Defined.

Lemma enqueued_key_names_the_claim_witness :
  AddFunc released_claim = ["default/vol"]
  /\ SplitMetaNamespaceKey "default/vol" = inr ("default", "vol").
Proof.
  destruct (work_queue.enqueued_key_names_the_claim released_claim released_claim
              eq_refl eq_refl) as (_ & _ & H).
  destruct H as (key & Hadd & Hsplit & _); [discriminate|].
  assert (key = "default/vol") as -> by (vm_compute in Hadd; congruence).
  split; [exact Hadd|exact Hsplit].
Defined.


Lemma CreateSnapshot_records_size_witness :
  let run := CreateSnapshot 1 server snapshot_request (Answered 0) (Answered 0) 0
               (cluster [idle_claim] [bare_snapshot] job_cycle_oracle) in
  run.1 = inr {| SizeBytes := 2048; SnapshotId := "u-snap"; SnapshotSourceVolumeId := "u1";
                 CreationTime := 0; ReadyToUse := true |}
  /\ exists volumeSnapshot,
       snapshots run.2 !! ("default", "snap") = Some volumeSnapshot
       /\ volumesnapshotv1.Labels volumeSnapshot !! uidKey = Some "u-snap"
       /\ ParseInt (annot (volumesnapshotv1.Annotations volumeSnapshot) sizeKey) = Some 2048.
Proof.
  cbv zeta.
  assert (Hrun : (CreateSnapshot 1 server snapshot_request (Answered 0) (Answered 0) 0
                    (cluster [idle_claim] [bare_snapshot] job_cycle_oracle)).1
                 = inr {| SizeBytes := 2048; SnapshotId := "u-snap";
                          SnapshotSourceVolumeId := "u1"; CreationTime := 0;
                          ReadyToUse := true |})
    by (vm_compute; reflexivity).
  split; [exact Hrun|].
  destruct (snapshot_rpc.CreateSnapshot_records_size 1 server snapshot_request
              (Answered 0) (Answered 0) 0
              (cluster [idle_claim] [bare_snapshot] job_cycle_oracle)
              (keyed_cluster _ _ _) _ Hrun)
    as (_ & _ & (volumeSnapshot & Hs & _ & Hlabel & Hsize) & _).
  exists volumeSnapshot. split; [exact Hs|]. split; [exact Hlabel|exact Hsize].
Defined.


End examples.
